(** * Step-size search of the HMC sampler (stan/mcmc/hmc/base_hmc.hpp) and the
    unconstraining writer (stan/io/writer.hpp)

    Part I embeds the code: binary64 arithmetic as the Standard Library's
    [SpecFloat] (no axiom, everything computes), the data members and methods
    of [base_hmc] over the Hamiltonian, integrator and generator it is
    instantiated with, and [io::writer] over the functions of stan::math.
    Part II proves the properties: first the facts about rounding that the
    search relies on, then the sampler, then the writer. *)

From Stdlib Require Import ZArith QArith Qpower Bool List Lia Lqa String.
From Stdlib Require Import SpecFloat.
Import ListNotations.
Local Open Scope Z_scope.

(** * Part I: the model *)

(** ** double: IEEE 754 binary64 *)

Definition prec : Z := 53.
Definition emax : Z := 1024.
Definition double : Type := spec_float.
Definition is_double (x : double) : Prop := valid_binary prec emax x = true.

(* +, -, * of C++ on double: round to nearest, ties to even *)
Definition d_mul : double -> double -> double := SFmul prec emax.
Definition d_add : double -> double -> double := SFadd prec emax.
Definition d_sub : double -> double -> double := SFsub prec emax.

Definition is_nan (x : spec_float) : bool :=
  match x with S754_nan => true | _ => false end.

Definition is_finite (x : spec_float) : bool :=
  match x with S754_zero _ | S754_finite _ _ _ => true | _ => false end.

(* comparison operators of C++ on double: every comparison with NaN is false *)
Definition d_lt (x y : double) : bool := SFltb x y.
Definition d_gt (x y : double) : bool := SFltb y x.
Definition d_le (x y : double) : bool := SFleb x y.
Definition d_eqb (x y : double) : bool := SFeqb x y.

(* boost::math::isnan *)
Definition isnan (x : double) : bool := is_nan x.
(* std::numeric_limits<double>::infinity() *)
Definition infinity : double := S754_infinity false.
(* std::log(0.8) in binary64: -0x1.c8ff7c79a9a2p-3 *)
Definition log_0_8 : double := S754_finite true 8039593716390432 (-55).

(* the constants 0.0, 1.0, 2.0, 0.5 and 1e7 *)
Definition d_zero : double := S754_zero false.
Definition d_one : double := S754_finite false 4503599627370496 (-52).
Definition d_two : double := S754_finite false 4503599627370496 (-51).
Definition d_half : double := S754_finite false 4503599627370496 (-53).
Definition d_1e7 : double := S754_finite false 5368709120000000 (-29).

(** ** base_hmc *)

Module Hmc.

(* The Hamiltonian, the integrator and the uniform generator the sampler is
   instantiated with (template parameters of base_hmc), and the base class
   ps_point of the Hamiltonian's PointType: ps_point.hpp is not part of these
   sources, so copying the ps_point sub-object of a point and assigning to it
   are parameters. *)
Record collaborators (Point Rng Log : Type) : Type := {
  ps_point : Type;
  (* ps_point z_init(z): a copy of the ps_point sub-object of z *)
  ps_point_copy : Point -> ps_point;
  (* z.ps_point::operator=(z_init): the members of z outside ps_point stay *)
  ps_point_assign : Point -> ps_point -> Point;
  sample_p : Point -> Rng -> Point * Rng;
  init : Point -> Log -> Point * Log;
  H : Point -> double;
  evolve : Point -> double -> Log -> Point * Log;
  rand_uniform_ : Rng -> double * Rng
}.
Arguments ps_point {Point Rng Log} _.
Arguments ps_point_copy {Point Rng Log} _ _.
Arguments ps_point_assign {Point Rng Log} _ _ _.
Arguments sample_p {Point Rng Log} _ _ _.
Arguments init {Point Rng Log} _ _ _.
Arguments H {Point Rng Log} _ _.
Arguments evolve {Point Rng Log} _ _ _ _.
Arguments rand_uniform_ {Point Rng Log} _ _.

(* data members of base_hmc *)
Record base_hmc (Point Rng : Type) : Type := {
  z_ : Point;
  rand_int_ : Rng;
  nom_epsilon_ : double;
  epsilon_ : double;
  epsilon_jitter_ : double
}.
Arguments z_ {Point Rng} _.
Arguments rand_int_ {Point Rng} _.
Arguments nom_epsilon_ {Point Rng} _.
Arguments epsilon_ {Point Rng} _.
Arguments epsilon_jitter_ {Point Rng} _.
Arguments Build_base_hmc {Point Rng} _ _ _ _ _.

Definition set_z {Point Rng} (s : base_hmc Point Rng) (z : Point) : base_hmc Point Rng :=
  Build_base_hmc z (rand_int_ s) (nom_epsilon_ s) (epsilon_ s) (epsilon_jitter_ s).
Definition set_rand_int {Point Rng} (s : base_hmc Point Rng) (r : Rng) : base_hmc Point Rng :=
  Build_base_hmc (z_ s) r (nom_epsilon_ s) (epsilon_ s) (epsilon_jitter_ s).
Definition set_nom_epsilon {Point Rng} (s : base_hmc Point Rng) (e : double) : base_hmc Point Rng :=
  Build_base_hmc (z_ s) (rand_int_ s) e (epsilon_ s) (epsilon_jitter_ s).
Definition set_epsilon {Point Rng} (s : base_hmc Point Rng) (e : double) : base_hmc Point Rng :=
  Build_base_hmc (z_ s) (rand_int_ s) (nom_epsilon_ s) e (epsilon_jitter_ s).
Definition set_epsilon_jitter {Point Rng} (s : base_hmc Point Rng) (j : double) : base_hmc Point Rng :=
  Build_base_hmc (z_ s) (rand_int_ s) (nom_epsilon_ s) (epsilon_ s) j.

(* how a call ends: normal return or std::runtime_error *)
Inductive outcome : Type :=
| Returned
| Threw (what : string).

Definition improper_msg : string := "Posterior is improper. Please check your model.".
Definition too_small_msg : string :=
  "No acceptably small step size could be found. Perhaps the posterior is not continuous?".

(* locals of one probe, kept as a ghost record of what the code computed *)
Record probe_rec : Type := {
  pr_epsilon : double;   (* step size passed to evolve *)
  pr_H0 : double;        (* H before the step *)
  pr_h_raw : double;     (* H after the step, as returned *)
  pr_h : double;         (* h after the isnan test *)
  pr_delta_H : double    (* H0 - h *)
}.

Record iter_rec : Type := {
  it_probe : probe_rec;
  it_direction : Z       (* value of [direction] read by this iteration *)
}.

Record ghost : Type := {
  g_first : probe_rec;
  g_direction : Z;
  g_loop : list iter_rec
}.

Section Sampler.
Context {Point Rng Log : Type}.
Variable C : collaborators Point Rng Log.

(* sample_p; init; H0 = H; evolve; h = H; if isnan(h) h = infinity; delta_H = H0 - h *)
Definition probe (s : base_hmc Point Rng) (logger : Log) : probe_rec * base_hmc Point Rng * Log :=
  let '(z1, r1) := sample_p C (z_ s) (rand_int_ s) in
  let s := set_rand_int (set_z s z1) r1 in
  let '(z2, logger) := init C (z_ s) logger in
  let s := set_z s z2 in
  let H0 := H C (z_ s) in
  let '(z3, logger) := evolve C (z_ s) (nom_epsilon_ s) logger in
  let s := set_z s z3 in
  let h_raw := H C (z_ s) in
  let h := if isnan h_raw then infinity else h_raw in
  let delta_H := d_sub H0 h in
  (Build_probe_rec (nom_epsilon_ s) H0 h_raw h delta_H, s, logger).

Inductive loop_exit : Type :=
| Break
| Throw (what : string).

(* one iteration of the while (1) loop of init_stepsize; [None] when control
   reaches the end of the body and the loop goes round again *)
Definition loop_body (z_init : ps_point C) (direction : Z)
    (s : base_hmc Point Rng) (logger : Log)
  : iter_rec * option loop_exit * base_hmc Point Rng * Log :=
  let s := set_z s (ps_point_assign C (z_ s) z_init) in
  let '(pr, s, logger) := probe s logger in
  let it := Build_iter_rec pr direction in
  let delta_H := pr_delta_H pr in
  if (direction =? 1) && negb (d_gt delta_H log_0_8) then
    (it, Some Break, s, logger)
  else if (direction =? -1) && negb (d_lt delta_H log_0_8) then
    (it, Some Break, s, logger)
  else
    let s := set_nom_epsilon s
               (if direction =? 1 then d_mul d_two (nom_epsilon_ s)
                else d_mul d_half (nom_epsilon_ s)) in
    if d_gt (nom_epsilon_ s) d_1e7 then
      (it, Some (Throw improper_msg), s, logger)
    else if d_eqb (nom_epsilon_ s) d_zero then
      (it, Some (Throw too_small_msg), s, logger)
    else
      (it, None, s, logger).

(* the loop; [fuel] bounds the number of iterations *)
Fixpoint search_loop (fuel : nat) (z_init : ps_point C) (direction : Z)
    (s : base_hmc Point Rng) (logger : Log)
  : option (loop_exit * base_hmc Point Rng * Log * list iter_rec) :=
  match fuel with
  | O => None
  | S fuel' =>
      match loop_body z_init direction s logger with
      | (it, Some e, s, logger) => Some (e, s, logger, [it])
      | (it, None, s, logger) =>
          match search_loop fuel' z_init direction s logger with
          | Some (e, s, logger, its) => Some (e, s, logger, it :: its)
          | None => None
          end
      end
  end.

Definition init_stepsize (fuel : nat) (s : base_hmc Point Rng) (logger : Log)
  : option (outcome * base_hmc Point Rng * Log * option ghost) :=
  let z_init := ps_point_copy C (z_ s) in
  if d_eqb (nom_epsilon_ s) d_zero || d_gt (nom_epsilon_ s) d_1e7 then
    Some (Returned, s, logger, None)
  else
    let '(pr, s, logger) := probe s logger in
    let delta_H := pr_delta_H pr in
    let direction := if d_gt delta_H log_0_8 then 1 else -1 in
    match search_loop fuel z_init direction s logger with
    | None => None
    | Some (Break, s, logger, its) =>
        Some (Returned, set_z s (ps_point_assign C (z_ s) z_init), logger,
              Some (Build_ghost pr direction its))
    | Some (Throw what, s, logger, its) =>
        Some (Threw what, s, logger, Some (Build_ghost pr direction its))
    end.

(* set_nominal_stepsize: [update_L_] is the hook of the derived sampler, which
   reads the base members and updates the members of the derived class *)
Definition set_nominal_stepsize {Derived : Type}
    (update_L_ : base_hmc Point Rng -> Derived -> Derived)
    (e : double) (s : base_hmc Point Rng) (d : Derived) : base_hmc Point Rng * Derived :=
  let s := if d_gt e d_zero then set_nom_epsilon s e else s in
  (s, update_L_ s d).

Definition get_nominal_stepsize (s : base_hmc Point Rng) : double := nom_epsilon_ s.
Definition get_current_stepsize (s : base_hmc Point Rng) : double := epsilon_ s.

Definition set_stepsize_jitter (j : double) (s : base_hmc Point Rng) : base_hmc Point Rng :=
  if d_gt j d_zero && d_lt j d_one then set_epsilon_jitter s j else s.

Definition get_stepsize_jitter (s : base_hmc Point Rng) : double := epsilon_jitter_ s.

(* a double used as a condition is true unless it compares equal to zero *)
Definition truthy (x : double) : bool := negb (d_eqb x d_zero).

Definition sample_stepsize (s : base_hmc Point Rng) : base_hmc Point Rng :=
  let s := set_epsilon s (nom_epsilon_ s) in
  if truthy (epsilon_jitter_ s) then
    let '(u, r) := rand_uniform_ C (rand_int_ s) in
    let s := set_rand_int s r in
    set_epsilon s
      (d_mul (epsilon_ s)
         (d_add d_one (d_mul (epsilon_jitter_ s) (d_sub (d_mul d_two u) d_one))))
  else s.

(* the point one probe leaves behind, started at point z with generator r,
   step size eps and logger l *)
Definition probe_point (z : Point) (r : Rng) (eps : double) (l : Log) : Point :=
  fst (evolve C (fst (init C (fst (sample_p C z r)) l)) eps (snd (init C (fst (sample_p C z r)) l))).

(* what the record of a probe satisfies *)
Definition probe_ok (pr : probe_rec) : Prop :=
  pr_h pr = (if isnan (pr_h_raw pr) then infinity else pr_h_raw pr) /\
  is_nan (pr_h pr) = false /\
  pr_delta_H pr = d_sub (pr_H0 pr) (pr_h pr).

(* every loop probe starts from a point whose ps_point sub-object has been
   assigned z_init *)
Definition from_point (z_init : ps_point C) (pr : probe_rec) : Prop :=
  exists (s1 : base_hmc Point Rng) (l1 : Log) (z0 : Point),
    z_ s1 = ps_point_assign C z0 z_init /\ pr = fst (fst (probe s1 l1)).

(* copying the ps_point sub-object after assigning to it gives what was
   assigned *)
Definition copy_of_assigned : Prop :=
  forall (z : Point) (z_init : ps_point C),
    ps_point_copy C (ps_point_assign C z z_init) = z_init.

(* the result of init_stepsize from the result of its loop *)
Definition finish (z_init : ps_point C) (pr : probe_rec) (direction : Z)
    (r : loop_exit * base_hmc Point Rng * Log * list iter_rec)
  : outcome * base_hmc Point Rng * Log * option ghost :=
  match r with
  | (Break, s, logger, its) =>
      (Returned, set_z s (ps_point_assign C (z_ s) z_init), logger,
       Some (Build_ghost pr direction its))
  | (Throw what, s, logger, its) =>
      (Threw what, s, logger, Some (Build_ghost pr direction its))
  end.

(* every probe of a run, the first and those of the loop, has delta_H above
   log(0.8), respectively below it *)
Definition probes_above (g : ghost) : bool :=
  d_gt (pr_delta_H (g_first g)) log_0_8
  && forallb (fun it => d_gt (pr_delta_H (it_probe it)) log_0_8) (g_loop g).

Definition probes_below (g : ghost) : bool :=
  d_lt (pr_delta_H (g_first g)) log_0_8
  && forallb (fun it => d_lt (pr_delta_H (it_probe it)) log_0_8) (g_loop g).

End Sampler.
End Hmc.

(* Test doubles for the collaborators: a point with position and momentum
   that has no member outside ps_point, a drift step q += eps * p, unit
   momentum, and a choice of energy. *)
Module Stub.

Record ps_point : Type := {
  q : list double;
  p : list double;
  leapfrogs : nat          (* number of integrator steps applied to the point *)
}.

Definition sample_p (z : ps_point) (r : nat) : ps_point * nat :=
  (Build_ps_point (q z) (map (fun _ => d_one) (q z)) (leapfrogs z), S r).

Definition init (z : ps_point) (l : unit) : ps_point * unit := (z, l).

Definition evolve (z : ps_point) (eps : double) (l : unit) : ps_point * unit :=
  (Build_ps_point
     (map (fun xv => d_add (fst xv) (d_mul eps (snd xv))) (combine (q z) (p z)))
     (p z) (S (leapfrogs z)), l).

Definition rand_uniform_ (r : nat) : double * nat := (d_half, S r).

Definition make (energy : ps_point -> double) : Hmc.collaborators ps_point nat unit :=
  Hmc.Build_collaborators ps_point nat unit
    ps_point (fun z => z) (fun _ z_init => z_init)
    sample_p init energy evolve rand_uniform_.

Definition sum_sq (v : list double) : double :=
  fold_right (fun x acc => d_add (d_mul x x) acc) d_zero v.

(* energies *)
Definition flat (z : ps_point) : double := d_zero.
Definition rising (z : ps_point) : double :=
  match leapfrogs z with O => d_zero | S _ => d_one end.
Definition quadratic (z : ps_point) : double :=
  d_mul d_half (d_add (sum_sq (q z)) (sum_sq (p z))).
Definition always_inf (z : ps_point) : double := infinity.
Definition always_nan (z : ps_point) : double := S754_nan.

Definition origin : ps_point := Build_ps_point [d_zero] [d_zero] 0.

(* 0.1, the default nominal step size *)
Definition d_0_1 : double := S754_finite false 7205759403792794 (-56).

Definition fresh (eps : double) : Hmc.base_hmc ps_point nat :=
  Hmc.Build_base_hmc origin 0%nat eps eps d_zero.

(* 0.3 *)
Definition d_0_3 : double := S754_finite false 5404319552844595 (-54).

(* a generator whose uniform draw is always u *)
Definition with_draw (u : double) : Hmc.collaborators ps_point nat unit :=
  Hmc.Build_collaborators ps_point nat unit
    ps_point (fun z => z) (fun _ z_init => z_init)
    sample_p init quadratic evolve (fun r => (u, S r)).

(* A point type derived from ps_point with a member of its own: a count of
   the calls of init, kept by the Hamiltonian. *)
Record cached_point : Type := {
  base : ps_point;
  cache : nat
}.

Definition with_cache (energy : ps_point -> double)
  : Hmc.collaborators cached_point nat unit :=
  Hmc.Build_collaborators cached_point nat unit
    ps_point base (fun z z_init => Build_cached_point z_init (cache z))
    (fun z r => (Build_cached_point (fst (sample_p (base z) r)) (cache z),
                 snd (sample_p (base z) r)))
    (fun z l => (Build_cached_point (base z) (S (cache z)), l))
    (fun z => energy (base z))
    (fun z eps l => (Build_cached_point (fst (evolve (base z) eps l)) (cache z), l))
    rand_uniform_.

Definition fresh_cached (eps : double) : Hmc.base_hmc cached_point nat :=
  Hmc.Build_base_hmc (Build_cached_point origin 0) 0%nat eps eps d_zero.

End Stub.

(** ** io::writer *)

Module Writer.

(* result of a call that may throw *)
Inductive result (A : Type) : Type :=
| Ok (a : A)
| Throws (what : string).
Arguments Ok {A} a.
Arguments Throws {A} what.

(* Eigen::Matrix<T, Dynamic, Dynamic>: rows(), cols() and operator()(i, j) *)
Record matrix_t (T : Type) : Type := {
  rows : nat;
  cols : nat;
  coeff : nat -> nat -> T
}.
Arguments rows {T} _.
Arguments cols {T} _.
Arguments coeff {T} _ _ _.

(* data members of io::writer<T> *)
Record writer (T : Type) : Type := {
  data_r_ : list T;
  data_i_ : list Z;
  CONSTRAINT_TOLERANCE : double
}.
Arguments data_r_ {T} _.
Arguments data_i_ {T} _.
Arguments CONSTRAINT_TOLERANCE {T} _.
Arguments Build_writer {T} _ _ _.

(* 1E-8 in binary64 *)
Definition d_1e_8 : double := S754_finite false 6044629098073146 (-79).

(* std::vector::clear *)
Definition clear {A : Type} (v : list A) : list A := [].
(* std::vector::push_back *)
Definition push_back {A : Type} (v : list A) (x : A) : list A := v ++ [x].

(* writer(std::vector<T>& data_r, std::vector<int>& data_i): the members are
   initialised as copies of the arguments, then cleared *)
Definition make {T : Type} (data_r : list T) (data_i : list Z) : writer T :=
  let w := Build_writer data_r data_i d_1e_8 in
  let w := Build_writer (clear (data_r_ w)) (data_i_ w) (CONSTRAINT_TOLERANCE w) in
  let w := Build_writer (data_r_ w) (clear (data_i_ w)) (CONSTRAINT_TOLERANCE w) in
  w.

(* the accessors data_r() and data_i() *)
Definition data_r {T : Type} (w : writer T) : list T := data_r_ w.
Definition data_i {T : Type} (w : writer T) : list Z := data_i_ w.

(* the vectors of the caller and the writer built from them *)
Record program (T : Type) : Type := {
  caller_r : list T;
  caller_i : list Z;
  the_writer : writer T
}.
Arguments caller_r {T} _.
Arguments caller_i {T} _.
Arguments the_writer {T} _.
Arguments Build_program {T} _ _ _.

Definition construct {T : Type} (data_r : list T) (data_i : list Z) : program T :=
  Build_program data_r data_i (make data_r data_i).

(* a method of the writer: it may throw, and it may have changed the writer
   before it throws *)
Definition W (T A : Type) : Type := writer T -> result A * writer T.

Definition ret {T A : Type} (a : A) : W T A := fun w => (Ok a, w).
Definition bind {T A B : Type} (m : W T A) (f : A -> W T B) : W T B :=
  fun w => match m w with
           | (Ok a, w') => f a w'
           | (Throws what, w') => (Throws what, w')
           end.
Definition throw {T A : Type} (what : string) : W T A := fun w => (Throws what, w).
Definition lift {T A : Type} (r : result A) : W T A := fun w => (r, w).
Definition push_r {T : Type} (y : T) : W T unit :=
  fun w => (Ok tt, Build_writer (push_back (data_r_ w) y) (data_i_ w) (CONSTRAINT_TOLERANCE w)).
Definition push_i {T : Type} (n : Z) : W T unit :=
  fun w => (Ok tt, Build_writer (data_r_ w) (push_back (data_i_ w) n) (CONSTRAINT_TOLERANCE w)).

Declare Scope writer_scope.
Delimit Scope writer_scope with writer.
Notation "x <- m ;; k" := (bind m (fun x => k))
  (at level 61, m at next level, right associativity) : writer_scope.
Notation "m ;; k" := (bind m (fun _ => k))
  (at level 61, right associativity) : writer_scope.
Local Open Scope writer_scope.

(* for (...) body(x), leaving the loop at the first throw *)
Fixpoint for_each {T A : Type} (xs : list A) (body : A -> W T unit) : W T unit :=
  match xs with
  | [] => ret tt
  | x :: rest => body x ;; for_each rest body
  end.

(* the entries of a dense matrix in the order of
   for (j < cols) for (i < rows) y(i, j) *)
Definition column_major {T : Type} (y : matrix_t T) : list T :=
  flat_map (fun j => map (fun i => coeff y i j) (seq 0 (rows y))) (seq 0 (cols y)).

(* the stored values of a sparse matrix in the order of
   for (k < outerSize) for (InnerIterator it(y, k); it; ++it) it.value() *)
Definition sparse_matrix_t (T : Type) : Type := list (list T).
Definition stored_values {T : Type} (y : sparse_matrix_t T) : list T := List.concat y.

(* a call of one of the write methods, with its arguments *)
Inductive call (T : Type) : Type :=
| c_integer (n : Z)
| c_scalar_unconstrain (y : T)
| c_scalar_pos_unconstrain (y : T)
| c_scalar_lb_unconstrain (lb : double) (y : T)
| c_scalar_ub_unconstrain (ub : double) (y : T)
| c_scalar_lub_unconstrain (lb ub : double) (y : T)
| c_scalar_offset_multiplier_unconstrain (offset multiplier : double) (y : T)
| c_corr_unconstrain (y : T)
| c_prob_unconstrain (y : T)
| c_ordered_unconstrain (y : list T)
| c_positive_ordered_unconstrain (y : list T)
| c_vector_unconstrain (y : list T)
| c_row_vector_unconstrain (y : list T)
| c_matrix_unconstrain (y : matrix_t T)
| c_sparse_matrix_unconstrain (y : sparse_matrix_t T)
| c_vector_lb_unconstrain (lb : double) (y : list T)
| c_row_vector_lb_unconstrain (lb : double) (y : list T)
| c_matrix_lb_unconstrain (lb : double) (y : matrix_t T)
| c_sparse_matrix_lb_unconstrain (lb : double) (y : sparse_matrix_t T)
| c_vector_ub_unconstrain (ub : double) (y : list T)
| c_row_vector_ub_unconstrain (ub : double) (y : list T)
| c_matrix_ub_unconstrain (ub : double) (y : matrix_t T)
| c_sparse_matrix_ub_unconstrain (ub : double) (y : sparse_matrix_t T)
| c_vector_lub_unconstrain (lb ub : double) (y : list T)
| c_row_vector_lub_unconstrain (lb ub : double) (y : list T)
| c_matrix_lub_unconstrain (lb ub : double) (y : matrix_t T)
| c_sparse_matrix_lub_unconstrain (lb ub : double) (y : sparse_matrix_t T)
| c_vector_offset_multiplier_unconstrain (offset multiplier : double) (y : list T)
| c_row_vector_offset_multiplier_unconstrain (offset multiplier : double) (y : list T)
| c_matrix_offset_multiplier_unconstrain (offset multiplier : double) (y : matrix_t T)
| c_sparse_matrix_offset_multiplier_unconstrain (offset multiplier : double)
    (y : sparse_matrix_t T)
| c_unit_vector_unconstrain (y : list T)
| c_simplex_unconstrain (y : list T)
| c_cholesky_factor_cov_unconstrain (y : matrix_t T)
| c_cholesky_factor_corr_unconstrain (y : matrix_t T)
| c_cov_matrix_unconstrain (y : matrix_t T)
| c_corr_matrix_unconstrain (y : matrix_t T).

Arguments c_integer {T}.
Arguments c_scalar_unconstrain {T}.
Arguments c_scalar_pos_unconstrain {T}.
Arguments c_scalar_lb_unconstrain {T}.
Arguments c_scalar_ub_unconstrain {T}.
Arguments c_scalar_lub_unconstrain {T}.
Arguments c_scalar_offset_multiplier_unconstrain {T}.
Arguments c_corr_unconstrain {T}.
Arguments c_prob_unconstrain {T}.
Arguments c_ordered_unconstrain {T}.
Arguments c_positive_ordered_unconstrain {T}.
Arguments c_vector_unconstrain {T}.
Arguments c_row_vector_unconstrain {T}.
Arguments c_matrix_unconstrain {T}.
Arguments c_sparse_matrix_unconstrain {T}.
Arguments c_vector_lb_unconstrain {T}.
Arguments c_row_vector_lb_unconstrain {T}.
Arguments c_matrix_lb_unconstrain {T}.
Arguments c_sparse_matrix_lb_unconstrain {T}.
Arguments c_vector_ub_unconstrain {T}.
Arguments c_row_vector_ub_unconstrain {T}.
Arguments c_matrix_ub_unconstrain {T}.
Arguments c_sparse_matrix_ub_unconstrain {T}.
Arguments c_vector_lub_unconstrain {T}.
Arguments c_row_vector_lub_unconstrain {T}.
Arguments c_matrix_lub_unconstrain {T}.
Arguments c_sparse_matrix_lub_unconstrain {T}.
Arguments c_vector_offset_multiplier_unconstrain {T}.
Arguments c_row_vector_offset_multiplier_unconstrain {T}.
Arguments c_matrix_offset_multiplier_unconstrain {T}.
Arguments c_sparse_matrix_offset_multiplier_unconstrain {T}.
Arguments c_unit_vector_unconstrain {T}.
Arguments c_simplex_unconstrain {T}.
Arguments c_cholesky_factor_cov_unconstrain {T}.
Arguments c_cholesky_factor_corr_unconstrain {T}.
Arguments c_cov_matrix_unconstrain {T}.
Arguments c_corr_matrix_unconstrain {T}.

(* The arithmetic of the scalar type T that the writer uses and the functions
   of stan::math it calls; stan::math is not part of these sources, so they are
   parameters. The free and check functions may throw. *)
Record stan_math (T : Type) : Type := {
  T_default : T;
  T_is_negative : T -> bool;
  T_log : T -> T;
  T_minus : T -> T -> T;
  lb_free : T -> double -> result T;
  ub_free : T -> double -> result T;
  lub_free : T -> double -> double -> result T;
  offset_multiplier_free : T -> double -> double -> result T;
  corr_free : T -> result T;
  prob_free : T -> result T;
  check_ordered : list T -> result unit;
  check_positive_ordered : list T -> result unit;
  check_unit_vector : list T -> result unit;
  check_simplex : list T -> result unit;
  check_corr_matrix : matrix_t T -> result unit;
  unit_vector_free : list T -> result (list T);
  simplex_free : list T -> result (list T);
  cholesky_factor_free : matrix_t T -> result (list T);
  cholesky_corr_free : matrix_t T -> result (list T);
  cov_matrix_free : matrix_t T -> result (list T);
  corr_matrix_free : matrix_t T -> result (list T)
}.
Arguments T_default {T} _.
Arguments T_is_negative {T} _.
Arguments T_log {T} _.
Arguments T_minus {T} _.
Arguments lb_free {T} _.
Arguments ub_free {T} _.
Arguments lub_free {T} _.
Arguments offset_multiplier_free {T} _.
Arguments corr_free {T} _.
Arguments prob_free {T} _.
Arguments check_ordered {T} _.
Arguments check_positive_ordered {T} _.
Arguments check_unit_vector {T} _.
Arguments check_simplex {T} _.
Arguments check_corr_matrix {T} _.
Arguments unit_vector_free {T} _.
Arguments simplex_free {T} _.
Arguments cholesky_factor_free {T} _.
Arguments cholesky_corr_free {T} _.
Arguments cov_matrix_free {T} _.
Arguments corr_matrix_free {T} _.

Section Methods.
Context {T : Type}.
Variable M : stan_math T.

Definition integer (n : Z) : W T unit := push_i n.

Definition scalar_unconstrain (y : T) : W T unit := push_r y.

Definition scalar_pos_unconstrain (y : T) : W T unit :=
  if T_is_negative M y then throw "y is negative"
  else push_r (T_log M y).

Definition scalar_lb_unconstrain (lb : double) (y : T) : W T unit :=
  x <- lift (lb_free M y lb) ;; push_r x.

Definition scalar_ub_unconstrain (ub : double) (y : T) : W T unit :=
  x <- lift (ub_free M y ub) ;; push_r x.

Definition scalar_lub_unconstrain (lb ub : double) (y : T) : W T unit :=
  x <- lift (lub_free M y lb ub) ;; push_r x.

Definition scalar_offset_multiplier_unconstrain (offset multiplier : double) (y : T)
  : W T unit :=
  x <- lift (offset_multiplier_free M y offset multiplier) ;; push_r x.

Definition corr_unconstrain (y : T) : W T unit :=
  x <- lift (corr_free M y) ;; push_r x.

Definition prob_unconstrain (y : T) : W T unit :=
  x <- lift (prob_free M y) ;; push_r x.

(* log(y[i] - y[i - 1]) for i = 1 .. size - 1, given y[i - 1] *)
Fixpoint log_diffs (prev : T) (ys : list T) : list T :=
  match ys with
  | [] => []
  | y :: rest => T_log M (T_minus M y prev) :: log_diffs y rest
  end.

Definition ordered_unconstrain (y : list T) : W T unit :=
  match y with
  | [] => ret tt
  | y0 :: rest =>
      lift (check_ordered M y) ;;
      push_r y0 ;;
      for_each (log_diffs y0 rest) push_r
  end.

Definition positive_ordered_unconstrain (y : list T) : W T unit :=
  match y with
  | [] => ret tt
  | y0 :: rest =>
      lift (check_positive_ordered M y) ;;
      push_r (T_log M y0) ;;
      for_each (log_diffs y0 rest) push_r
  end.

Definition vector_unconstrain (y : list T) : W T unit := for_each y push_r.
Definition row_vector_unconstrain (y : list T) : W T unit := for_each y push_r.
Definition matrix_unconstrain (y : matrix_t T) : W T unit :=
  for_each (column_major y) push_r.
Definition sparse_matrix_unconstrain (y : sparse_matrix_t T) : W T unit :=
  for_each (stored_values y) push_r.

Definition vector_lb_unconstrain (lb : double) (y : list T) : W T unit :=
  for_each y (scalar_lb_unconstrain lb).
Definition row_vector_lb_unconstrain (lb : double) (y : list T) : W T unit :=
  for_each y (scalar_lb_unconstrain lb).
Definition matrix_lb_unconstrain (lb : double) (y : matrix_t T) : W T unit :=
  for_each (column_major y) (scalar_lb_unconstrain lb).
Definition sparse_matrix_lb_unconstrain (lb : double) (y : sparse_matrix_t T) : W T unit :=
  for_each (stored_values y) (scalar_lb_unconstrain lb).

Definition vector_ub_unconstrain (ub : double) (y : list T) : W T unit :=
  for_each y (scalar_ub_unconstrain ub).
Definition row_vector_ub_unconstrain (ub : double) (y : list T) : W T unit :=
  for_each y (scalar_ub_unconstrain ub).
Definition matrix_ub_unconstrain (ub : double) (y : matrix_t T) : W T unit :=
  for_each (column_major y) (scalar_ub_unconstrain ub).
Definition sparse_matrix_ub_unconstrain (ub : double) (y : sparse_matrix_t T) : W T unit :=
  for_each (stored_values y) (scalar_ub_unconstrain ub).

Definition vector_lub_unconstrain (lb ub : double) (y : list T) : W T unit :=
  for_each y (scalar_lub_unconstrain lb ub).
Definition row_vector_lub_unconstrain (lb ub : double) (y : list T) : W T unit :=
  for_each y (scalar_lub_unconstrain lb ub).
Definition matrix_lub_unconstrain (lb ub : double) (y : matrix_t T) : W T unit :=
  for_each (column_major y) (scalar_lub_unconstrain lb ub).
Definition sparse_matrix_lub_unconstrain (lb ub : double) (y : sparse_matrix_t T)
  : W T unit :=
  for_each (stored_values y) (scalar_lub_unconstrain lb ub).

Definition vector_offset_multiplier_unconstrain (offset multiplier : double) (y : list T)
  : W T unit :=
  for_each y (scalar_offset_multiplier_unconstrain offset multiplier).
Definition row_vector_offset_multiplier_unconstrain (offset multiplier : double)
    (y : list T) : W T unit :=
  for_each y (scalar_offset_multiplier_unconstrain offset multiplier).
Definition matrix_offset_multiplier_unconstrain (offset multiplier : double)
    (y : matrix_t T) : W T unit :=
  for_each (column_major y) (scalar_offset_multiplier_unconstrain offset multiplier).
Definition sparse_matrix_offset_multiplier_unconstrain (offset multiplier : double)
    (y : sparse_matrix_t T) : W T unit :=
  for_each (stored_values y) (scalar_offset_multiplier_unconstrain offset multiplier).

Definition unit_vector_unconstrain (y : list T) : W T unit :=
  lift (check_unit_vector M y) ;;
  uy <- lift (unit_vector_free M y) ;;
  for_each uy push_r.

Definition simplex_unconstrain (y : list T) : W T unit :=
  lift (check_simplex M y) ;;
  uy <- lift (simplex_free M y) ;;
  for_each uy push_r.

Definition cholesky_factor_cov_unconstrain (y : matrix_t T) : W T unit :=
  y_free <- lift (cholesky_factor_free M y) ;;
  for_each y_free push_r.

Definition cholesky_factor_corr_unconstrain (y : matrix_t T) : W T unit :=
  y_free <- lift (cholesky_corr_free M y) ;;
  for_each y_free push_r.

(* v.coeff(i) and v[i] for i = 0 .. n - 1 *)
Definition first_coeffs (n : nat) (v : list T) : list T :=
  map (fun i => nth i v (T_default M)) (seq 0 n).

Definition cov_matrix_unconstrain (y : matrix_t T) : W T unit :=
  let k := rows y in
  if (k =? 0)%nat || negb (cols y =? k)%nat then
    throw "y must have elements and y must be a square matrix"
  else
    L_vec <- lift (cov_matrix_free M y) ;;
    (* for (m < k) for (n <= m) push_back(L_vec.coeff(i++)) *)
    for_each (first_coeffs (list_sum (map S (seq 0 k))) L_vec) push_r.

Definition corr_matrix_unconstrain (y : matrix_t T) : W T unit :=
  lift (check_corr_matrix M y) ;;
  let k := rows y in
  let k_choose_2 := ((k * (k - 1)) / 2)%nat in
  cpcs <- lift (corr_matrix_free M y) ;;
  for_each (first_coeffs k_choose_2 cpcs) push_r.

Definition exec (c : call T) : W T unit :=
  match c with
  | c_integer n => integer n
  | c_scalar_unconstrain y => scalar_unconstrain y
  | c_scalar_pos_unconstrain y => scalar_pos_unconstrain y
  | c_scalar_lb_unconstrain lb y => scalar_lb_unconstrain lb y
  | c_scalar_ub_unconstrain ub y => scalar_ub_unconstrain ub y
  | c_scalar_lub_unconstrain lb ub y => scalar_lub_unconstrain lb ub y
  | c_scalar_offset_multiplier_unconstrain o m y =>
      scalar_offset_multiplier_unconstrain o m y
  | c_corr_unconstrain y => corr_unconstrain y
  | c_prob_unconstrain y => prob_unconstrain y
  | c_ordered_unconstrain y => ordered_unconstrain y
  | c_positive_ordered_unconstrain y => positive_ordered_unconstrain y
  | c_vector_unconstrain y => vector_unconstrain y
  | c_row_vector_unconstrain y => row_vector_unconstrain y
  | c_matrix_unconstrain y => matrix_unconstrain y
  | c_sparse_matrix_unconstrain y => sparse_matrix_unconstrain y
  | c_vector_lb_unconstrain lb y => vector_lb_unconstrain lb y
  | c_row_vector_lb_unconstrain lb y => row_vector_lb_unconstrain lb y
  | c_matrix_lb_unconstrain lb y => matrix_lb_unconstrain lb y
  | c_sparse_matrix_lb_unconstrain lb y => sparse_matrix_lb_unconstrain lb y
  | c_vector_ub_unconstrain ub y => vector_ub_unconstrain ub y
  | c_row_vector_ub_unconstrain ub y => row_vector_ub_unconstrain ub y
  | c_matrix_ub_unconstrain ub y => matrix_ub_unconstrain ub y
  | c_sparse_matrix_ub_unconstrain ub y => sparse_matrix_ub_unconstrain ub y
  | c_vector_lub_unconstrain lb ub y => vector_lub_unconstrain lb ub y
  | c_row_vector_lub_unconstrain lb ub y => row_vector_lub_unconstrain lb ub y
  | c_matrix_lub_unconstrain lb ub y => matrix_lub_unconstrain lb ub y
  | c_sparse_matrix_lub_unconstrain lb ub y => sparse_matrix_lub_unconstrain lb ub y
  | c_vector_offset_multiplier_unconstrain o m y =>
      vector_offset_multiplier_unconstrain o m y
  | c_row_vector_offset_multiplier_unconstrain o m y =>
      row_vector_offset_multiplier_unconstrain o m y
  | c_matrix_offset_multiplier_unconstrain o m y =>
      matrix_offset_multiplier_unconstrain o m y
  | c_sparse_matrix_offset_multiplier_unconstrain o m y =>
      sparse_matrix_offset_multiplier_unconstrain o m y
  | c_unit_vector_unconstrain y => unit_vector_unconstrain y
  | c_simplex_unconstrain y => simplex_unconstrain y
  | c_cholesky_factor_cov_unconstrain y => cholesky_factor_cov_unconstrain y
  | c_cholesky_factor_corr_unconstrain y => cholesky_factor_corr_unconstrain y
  | c_cov_matrix_unconstrain y => cov_matrix_unconstrain y
  | c_corr_matrix_unconstrain y => corr_matrix_unconstrain y
  end.

(* a caller that makes the calls in turn and lets a throw propagate *)
Definition run (cs : list (call T)) (p : program T) : result unit * program T :=
  let '(r, w) := for_each cs exec (the_writer p) in
  (r, Build_program (caller_r p) (caller_i p) w).

End Methods.
End Writer.

(** ** Definitions that state the properties

    None of these is part of the code: they describe rounding ([digits] to
    [srord]), read a double as a number ([Fm], [Fe], [B2Q], [ord]), and name
    the decisions of the search ([in_range] to [log2_ceil_ratio]). *)

Definition digits (m : Z) : Z := Z.log2 m + 1.

Definition rne_div (m k : Z) : Z :=
  let a := m / 2 ^ k in
  let r := m mod 2 ^ k in
  let h := 2 ^ (k - 1) in
  if r <? h then a else if h <? r then a + 1 else if Z.even a then a else a + 1.

Definition rne_scaled (m k : Z) : Z :=
  if 0 <=? k then m * 2 ^ k else rne_div m (- k).

Definition round_finite (s : bool) (q E : Z) : spec_float :=
  if q =? 0 then S754_zero s
  else if q =? 2 ^ 53
       then (if E + 1 <=? 971 then S754_finite s (Z.to_pos (2 ^ 52)) (E + 1)
             else S754_infinity s)
       else (if E <=? 971 then S754_finite s (Z.to_pos q) E else S754_infinity s).

Definition ord_inf : Z := 2047 * 2 ^ 52.

Definition ord (x : spec_float) : Z :=
  match x with
  | S754_zero _ => 0
  | S754_nan => 0
  | S754_infinity s => if s then - ord_inf else ord_inf
  | S754_finite s m e =>
      let n := (e + 1074) * 2 ^ 52 + Zpos m in if s then - n else n
  end.

Definition sgn (s : bool) (z : Z) : Z := if s then - z else z.

Definition rord (m e : Z) : Z :=
  let E := fexp prec emax (digits m + e) in
  (E + 1074) * 2 ^ 52 + rne_scaled m (e - E).

Definition val_le (M1 e1 M2 e2 : Z) : Prop :=
  M1 * 2 ^ (e1 - Z.min e1 e2) <= M2 * 2 ^ (e2 - Z.min e1 e2).

(* signed version *)
Definition srord (M e : Z) : Z :=
  match M with
  | Z0 => 0
  | Zpos _ => Z.min (rord M e) ord_inf
  | Zneg m => - Z.min (rord (Zpos m) e) ord_inf
  end.

Definition Fm (x : spec_float) : Z :=
  match x with
  | S754_finite s m _ => if s then Zneg m else Zpos m
  | _ => 0
  end.

Definition Fe (x : spec_float) : Z :=
  match x with S754_finite _ _ e => e | _ => 0 end.

Definition aligned_sum (x y : spec_float) : Z :=
  Fm x * 2 ^ (Fe x - Z.min (Fe x) (Fe y)) + Fm y * 2 ^ (Fe y - Z.min (Fe x) (Fe y)).

Definition aligned_diff (x y : spec_float) : Z :=
  Fm x * 2 ^ (Fe x - Z.min (Fe x) (Fe y)) - Fm y * 2 ^ (Fe y - Z.min (Fe x) (Fe y)).

(* exact rational value of a finite double *)
Definition B2Q (x : spec_float) : Q := (inject_Z (Fm x) * 2 ^ (Fe x))%Q.

(* half an ulp of a normal double, relative to its value: 2^-53 *)
Definition half_ulp : Q := 1 # 9007199254740992.

(* r is v rounded with a relative error of at most half an ulp *)
Definition near (v r : Q) : Prop :=
  ((1 - half_ulp) * v <= r /\ r <= (1 + half_ulp) * v)%Q.

(* a finite double *)
Definition fin (x : double) : Prop := is_double x /\ is_finite x = true.

(* number of further scalings the search can make from nominal step size x *)
Definition up_budget (x : double) : nat := Z.to_nat (25 - (digits (Fm x) + Fe x)).
Definition down_budget (x : double) : nat :=
  Z.to_nat (Fe x + 1074 + Z.log2_up (Fm x) + 1).
Definition budget (direction : Z) (x : double) : nat :=
  if direction =? 1 then up_budget x else down_budget x.

(* a nominal step size in (0, 1e7] *)
Definition in_range (x : double) : Prop :=
  is_double x /\ d_gt x d_zero = true /\ d_le x d_1e7 = true.

(* the three decisions of one loop iteration, named for the statements *)
Definition scale (direction : Z) (x : double) : double :=
  if direction =? 1 then d_mul d_two x else d_mul d_half x.

Definition accepts (direction : Z) (delta_H : double) : bool :=
  ((direction =? 1) && negb (d_gt delta_H log_0_8))
  || ((direction =? -1) && negb (d_lt delta_H log_0_8)).

Definition check_scaled (x : double) : option Hmc.loop_exit :=
  if d_gt x d_1e7 then Some (Hmc.Throw Hmc.improper_msg)
  else if d_eqb x d_zero then Some (Hmc.Throw Hmc.too_small_msg)
  else None.

(* big-step description of a finished run of the loop: the iterations [its],
   started at nominal step size [x], leave by [e] with nominal step size [x'] *)
Fixpoint loop_trace (d : Z) (x : double) (its : list Hmc.iter_rec)
    (e : Hmc.loop_exit) (x' : double) : Prop :=
  match its with
  | [] => False
  | it :: rest =>
      Hmc.pr_epsilon (Hmc.it_probe it) = x /\ Hmc.it_direction it = d /\
      match rest with
      | [] =>
          match e with
          | Hmc.Break =>
              accepts d (Hmc.pr_delta_H (Hmc.it_probe it)) = true /\ x' = x
          | Hmc.Throw what =>
              accepts d (Hmc.pr_delta_H (Hmc.it_probe it)) = false /\
              x' = scale d x /\ check_scaled x' = Some (Hmc.Throw what)
          end
      | _ :: _ =>
          accepts d (Hmc.pr_delta_H (Hmc.it_probe it)) = false /\
          check_scaled (scale d x) = None /\
          loop_trace d (scale d x) rest e x'
      end
  end.

(* floor(log2(1e7 / x)) + 1 and ceil(log2(1e7 / x)) for a double x in (0, 1e7],
   computed on integers: x = m * 2^e, so 1e7 / x = (1e7 * 2^(-e)) / m *)
Definition scalings_to_exceed (x : double) : nat :=
  Z.to_nat (Z.log2 (10000000 * 2 ^ (- Fe x) / Fm x) + 1).
Definition log2_ceil_ratio (x : double) : Z :=
  Z.log2_up ((10000000 * 2 ^ (- Fe x) + Fm x - 1) / Fm x).

(* the writer after appending rs to the reals and ns to the integers *)
Definition extend {T : Type} (w : Writer.writer T) (rs : list T) (ns : list Z) : Writer.writer T :=
  Writer.Build_writer (Writer.data_r_ w ++ rs) (Writer.data_i_ w ++ ns) (Writer.CONSTRAINT_TOLERANCE w).

(* a method whose only effect is to append values that do not depend on the
   writer it is called on *)
Definition appends {T A : Type} (m : Writer.W T A) : Prop :=
  exists (r : Writer.result A) (rs : list T) (ns : list Z),
    forall w, m w = (r, extend w rs ns).

(* the calls that write their argument as it is (integer, scalar_unconstrain
   and the four unconstrained containers), with the reals and the integers
   they are given to write *)
Definition plain_values {T : Type} (c : Writer.call T) : option (list T * list Z) :=
  match c with
  | Writer.c_integer n => Some ([], [n])
  | Writer.c_scalar_unconstrain y => Some ([y], [])
  | Writer.c_vector_unconstrain y => Some (y, [])
  | Writer.c_row_vector_unconstrain y => Some (y, [])
  | Writer.c_matrix_unconstrain y => Some (Writer.column_major y, [])
  | Writer.c_sparse_matrix_unconstrain y => Some (List.concat y, [])
  | _ => None
  end.

Definition plain_reals {T : Type} (c : Writer.call T) : list T :=
  match plain_values c with Some (rs, _) => rs | None => [] end.

Definition plain_integers {T : Type} (c : Writer.call T) : list Z :=
  match plain_values c with Some (_, ns) => ns | None => [] end.

(** ** Definitions that state the further properties, and test doubles for
    stan::math *)

(* the methods that transform the elements of a container one at a time, each
   with the scalar method of the same constraint *)
Definition elementwise {T : Type} (c : Writer.call T) : bool :=
  match c with
  | Writer.c_vector_lb_unconstrain _ _
  | Writer.c_row_vector_lb_unconstrain _ _
  | Writer.c_matrix_lb_unconstrain _ _
  | Writer.c_sparse_matrix_lb_unconstrain _ _
  | Writer.c_vector_ub_unconstrain _ _
  | Writer.c_row_vector_ub_unconstrain _ _
  | Writer.c_matrix_ub_unconstrain _ _
  | Writer.c_sparse_matrix_ub_unconstrain _ _
  | Writer.c_vector_lub_unconstrain _ _ _
  | Writer.c_row_vector_lub_unconstrain _ _ _
  | Writer.c_matrix_lub_unconstrain _ _ _
  | Writer.c_sparse_matrix_lub_unconstrain _ _ _
  | Writer.c_vector_offset_multiplier_unconstrain _ _ _
  | Writer.c_row_vector_offset_multiplier_unconstrain _ _ _
  | Writer.c_matrix_offset_multiplier_unconstrain _ _ _
  | Writer.c_sparse_matrix_offset_multiplier_unconstrain _ _ _ => true
  | _ => false
  end.

(* the methods that write one scalar *)
Definition scalar_call {T : Type} (c : Writer.call T) : bool :=
  match c with
  | Writer.c_scalar_unconstrain _
  | Writer.c_scalar_pos_unconstrain _
  | Writer.c_scalar_lb_unconstrain _ _
  | Writer.c_scalar_ub_unconstrain _ _
  | Writer.c_scalar_lub_unconstrain _ _ _
  | Writer.c_scalar_offset_multiplier_unconstrain _ _ _
  | Writer.c_corr_unconstrain _
  | Writer.c_prob_unconstrain _ => true
  | _ => false
  end.

(* a method that leaves the integer sequence alone *)
Definition reals_only {T A : Type} (m : Writer.W T A) : Prop :=
  forall w, Writer.data_i_ (snd (m w)) = Writer.data_i_ w.

(* Test doubles for stan::math over integer scalars: a value is in the support
   of every constraint when it is not negative, whatever the bounds; the
   matrix transforms return the lower triangle, row by row. *)
Module WStub.

Definition guard (y : Z) : Writer.result Z :=
  if y <? 0 then Writer.Throws "value out of support" else Writer.Ok y.

Definition check (ys : list Z) : Writer.result unit :=
  if forallb (fun y => 0 <=? y) ys then Writer.Ok tt
  else Writer.Throws "check failed".

Definition lower (strict : bool) (y : Writer.matrix_t Z) : list Z :=
  flat_map (fun m => map (fun n => Writer.coeff y m n)
                         (seq 0 (if strict then m else S m)))
           (seq 0 (Writer.rows y)).

Definition math : Writer.stan_math Z :=
  Writer.Build_stan_math Z
    0 (fun y => y <? 0) Z.log2 Z.sub
    (fun y _ => guard y) (fun y _ => guard y) (fun y _ _ => guard y)
    (fun y _ _ => guard y) guard guard
    check check check check
    (fun y => check (Writer.column_major y))
    (fun ys => Writer.Ok (tl ys)) (fun ys => Writer.Ok (tl ys))
    (fun y => Writer.Ok (lower false y)) (fun y => Writer.Ok (lower false y))
    (fun y => Writer.Ok (lower false y)) (fun y => Writer.Ok (lower true y)).

(* the 2 x 2 matrix [[1, 2], [3, 4]] *)
Definition m22 : Writer.matrix_t Z :=
  Writer.Build_matrix_t Z 2 2
    (fun i j => match i, j with
                | O, O => 1 | O, _ => 2 | _, O => 3 | _, _ => 4
                end).

Definition empty : Writer.writer Z := Writer.make [] [].

End WStub.

(* base_hmc(model, rng): the point built for the model, the generator, and
   the default member initialisers nom_epsilon_{0.1}, epsilon_{0.1},
   epsilon_jitter_{0.0} *)
Definition new_base_hmc {Point Rng : Type} (z : Point) (rng : Rng)
  : Hmc.base_hmc Point Rng :=
  Hmc.Build_base_hmc z rng Stub.d_0_1 Stub.d_0_1 d_zero.

(* what the constructor establishes and the methods keep: the nominal step
   size is a number that is not negative, the jitter lies in [0, 1) *)
Definition well_formed {Point Rng : Type} (s : Hmc.base_hmc Point Rng) : Prop :=
  is_double (Hmc.nom_epsilon_ s) /\ d_le d_zero (Hmc.nom_epsilon_ s) = true /\
  is_double (Hmc.epsilon_jitter_ s) /\
  d_le d_zero (Hmc.epsilon_jitter_ s) = true /\
  d_lt (Hmc.epsilon_jitter_ s) d_one = true.

(* a nominal step size the guard of init_stepsize lets through although no
   search can succeed from it: NaN, or a number below zero *)
Definition stuck (x : double) : Prop :=
  is_nan x = true \/ (is_double x /\ d_lt x d_zero = true).

(** * Part II: proofs *)

(** ** Rounding of binary64 *)

(* iter_pos is plain iteration *)
Lemma iter_pos_nat {A} (f : A -> A) (p : positive) (x : A) :
  iter_pos f p x = Nat.iter (Pos.to_nat p) f x.
Proof.
  revert x; induction p as [p IH|p IH|]; intro x; cbn [iter_pos].
  - rewrite !IH, Pos2Nat.inj_xI, <- Nat.iter_add, <- Nat.iter_succ_r.
    f_equal; lia.
  - rewrite !IH, Pos2Nat.inj_xO. rewrite <- Nat.iter_add. f_equal; lia.
  - reflexivity.
Qed.

Lemma shr_1_nonneg m r s :
  0 <= m ->
  shr_1 (Build_shr_record m r s) = Build_shr_record (m / 2) (Z.odd m) (r || s).
Proof.
  intro Hm. destruct m as [|p|p]; [reflexivity| |lia].
  destruct p as [p|p|]; simpl shr_1.
  - f_equal. rewrite Pos2Z.inj_xI. symmetry.
    rewrite Z.add_comm, Z.mul_comm. rewrite Z.div_add by lia. reflexivity.
  - f_equal. rewrite Pos2Z.inj_xO. rewrite Z.mul_comm. now rewrite Z.div_mul by lia.
  - reflexivity.
Qed.

(* [n] right shifts of an exact record: quotient, round bit, sticky bit *)
Lemma shr_iter (n : nat) (m : Z) :
  0 <= m ->
  Nat.iter (S n) shr_1 (Build_shr_record m false false) =
  Build_shr_record (m / 2 ^ Z.of_nat (S n))
                   (Z.testbit m (Z.of_nat n))
                   (negb (m mod 2 ^ Z.of_nat n =? 0)).
Proof.
  intro Hm. induction n as [|n IH].
  - unfold Nat.iter; cbn [nat_rect]. rewrite shr_1_nonneg by assumption.
    change (Z.of_nat 0) with 0. change (Z.of_nat 1) with 1.
    rewrite Z.pow_1_r, Z.pow_0_r, Z.mod_1_r, Z.bit0_odd. reflexivity.
  - rewrite Nat.iter_succ, IH.
    rewrite shr_1_nonneg by (apply Z.div_pos; [lia | apply Z.pow_pos_nonneg; lia]).
    assert (Hp : 0 < 2 ^ Z.of_nat n) by (apply Z.pow_pos_nonneg; lia).
    f_equal.
    + rewrite Z.div_div by lia.
      f_equal. rewrite (Nat2Z.inj_succ (S n)), Z.pow_succ_r by lia. lia.
    + rewrite <- Z.bit0_odd, <- Z.shiftr_div_pow2 by lia.
      rewrite Z.shiftr_spec by lia. reflexivity.
    + rewrite (Nat2Z.inj_succ n), (Z.pow_succ_r 2 (Z.of_nat n)) by lia.
      assert (Hb := Z.testbit_spec' m (Z.of_nat n) ltac:(lia)).
      set (P := 2 ^ Z.of_nat n) in *.
      rewrite (Z.mul_comm 2 P), Z.rem_mul_r by lia.
      assert (H0 : 0 <= m mod P < P) by (apply Z.mod_pos_bound; lia).
      destruct (Z.testbit m (Z.of_nat n)); cbn [Z.b2z] in Hb; rewrite <- Hb;
      destruct (Z.eqb_spec (m mod P) 0) as [E|E];
      match goal with |- context [?a =? 0] => destruct (Z.eqb_spec a 0) as [E2|E2] end;
      simpl; try reflexivity; nia.
Qed.

Lemma digits2_pos_digits p : Zpos (digits2_pos p) = digits (Zpos p).
Proof.
  unfold digits. induction p as [p IH|p IH|]; try reflexivity.
  - cbn [digits2_pos]. rewrite Pos2Z.inj_succ, IH.
    rewrite Pos2Z.inj_xI, Z.log2_succ_double by lia. lia.
  - cbn [digits2_pos]. rewrite Pos2Z.inj_succ, IH.
    rewrite Pos2Z.inj_xO, Z.log2_double by lia. lia.
Qed.

Lemma digits_bounds m : 0 < m -> 2 ^ (digits m - 1) <= m < 2 ^ digits m.
Proof.
  intro H. unfold digits. replace (Z.log2 m + 1 - 1) with (Z.log2 m) by lia.
  replace (Z.log2 m + 1) with (Z.succ (Z.log2 m)) by lia.
  apply Z.log2_spec; assumption.
Qed.

Lemma digits_pos m : 0 < m -> 0 < digits m.
Proof. intro H. unfold digits. pose proof (Z.log2_nonneg m). lia. Qed.

Lemma digits_unique m d : 0 < m -> 2 ^ (d - 1) <= m < 2 ^ d -> digits m = d.
Proof.
  intros Hm H. unfold digits.
  assert (0 < d).
  { destruct (Z.ltb_spec 0 d); [assumption|].
    exfalso. assert (2 ^ d <= 2 ^ 0) by (destruct (Z.ltb_spec d 0);
      [rewrite Z.pow_neg_r by lia; simpl; lia | apply Z.pow_le_mono_r; lia]).
    simpl in *. lia. }
  rewrite (Z.log2_unique m (d - 1)); [lia | lia |].
  replace (Z.succ (d - 1)) with d by lia. assumption.
Qed.

Lemma shr_round (m : Z) (p : positive) :
  0 <= m ->
  let mrs := iter_pos shr_1 p (Build_shr_record m false false) in
  round_nearest_even (shr_m mrs) (loc_of_shr_record mrs) = rne_div m (Zpos p).
Proof.
  intros Hm mrs. subst mrs. rewrite iter_pos_nat.
  destruct (Pos2Nat.is_succ p) as [n Hn]. rewrite Hn.
  rewrite shr_iter by assumption.
  assert (Hp : Z.pos p = Z.of_nat (S n)) by lia.
  unfold rne_div. rewrite Hp.
  replace (Z.of_nat (S n) - 1) with (Z.of_nat n) by lia.
  rewrite (Nat2Z.inj_succ n), (Z.pow_succ_r 2 (Z.of_nat n)) by lia.
  assert (Hb := Z.testbit_spec' m (Z.of_nat n) ltac:(lia)).
  set (P := 2 ^ Z.of_nat n) in *.
  assert (HP : 0 < P) by (apply Z.pow_pos_nonneg; lia).
  rewrite (Z.mul_comm 2 P), Z.rem_mul_r by lia.
  assert (H0 : 0 <= m mod P < P) by (apply Z.mod_pos_bound; lia).
  cbn [shr_m loc_of_shr_record].
  destruct (Z.testbit m (Z.of_nat n)); cbn [Z.b2z] in Hb; rewrite <- Hb;
  destruct (Z.eqb_spec (m mod P) 0) as [E|E]; cbn [negb round_nearest_even];
  repeat match goal with
  | |- context [?a <? ?b] => destruct (Z.ltb_spec a b); try lia
  end; reflexivity.
Qed.

Lemma fexp_eq x : fexp prec emax x = Z.max (x - 53) (-1074).
Proof. reflexivity. Qed.

Lemma pow2_pos k : 0 <= k -> 0 < 2 ^ k.
Proof. intro; apply Z.pow_pos_nonneg; lia. Qed.

Lemma rne_div_bounds m k :
  m / 2 ^ k <= rne_div m k <= m / 2 ^ k + 1.
Proof.
  unfold rne_div.
  repeat match goal with
  | |- context [if ?b then _ else _] => destruct b
  end; lia.
Qed.

Lemma rne_div_nonneg m k : 0 <= m -> 0 <= k -> 0 <= rne_div m k.
Proof.
  intros Hm Hk. pose proof (rne_div_bounds m k).
  assert (0 <= m / 2 ^ k) by (apply Z.div_pos; [lia | apply pow2_pos; lia]). lia.
Qed.

Lemma rne_div_upper m k n :
  0 <= k -> 0 <= n -> 0 <= m < 2 ^ (k + n) -> rne_div m k <= 2 ^ n.
Proof.
  intros Hk Hn Hm. pose proof (rne_div_bounds m k).
  assert (m / 2 ^ k < 2 ^ n).
  { apply Z.div_lt_upper_bound; [apply pow2_pos; lia|].
    rewrite <- Z.pow_add_r by lia. lia. }
  lia.
Qed.

Lemma rne_div_lower m k n :
  0 <= k -> 0 <= n -> 2 ^ (k + n) <= m -> 2 ^ n <= rne_div m k.
Proof.
  intros Hk Hn Hm. pose proof (rne_div_bounds m k).
  assert (2 ^ n <= m / 2 ^ k).
  { apply Z.div_le_lower_bound; [apply pow2_pos; lia|].
    rewrite <- Z.pow_add_r by lia. lia. }
  lia.
Qed.

(* second pass of binary_round_aux: renormalise a mantissa of at most 54 bits *)
Lemma renorm_spec s q E :
  0 <= q <= 2 ^ 53 -> -1074 <= E ->
  (let '(mrs, e) := shr_fexp prec emax q E loc_Exact in
   match shr_m mrs with
   | Z0 => S754_zero s
   | Zpos m => if e <=? emax - prec then S754_finite s m e else S754_infinity s
   | Zneg _ => S754_nan
   end) = round_finite s q E.
Proof.
  intros Hq HE. unfold round_finite.
  destruct (Z.eqb_spec q 0) as [->|Hq0].
  { unfold shr_fexp. cbn [Zdigits2 shr_record_of_loc]. rewrite fexp_eq.
    unfold shr. destruct (Z.max (0 + E - 53) (-1074) - E) eqn:Hd; try lia; reflexivity. }
  destruct (Z.eqb_spec q (2 ^ 53)) as [->|Hq1].
  { unfold shr_fexp. rewrite fexp_eq.
    change (Zdigits2 (2 ^ 53)) with 54.
    replace (Z.max (54 + E - 53) (-1074) - E) with 1 by lia.
    cbn [shr shr_record_of_loc iter_pos shr_1 shr_m].
    change (emax - prec) with 971. reflexivity. }
  destruct q as [|q|q]; try lia.
  unfold shr_fexp. rewrite fexp_eq. cbn [Zdigits2 shr_record_of_loc].
  rewrite digits2_pos_digits.
  assert (Hd : digits (Z.pos q) <= 53).
  { pose proof (digits_bounds (Zpos q) ltac:(lia)) as Hb.
    destruct (Z.leb_spec (digits (Z.pos q)) 53); [assumption|exfalso].
    assert (2 ^ 53 <= 2 ^ (digits (Z.pos q) - 1)) by (apply Z.pow_le_mono_r; lia).
    lia. }
  unfold shr.
  destruct (Z.max (digits (Z.pos q) + E - 53) (-1074) - E) eqn:Hs; try lia;
  cbn [shr_m]; change (emax - prec) with 971; rewrite Pos2Z.id; reflexivity.
Qed.

Lemma binary_round_aux_shift s m e :
  let E := fexp prec emax (digits (Zpos m) + e) in
  e < E ->
  binary_round_aux prec emax s (Zpos m) e loc_Exact
  = round_finite s (rne_div (Zpos m) (E - e)) E.
Proof.
  intros E HE. unfold binary_round_aux.
  unfold shr_fexp at 1. cbn [Zdigits2 shr_record_of_loc].
  rewrite digits2_pos_digits. fold E.
  unfold shr at 1. destruct (E - e) as [|p|p] eqn:Hp; try lia.
  rewrite shr_round by lia.
  replace (e + Z.pos p) with E by lia.
  pose proof (digits_bounds (Zpos m) ltac:(lia)) as Hb.
  pose proof (digits_pos (Zpos m) ltac:(lia)) as Hd.
  assert (HE1 : -1074 <= E) by (subst E; rewrite fexp_eq; lia).
  assert (HE2 : digits (Z.pos m) + e - 53 <= E) by (subst E; rewrite fexp_eq; lia).
  apply renorm_spec; [split|assumption].
  - apply rne_div_nonneg; lia.
  - apply rne_div_upper; try lia. split; [lia|].
    eapply Z.lt_le_trans; [apply Hb|]. apply Z.pow_le_mono_r; lia.
Qed.

Lemma binary_round_aux_exact s m e :
  fexp prec emax (digits (Zpos m) + e) <= e ->
  binary_round_aux prec emax s (Zpos m) e loc_Exact
  = if e <=? 971 then S754_finite s m e else S754_infinity s.
Proof.
  intros HE. unfold binary_round_aux.
  unfold shr_fexp at 1. cbn [Zdigits2 shr_record_of_loc].
  rewrite digits2_pos_digits.
  unfold shr at 1.
  destruct (fexp prec emax (digits (Z.pos m) + e) - e) as [|p|p] eqn:Hp; try lia;
  cbn [shr_m loc_of_shr_record round_nearest_even];
  unfold shr_fexp; cbn [Zdigits2 shr_record_of_loc]; rewrite digits2_pos_digits;
  unfold shr; rewrite Hp; cbn [shr_m]; reflexivity.
Qed.

Lemma pos_iter_xO m d : Zpos (Pos.iter xO m d) = Zpos m * 2 ^ Zpos d.
Proof.
  change (Pos.iter xO m d) with (Zpower.shift_pos d m).
  rewrite Zpower.shift_pos_correct.
  change (Z.pow_pos 2 d) with (2 ^ Zpos d). lia.
Qed.

Lemma digits_shift m k : 0 < m -> 0 <= k -> digits (m * 2 ^ k) = digits m + k.
Proof.
  intros Hm Hk. unfold digits.
  rewrite Z.log2_mul_pow2 by lia. lia.
Qed.

Lemma shl_align_spec m e e' :
  shl_align m e e' =
  if e' <? e then (Z.to_pos (Zpos m * 2 ^ (e - e')), e') else (m, e).
Proof.
  unfold shl_align. destruct (Z.ltb_spec e' e) as [H|H].
  - destruct (e' - e) as [|p|p] eqn:Hp; try lia.
    replace (e - e') with (Zpos p) by lia.
    rewrite <- pos_iter_xO, Pos2Z.id. reflexivity.
  - destruct (e' - e) as [|p|p] eqn:Hp; try lia; reflexivity.
Qed.

Lemma binary_round_spec s m e :
  let E := fexp prec emax (digits (Zpos m) + e) in
  binary_round prec emax s m e = round_finite s (rne_scaled (Zpos m) (e - E)) E.
Proof.
  intro E. unfold binary_round. rewrite digits2_pos_digits. fold E.
  rewrite shl_align_spec.
  pose proof (digits_bounds (Zpos m) ltac:(lia)) as Hb.
  pose proof (digits_pos (Zpos m) ltac:(lia)) as Hd.
  assert (HE1 : -1074 <= E) by (subst E; rewrite fexp_eq; lia).
  assert (HE2 : digits (Z.pos m) + e - 53 <= E) by (subst E; rewrite fexp_eq; lia).
  unfold rne_scaled.
  destruct (Z.ltb_spec E e) as [H|H].
  - assert (Hk : 0 < 2 ^ (e - E)) by (apply pow2_pos; lia).
    assert (Hq : 0 < Z.pos m * 2 ^ (e - E)) by lia.
    destruct (Z.pos m * 2 ^ (e - E)) as [|q|q] eqn:Eq; try lia.
    rewrite Pos2Z.id.
    assert (Hdq : digits (Zpos q) = digits (Zpos m) + (e - E)).
    { rewrite <- Eq. apply digits_shift; lia. }
    rewrite binary_round_aux_exact
      by (rewrite Hdq; replace (digits (Z.pos m) + (e - E) + E)
            with (digits (Z.pos m) + e) by lia; fold E; lia).
    destruct (Z.leb_spec 0 (e - E)); try lia.
    unfold round_finite.
    assert (Zpos q < 2 ^ 53).
    { pose proof (digits_bounds (Zpos q) ltac:(lia)) as Hbq.
      eapply Z.lt_le_trans; [apply Hbq|]. apply Z.pow_le_mono_r; lia. }
    destruct (Z.eqb_spec (Zpos q) 0); try lia.
    destruct (Z.eqb_spec (Zpos q) (2 ^ 53)); try lia.
    rewrite Pos2Z.id. reflexivity.
  - destruct (Z.leb_spec 0 (e - E)) as [H1|H1].
    + assert (e = E) by lia.
      rewrite binary_round_aux_exact by (fold E; lia).
      replace (e - E) with 0 by lia. rewrite Z.pow_0_r, Z.mul_1_r.
      unfold round_finite.
      assert (Zpos m < 2 ^ 53).
      { eapply Z.lt_le_trans; [apply Hb|]. apply Z.pow_le_mono_r; lia. }
      destruct (Z.eqb_spec (Zpos m) 0); try lia.
      destruct (Z.eqb_spec (Zpos m) (2 ^ 53)); try lia.
      rewrite Pos2Z.id. rewrite <- H0. reflexivity.
    + rewrite binary_round_aux_shift by (fold E; lia). fold E.
      replace (- (e - E)) with (E - e) by lia. reflexivity.
Qed.

Lemma binary_round_aux_round s m e :
  e <= fexp prec emax (digits (Zpos m) + e) ->
  binary_round_aux prec emax s (Zpos m) e loc_Exact = binary_round prec emax s m e.
Proof.
  intro H. unfold binary_round. rewrite digits2_pos_digits, shl_align_spec.
  destruct (Z.ltb_spec (fexp prec emax (digits (Z.pos m) + e)) e); [lia|reflexivity].
Qed.

Ltac pow_consts :=
  change (2 ^ 52) with 4503599627370496 in *;
  change (2 ^ 53) with 9007199254740992 in *;
  change ord_inf with 9218868437227405312 in *.

Lemma valid_finite_inv s m e :
  is_double (S754_finite s m e) ->
  -1074 <= e <= 971 /\ 0 < Zpos m < 2 ^ 53 /\ (-1074 < e -> 2 ^ 52 <= Zpos m).
Proof.
  unfold is_double, valid_binary, bounded, canonical_mantissa.
  rewrite andb_true_iff, Z.eqb_eq, Z.leb_le, digits2_pos_digits, fexp_eq.
  change (emax - prec) with 971. intros [Hc He].
  pose proof (digits_bounds (Zpos m) ltac:(lia)) as Hb.
  pose proof (digits_pos (Zpos m) ltac:(lia)) as Hd.
  split; [lia|]. split.
  - split; [lia|]. eapply Z.lt_le_trans; [apply Hb|].
    apply Z.pow_le_mono_r; lia.
  - intro Hn. assert (digits (Zpos m) = 53) by lia.
    replace 52 with (digits (Zpos m) - 1) by lia. apply Hb.
Qed.

Lemma valid_finite_intro s m e :
  -1074 <= e <= 971 -> 0 < Zpos m < 2 ^ 53 -> (-1074 < e -> 2 ^ 52 <= Zpos m) ->
  is_double (S754_finite s m e).
Proof.
  intros He Hm Hn.
  unfold is_double, valid_binary, bounded, canonical_mantissa.
  rewrite andb_true_iff, Z.eqb_eq, Z.leb_le, digits2_pos_digits, fexp_eq.
  change (emax - prec) with 971. split; [|lia].
  pose proof (digits_bounds (Zpos m) ltac:(lia)) as Hb.
  assert (Hd : digits (Zpos m) <= 53).
  { destruct (Z.leb_spec (digits (Z.pos m)) 53); [assumption|exfalso].
    assert (2 ^ 53 <= 2 ^ (digits (Z.pos m) - 1)) by (apply Z.pow_le_mono_r; lia).
    lia. }
  destruct (Z.eq_dec e (-1074)) as [->|Hne]; [lia|].
  assert (digits (Zpos m) = 53); [|lia].
  apply digits_unique; [lia|]. change (53 - 1) with 52. lia.
Qed.

Lemma SFcompare_ord x y :
  is_double x -> is_double y -> is_nan x = false -> is_nan y = false ->
  SFcompare x y = Some (ord x ?= ord y).
Proof.
  intros Hx Hy Nx Ny.
  destruct x as [sx|sx| |sx mx ex]; try discriminate Nx;
  destruct y as [sy|sy| |sy my ey]; try discriminate Ny;
  try (apply valid_finite_inv in Hx; destruct Hx as (Hx1 & Hx2 & Hx3));
  try (apply valid_finite_inv in Hy; destruct Hy as (Hy1 & Hy2 & Hy3));
  cbn [SFcompare ord]; pow_consts; f_equal; symmetry;
  try (destruct sx); try (destruct sy);
  try (apply Z.compare_eq_iff; lia);
  try (apply Z.compare_lt_iff; lia);
  try (apply Z.compare_gt_iff; lia).
  - (* both negative *)
    rewrite Pos.compare_cont_spec; cbn [Pos.switch_Eq].
    change (Pos.compare mx my) with (Z.compare (Zpos mx) (Zpos my)).
    destruct (Z.compare_spec ex ey) as [E|E|E].
    + subst. destruct (Z.compare_spec (Zpos mx) (Zpos my)); cbn [CompOpp];
      [apply Z.compare_eq_iff|apply Z.compare_gt_iff|apply Z.compare_lt_iff]; lia.
    + apply Z.compare_gt_iff. lia.
    + apply Z.compare_lt_iff. lia.
  - rewrite Pos.compare_cont_spec; cbn [Pos.switch_Eq].
    change (Pos.compare mx my) with (Z.compare (Zpos mx) (Zpos my)).
    destruct (Z.compare_spec ex ey) as [E|E|E].
    + subst. destruct (Z.compare_spec (Zpos mx) (Zpos my));
      [apply Z.compare_eq_iff|apply Z.compare_lt_iff|apply Z.compare_gt_iff]; lia.
    + apply Z.compare_lt_iff. lia.
    + apply Z.compare_gt_iff. lia.
Qed.

Lemma round_finite_valid s q E :
  0 <= q <= 2 ^ 53 -> -1074 <= E -> (-1074 < E -> 2 ^ 52 <= q) ->
  is_double (round_finite s q E).
Proof.
  intros Hq HE Hn. unfold round_finite.
  destruct (Z.eqb_spec q 0); [reflexivity|].
  destruct (Z.eqb_spec q (2 ^ 53)).
  - destruct (Z.leb_spec (E + 1) 971); [|reflexivity].
    apply valid_finite_intro; try lia; rewrite Z2Pos.id by (pow_consts; lia);
    pow_consts; lia.
  - destruct (Z.leb_spec E 971); [|reflexivity].
    apply valid_finite_intro; try lia; rewrite Z2Pos.id by lia; lia.
Qed.

Lemma ord_round_finite s q E :
  0 <= q <= 2 ^ 53 -> -1074 <= E -> (-1074 < E -> 2 ^ 52 <= q) ->
  ord (round_finite s q E) = sgn s (Z.min ((E + 1074) * 2 ^ 52 + q) ord_inf).
Proof.
  intros Hq HE Hn. unfold round_finite.
  destruct (Z.eqb_spec q 0).
  { subst q. assert (E = -1074) by (pow_consts; lia). subst E.
    cbn [ord]. destruct s; reflexivity. }
  destruct (Z.eqb_spec q (2 ^ 53)).
  - subst q. destruct (Z.leb_spec (E + 1) 971); cbn [ord];
    [rewrite Z2Pos.id by (pow_consts; lia)|];
    pow_consts; destruct s; cbn [sgn]; lia.
  - destruct (Z.leb_spec E 971); cbn [ord];
    [rewrite Z2Pos.id by lia|];
    pow_consts; destruct s; cbn [sgn]; lia.
Qed.

Lemma rne_scaled_bounds m e :
  0 < m ->
  let E := fexp prec emax (digits m + e) in
  0 <= rne_scaled m (e - E) <= 2 ^ 53 /\
  (-1074 < E -> 2 ^ 52 <= rne_scaled m (e - E)).
Proof.
  intros Hm E.
  pose proof (digits_bounds m Hm) as Hb.
  pose proof (digits_pos m Hm) as Hd.
  assert (HE1 : -1074 <= E) by (subst E; rewrite fexp_eq; lia).
  assert (HE2 : digits m + e - 53 <= E) by (subst E; rewrite fexp_eq; lia).
  assert (HE3 : -1074 < E -> E = digits m + e - 53) by (subst E; rewrite fexp_eq; lia).
  unfold rne_scaled. destruct (Z.leb_spec 0 (e - E)) as [Hk|Hk].
  - assert (0 < 2 ^ (e - E)) by (apply pow2_pos; lia).
    split; [split; [nia|]|].
    + apply Z.lt_le_incl. apply Z.lt_le_trans with (2 ^ digits m * 2 ^ (e - E)); [nia|].
      rewrite <- Z.pow_add_r by lia. apply Z.pow_le_mono_r; lia.
    + intro Hn. apply Z.le_trans with (2 ^ (digits m - 1) * 2 ^ (e - E)); [|nia].
      rewrite <- Z.pow_add_r by lia. apply Z.pow_le_mono_r; lia.
  - split; [split|].
    + apply rne_div_nonneg; lia.
    + apply rne_div_upper; try lia. split; [lia|].
      eapply Z.lt_le_trans; [apply Hb|]. apply Z.pow_le_mono_r; lia.
    + intro Hn. apply rne_div_lower; try lia.
      eapply Z.le_trans; [|apply Hb]. apply Z.pow_le_mono_r; lia.
Qed.

Lemma binary_round_valid s m e : is_double (binary_round prec emax s m e).
Proof.
  rewrite binary_round_spec.
  pose proof (rne_scaled_bounds (Zpos m) e ltac:(lia)) as [H1 H2].
  apply round_finite_valid; [assumption| rewrite fexp_eq; lia | assumption].
Qed.

Lemma ord_binary_round s m e :
  ord (binary_round prec emax s m e) = sgn s (Z.min (rord (Zpos m) e) ord_inf).
Proof.
  rewrite binary_round_spec.
  pose proof (rne_scaled_bounds (Zpos m) e ltac:(lia)) as [H1 H2].
  rewrite ord_round_finite; [reflexivity|assumption| rewrite fexp_eq; lia | assumption].
Qed.

Lemma rne_div_mono m1 m2 k :
  0 <= k -> m1 <= m2 -> rne_div m1 k <= rne_div m2 k.
Proof.
  intros Hk Hm.
  assert (HP : 0 < 2 ^ k) by (apply pow2_pos; lia).
  assert (Ha : m1 / 2 ^ k <= m2 / 2 ^ k) by (apply Z.div_le_mono; lia).
  pose proof (rne_div_bounds m1 k) as B1. pose proof (rne_div_bounds m2 k) as B2.
  destruct (Z.eq_dec (m1 / 2 ^ k) (m2 / 2 ^ k)) as [Heq|Hne]; [|lia].
  assert (Hr : m1 mod 2 ^ k <= m2 mod 2 ^ k).
  { rewrite !Z.mod_eq by lia. rewrite Heq. lia. }
  unfold rne_div. rewrite Heq.
  repeat match goal with
  | |- context [?a <? ?b] => destruct (Z.ltb_spec a b); try lia
  end; destruct (Z.even (m2 / 2 ^ k)); lia.
Qed.

Lemma rne_scaled_mono m1 m2 k : m1 <= m2 -> rne_scaled m1 k <= rne_scaled m2 k.
Proof.
  intro Hm. unfold rne_scaled. destruct (Z.leb_spec 0 k).
  - assert (0 < 2 ^ k) by (apply pow2_pos; lia). nia.
  - apply rne_div_mono; lia.
Qed.

Lemma rne_scaled_shift m j k :
  0 <= j -> rne_scaled (m * 2 ^ j) (k - j) = rne_scaled m k.
Proof.
  intros Hj. unfold rne_scaled.
  assert (HJ : 0 < 2 ^ j) by (apply pow2_pos; lia).
  destruct (Z.leb_spec 0 k) as [Hk|Hk]; destruct (Z.leb_spec 0 (k - j)) as [Hkj|Hkj];
    try lia.
  - rewrite <- Z.mul_assoc, <- Z.pow_add_r by lia. do 2 f_equal. lia.
  - (* exact division *)
    unfold rne_div.
    assert (HP : 0 < 2 ^ (- (k - j))) by (apply pow2_pos; lia).
    assert (Hh : 0 < 2 ^ (- (k - j) - 1)) by (apply pow2_pos; lia).
    replace (m * 2 ^ j) with (m * 2 ^ k * 2 ^ (- (k - j))).
    2:{ rewrite <- Z.mul_assoc, <- Z.pow_add_r by lia. do 2 f_equal. lia. }
    rewrite Z.mod_mul, Z.div_mul by lia.
    destruct (Z.ltb_spec 0 (2 ^ (- (k - j) - 1))); [reflexivity|lia].
  - unfold rne_div.
    assert (HP : 0 < 2 ^ (- k)) by (apply pow2_pos; lia).
    assert (Hh : 0 < 2 ^ (- k - 1)) by (apply pow2_pos; lia).
    replace (2 ^ (- (k - j))) with (2 ^ (- k) * 2 ^ j)
      by (rewrite <- Z.pow_add_r by lia; f_equal; lia).
    replace (2 ^ (- (k - j) - 1)) with (2 ^ (- k - 1) * 2 ^ j)
      by (rewrite <- Z.pow_add_r by lia; f_equal; lia).
    rewrite Z.div_mul_cancel_r, Z.mul_mod_distr_r by lia.
    set (r := m mod 2 ^ (- k)). set (h := 2 ^ (- k - 1)).
    destruct (Z.ltb_spec r h); destruct (Z.ltb_spec (r * 2 ^ j) (h * 2 ^ j)); try nia;
    destruct (Z.ltb_spec h r); destruct (Z.ltb_spec (h * 2 ^ j) (r * 2 ^ j)); try nia;
    reflexivity.
Qed.

Lemma rord_shift m j e : 0 < m -> 0 <= j -> rord (m * 2 ^ j) (e - j) = rord m e.
Proof.
  intros Hm Hj. unfold rord. rewrite digits_shift by lia.
  replace (digits m + j + (e - j)) with (digits m + e) by lia.
  set (E := fexp prec emax (digits m + e)).
  replace (e - j - E) with (e - E - j) by lia.
  rewrite rne_scaled_shift by lia. reflexivity.
Qed.

Lemma rord_nonneg m e : 0 < m -> 0 <= rord m e.
Proof.
  intro Hm. unfold rord.
  pose proof (rne_scaled_bounds m e Hm) as [H1 _].
  assert (-1074 <= fexp prec emax (digits m + e)) by (rewrite fexp_eq; lia).
  pow_consts. lia.
Qed.

Lemma rord_mono_aligned m1 m2 e : 0 < m1 <= m2 -> rord m1 e <= rord m2 e.
Proof.
  intros Hm. unfold rord.
  assert (Hd : digits m1 <= digits m2)
    by (unfold digits; pose proof (Z.log2_le_mono m1 m2 ltac:(lia)); lia).
  pose proof (rne_scaled_bounds m1 e ltac:(lia)) as [H1 H1'].
  pose proof (rne_scaled_bounds m2 e ltac:(lia)) as [H2 H2'].
  cbv zeta in *.
  set (E1 := fexp prec emax (digits m1 + e)) in *.
  set (E2 := fexp prec emax (digits m2 + e)) in *.
  assert (HE : E1 <= E2) by (subst E1 E2; rewrite !fexp_eq; lia).
  assert (HE1 : -1074 <= E1) by (subst E1; rewrite fexp_eq; lia).
  destruct (Z.eq_dec E1 E2) as [Heq|Hne].
  - rewrite Heq. pose proof (rne_scaled_mono m1 m2 (e - E2) ltac:(lia)). lia.
  - specialize (H2' ltac:(lia)). pow_consts. lia.
Qed.

Lemma rord_mono m1 e1 m2 e2 :
  0 < m1 -> 0 < m2 -> val_le m1 e1 m2 e2 -> rord m1 e1 <= rord m2 e2.
Proof.
  intros H1 H2 Hle. unfold val_le in Hle. set (e0 := Z.min e1 e2) in *.
  rewrite <- (rord_shift m1 (e1 - e0) e1) by lia.
  rewrite <- (rord_shift m2 (e2 - e0) e2) by lia.
  replace (e1 - (e1 - e0)) with e0 by lia.
  replace (e2 - (e2 - e0)) with e0 by lia.
  apply rord_mono_aligned. split; [|assumption].
  assert (0 < 2 ^ (e1 - e0)) by (apply pow2_pos; lia). nia.
Qed.

Lemma srord_shift M j e : 0 <= j -> srord (M * 2 ^ j) (e - j) = srord M e.
Proof.
  intro Hj. assert (HJ : 0 < 2 ^ j) by (apply pow2_pos; lia).
  destruct M as [|m|m].
  - reflexivity.
  - assert (Hp : 0 < Z.pos m * 2 ^ j) by lia.
    destruct (Z.pos m * 2 ^ j) as [|q|q] eqn:Eq; try lia.
    cbn [srord]. rewrite <- Eq, rord_shift by lia. reflexivity.
  - assert (Hp : Z.neg m * 2 ^ j < 0) by lia.
    destruct (Z.neg m * 2 ^ j) as [|q|q] eqn:Eq; try lia.
    cbn [srord]. replace (Zpos q) with (Zpos m * 2 ^ j) by lia.
    rewrite rord_shift by lia. reflexivity.
Qed.

Lemma srord_mono_aligned M1 M2 e : M1 <= M2 -> srord M1 e <= srord M2 e.
Proof.
  intro H.
  assert (Hinf : 0 < ord_inf) by (pow_consts; lia).
  destruct M1 as [|m1|m1]; destruct M2 as [|m2|m2]; try lia; cbn [srord];
    try pose proof (rord_nonneg (Zpos m1) e ltac:(lia));
    try pose proof (rord_nonneg (Zpos m2) e ltac:(lia)); try lia.
  - pose proof (rord_mono_aligned (Zpos m1) (Zpos m2) e ltac:(lia)). lia.
  - pose proof (rord_mono_aligned (Zpos m2) (Zpos m1) e ltac:(lia)). lia.
Qed.

Lemma srord_mono M1 e1 M2 e2 : val_le M1 e1 M2 e2 -> srord M1 e1 <= srord M2 e2.
Proof.
  intros Hle. unfold val_le in Hle. set (e0 := Z.min e1 e2) in *.
  rewrite <- (srord_shift M1 (e1 - e0) e1) by lia.
  rewrite <- (srord_shift M2 (e2 - e0) e2) by lia.
  replace (e1 - (e1 - e0)) with e0 by lia.
  replace (e2 - (e2 - e0)) with e0 by lia.
  apply srord_mono_aligned. assumption.
Qed.

Lemma ord_binary_normalize M e :
  ord (binary_normalize prec emax M e false) = srord M e /\
  is_double (binary_normalize prec emax M e false) /\
  is_nan (binary_normalize prec emax M e false) = false.
Proof.
  destruct M as [|m|m]; cbn [binary_normalize srord].
  - repeat split.
  - rewrite ord_binary_round. split; [reflexivity|]. split; [apply binary_round_valid|].
    rewrite binary_round_spec. unfold round_finite.
    repeat match goal with |- context [if ?b then _ else _] => destruct b end; reflexivity.
  - rewrite ord_binary_round. split; [reflexivity|]. split; [apply binary_round_valid|].
    rewrite binary_round_spec. unfold round_finite.
    repeat match goal with |- context [if ?b then _ else _] => destruct b end; reflexivity.
Qed.

Lemma ord_srord x : is_double x -> is_finite x = true -> ord x = srord (Fm x) (Fe x).
Proof.
  intros Hv Hf. destruct x as [s|s| |s m e]; try discriminate Hf; [reflexivity|].
  apply valid_finite_inv in Hv. destruct Hv as (He & Hm & Hn).
  assert (Hr : rord (Zpos m) e = (e + 1074) * 2 ^ 52 + Zpos m).
  { unfold rord.
    assert (HE : fexp prec emax (digits (Zpos m) + e) = e).
    { rewrite fexp_eq.
      pose proof (digits_bounds (Zpos m) ltac:(lia)) as Hb.
      assert (Hd : digits (Zpos m) <= 53).
      { destruct (Z.leb_spec (digits (Z.pos m)) 53); [assumption|exfalso].
        assert (2 ^ 53 <= 2 ^ (digits (Z.pos m) - 1)) by (apply Z.pow_le_mono_r; lia).
        lia. }
      destruct (Z.eq_dec e (-1074)) as [->|Hne]; [lia|].
      assert (digits (Zpos m) = 53); [|lia].
      apply digits_unique; [lia|]. change (53 - 1) with 52. lia. }
    rewrite HE. replace (e - e) with 0 by lia. unfold rne_scaled.
    cbn [Z.leb Z.compare]. rewrite Z.pow_0_r. lia. }
  cbn [ord Fm Fe]. destruct s; cbn [srord]; rewrite Hr; pow_consts; lia.
Qed.

Lemma ord_finite_bound x :
  is_double x -> is_finite x = true -> - ord_inf < ord x < ord_inf.
Proof.
  intros Hv Hf. destruct x as [s|s| |s m e]; try discriminate Hf.
  - cbn [ord]. pow_consts. lia.
  - apply valid_finite_inv in Hv. destruct Hv as (He & Hm & Hn).
    cbn [ord]. pow_consts. destruct s; lia.
Qed.

Lemma finite_of_ord x :
  is_nan x = false -> - ord_inf < ord x < ord_inf -> is_finite x = true.
Proof.
  intros Hn Ho. destruct x as [s|s| |s m e]; try discriminate Hn; try reflexivity.
  cbn [ord] in Ho. destruct s; lia.
Qed.

(* order of ordinals is the order of values *)
Lemma ord_le_val x y :
  is_double x -> is_double y -> is_finite x = true -> is_finite y = true ->
  ord x <= ord y -> val_le (Fm x) (Fe x) (Fm y) (Fe y).
Proof.
  intros Hx Hy Fx Fy Hle. unfold val_le.
  assert (Hp : forall a b, 0 < 2 ^ (a - Z.min a b)) by (intros; apply pow2_pos; lia).
  destruct x as [sx|sx| |sx mx ex]; try discriminate Fx;
  destruct y as [sy|sy| |sy my ey]; try discriminate Fy;
  try (apply valid_finite_inv in Hx; destruct Hx as (Hx1 & Hx2 & Hx3));
  try (apply valid_finite_inv in Hy; destruct Hy as (Hy1 & Hy2 & Hy3));
  cbn [ord Fm Fe] in *.
  - lia.
  - destruct sy; [pow_consts; lia|]. pose proof (Hp ey 0). lia.
  - destruct sx; [|pow_consts; lia]. pose proof (Hp ex 0).
    rewrite (Z.min_comm ex 0) in *. lia.
  - pose proof (Hp ex ey) as P1. pose proof (Hp ey ex) as P2.
    rewrite (Z.min_comm ey ex) in P2.
    destruct sx, sy; try (pow_consts; lia).
    + (* both negative *)
      destruct (Z.compare_spec ex ey) as [E|E|E].
      * subst. rewrite Z.min_id, Z.sub_diag, Z.pow_0_r in *. pow_consts. lia.
      * exfalso. pow_consts. lia.
      * rewrite Z.min_r in * by lia. rewrite Z.sub_diag, Z.pow_0_r in *.
        assert (2 <= 2 ^ (ex - ey)).
        { change 2 with (2 ^ 1) at 1. apply Z.pow_le_mono_r; lia. }
        specialize (Hx3 ltac:(lia)). pow_consts. nia.
    + destruct (Z.compare_spec ex ey) as [E|E|E].
      * subst. rewrite Z.min_id, Z.sub_diag, Z.pow_0_r in *. pow_consts. lia.
      * rewrite Z.min_l in * by lia. rewrite Z.sub_diag, Z.pow_0_r in *.
        assert (2 <= 2 ^ (ey - ex)).
        { change 2 with (2 ^ 1) at 1. apply Z.pow_le_mono_r; lia. }
        specialize (Hy3 ltac:(lia)). pow_consts. nia.
      * exfalso. specialize (Hx3 ltac:(lia)). pow_consts. lia.
Qed.

Lemma pow2_split a b c : c <= b <= a -> 2 ^ (a - c) = 2 ^ (a - b) * 2 ^ (b - c).
Proof. intro H. rewrite <- Z.pow_add_r by lia. f_equal. lia. Qed.

Lemma val_le_any M1 e1 M2 e2 e :
  e <= e1 -> e <= e2 ->
  (val_le M1 e1 M2 e2 <-> M1 * 2 ^ (e1 - e) <= M2 * 2 ^ (e2 - e)).
Proof.
  intros H1 H2. unfold val_le. set (e0 := Z.min e1 e2).
  rewrite (pow2_split e1 e0 e), (pow2_split e2 e0 e) by lia.
  assert (0 < 2 ^ (e0 - e)) by (apply pow2_pos; lia).
  rewrite !Z.mul_assoc. split; intro H3; nia.
Qed.

Lemma digits_lower m n : 0 <= n -> 2 ^ n <= m -> n + 1 <= digits m.
Proof.
  intros Hn H. unfold digits.
  assert (0 < m) by (pose proof (pow2_pos n Hn); lia).
  apply Z.log2_le_pow2 in H; lia.
Qed.

Lemma digits_mul_lower a b :
  0 < a -> 0 < b -> digits a + digits b - 1 <= digits (a * b).
Proof.
  intros Ha Hb.
  pose proof (digits_bounds a Ha) as [Ba _]. pose proof (digits_bounds b Hb) as [Bb _].
  pose proof (digits_pos a Ha). pose proof (digits_pos b Hb).
  replace (digits a + digits b - 1) with ((digits a - 1 + (digits b - 1)) + 1) by lia.
  apply digits_lower; [lia|]. rewrite Z.pow_add_r by lia.
  assert (0 < 2 ^ (digits a - 1)) by (apply pow2_pos; lia).
  assert (0 < 2 ^ (digits b - 1)) by (apply pow2_pos; lia). nia.
Qed.

Lemma d_mul_ord x y :
  is_double x -> is_double y -> is_finite x = true -> is_finite y = true ->
  ord (d_mul x y) = srord (Fm x * Fm y) (Fe x + Fe y) /\
  is_double (d_mul x y) /\ is_nan (d_mul x y) = false.
Proof.
  intros Hx Hy Fx Fy. unfold d_mul.
  destruct x as [sx|sx| |sx mx ex]; try discriminate Fx;
  destruct y as [sy|sy| |sy my ey]; try discriminate Fy;
  cbn [SFmul Fm Fe ord].
  1-3: rewrite ?Z.mul_0_r; repeat split.
  apply valid_finite_inv in Hx; destruct Hx as (Hx1 & Hx2 & Hx3).
  apply valid_finite_inv in Hy; destruct Hy as (Hy1 & Hy2 & Hy3).
  rewrite binary_round_aux_round.
  - rewrite ord_binary_round. split; [|split; [apply binary_round_valid|]].
    + destruct sx, sy; reflexivity.
    + rewrite binary_round_spec. unfold round_finite.
      repeat match goal with |- context [if ?b then _ else _] => destruct b end;
      reflexivity.
  - rewrite fexp_eq, Pos2Z.inj_mul.
    pose proof (digits_mul_lower (Zpos mx) (Zpos my) ltac:(lia) ltac:(lia)) as Hd.
    pose proof (digits_pos (Zpos mx) ltac:(lia)).
    pose proof (digits_pos (Zpos my) ltac:(lia)).
    destruct (Z.eq_dec ex (-1074)) as [Ex|Ex]; destruct (Z.eq_dec ey (-1074)) as [Ey|Ey].
    + lia.
    + pose proof (digits_lower (Zpos my) 52 ltac:(lia) ltac:(apply Hy3; lia)). lia.
    + pose proof (digits_lower (Zpos mx) 52 ltac:(lia) ltac:(apply Hx3; lia)). lia.
    + pose proof (digits_lower (Zpos my) 52 ltac:(lia) ltac:(apply Hy3; lia)).
      pose proof (digits_lower (Zpos mx) 52 ltac:(lia) ltac:(apply Hx3; lia)). lia.
Qed.

Lemma shl_align_fst m e e' :
  e' <= e -> Zpos (fst (shl_align m e e')) = Zpos m * 2 ^ (e - e').
Proof.
  intro H. rewrite shl_align_spec. destruct (Z.ltb_spec e' e); cbn [fst].
  - assert (0 < 2 ^ (e - e')) by (apply pow2_pos; lia).
    rewrite Z2Pos.id by lia. reflexivity.
  - replace (e - e') with 0 by lia. lia.
Qed.

Lemma cond_Zopp_Fm s m e k :
  cond_Zopp s (Zpos m * 2 ^ k) = Fm (S754_finite s m e) * 2 ^ k.
Proof. destruct s; cbn [cond_Zopp Fm]; lia. Qed.

Lemma srord_unshift M e e0 : e0 <= e -> srord (M * 2 ^ (e - e0)) e0 = srord M e.
Proof.
  intro H. rewrite <- (srord_shift M (e - e0) e) by lia. f_equal. lia.
Qed.

Lemma d_add_ord x y :
  is_double x -> is_double y -> is_finite x = true -> is_finite y = true ->
  ord (d_add x y) = srord (aligned_sum x y) (Z.min (Fe x) (Fe y)) /\
  is_double (d_add x y) /\ is_nan (d_add x y) = false.
Proof.
  intros Hx Hy Fx Fy. unfold d_add, aligned_sum.
  destruct x as [sx|sx| |sx mx ex]; try discriminate Fx;
  destruct y as [sy|sy| |sy my ey]; try discriminate Fy.
  - cbn [SFadd Fm Fe]. destruct sx, sy; repeat split.
  - cbn [SFadd]. split; [|split; [assumption|reflexivity]].
    rewrite ord_srord by assumption.
    change (Fm (S754_zero sx)) with 0. change (Fe (S754_zero sx)) with 0.
    rewrite Z.mul_0_l, Z.add_0_l.
    rewrite (Z.min_comm 0), srord_unshift by lia. reflexivity.
  - cbn [SFadd]. split; [|split; [assumption|reflexivity]].
    rewrite ord_srord by assumption.
    change (Fm (S754_zero sy)) with 0. change (Fe (S754_zero sy)) with 0.
    rewrite Z.mul_0_l, Z.add_0_r.
    rewrite srord_unshift by lia. reflexivity.
  - cbn [SFadd]. cbv zeta.
    rewrite !shl_align_fst by lia.
    rewrite (cond_Zopp_Fm sx mx ex), (cond_Zopp_Fm sy my ey).
    cbn [Fe]. apply ord_binary_normalize.
Qed.

Lemma d_sub_ord x y :
  is_double x -> is_double y -> is_finite x = true -> is_finite y = true ->
  ord (d_sub x y) = srord (aligned_diff x y) (Z.min (Fe x) (Fe y)) /\
  is_double (d_sub x y) /\ is_nan (d_sub x y) = false.
Proof.
  intros Hx Hy Fx Fy. unfold d_sub, aligned_diff.
  destruct x as [sx|sx| |sx mx ex]; try discriminate Fx;
  destruct y as [sy|sy| |sy my ey]; try discriminate Fy.
  - cbn [SFsub Fm Fe]. destruct sx, sy; repeat split.
  - cbn [SFsub]. split; [|split; [exact Hy|reflexivity]].
    rewrite ord_srord by (try exact Hy; reflexivity).
    change (Fm (S754_zero sx)) with 0. change (Fe (S754_zero sx)) with 0.
    rewrite Z.mul_0_l, Z.sub_0_l, <- Z.mul_opp_l.
    rewrite (Z.min_comm 0).
    replace (- Fm (S754_finite sy my ey)) with (Fm (S754_finite (negb sy) my ey))
      by (destruct sy; reflexivity).
    change (Fe (S754_finite sy my ey)) with (Fe (S754_finite (negb sy) my ey)).
    rewrite srord_unshift by lia. reflexivity.
  - cbn [SFsub]. split; [|split; [assumption|reflexivity]].
    rewrite ord_srord by assumption.
    change (Fm (S754_zero sy)) with 0. change (Fe (S754_zero sy)) with 0.
    rewrite Z.mul_0_l, Z.sub_0_r.
    rewrite srord_unshift by lia. reflexivity.
  - cbn [SFsub]. cbv zeta.
    rewrite !shl_align_fst by lia.
    rewrite (cond_Zopp_Fm sx mx ex), (cond_Zopp_Fm sy my ey).
    cbn [Fe]. apply ord_binary_normalize.
Qed.

Lemma Fm_nonneg x : is_double x -> is_finite x = true -> 0 <= ord x -> 0 <= Fm x.
Proof.
  intros Hx Fx H. destruct x as [s|s| |s m e]; try discriminate Fx; cbn [Fm]; try lia.
  apply valid_finite_inv in Hx. destruct Hx as (H1 & H2 & H3).
  destruct s; [|lia]. cbn [ord] in H. pow_consts. lia.
Qed.

Lemma d_mul_mono_r x y z :
  is_double x -> is_double y -> is_double z ->
  is_finite x = true -> is_finite y = true -> is_finite z = true ->
  0 <= ord x -> ord y <= ord z -> ord (d_mul x y) <= ord (d_mul x z).
Proof.
  intros Hx Hy Hz Fx Fy Fz H0 Hle.
  destruct (d_mul_ord x y Hx Hy Fx Fy) as (-> & _).
  destruct (d_mul_ord x z Hx Hz Fx Fz) as (-> & _).
  apply srord_mono.
  pose proof (ord_le_val y z Hy Hz Fy Fz Hle) as Hv.
  pose proof (Fm_nonneg x Hx Fx H0) as Hs.
  unfold val_le in *.
  replace (Z.min (Fe x + Fe y) (Fe x + Fe z)) with (Fe x + Z.min (Fe y) (Fe z)) by lia.
  replace (Fe x + Fe y - (Fe x + Z.min (Fe y) (Fe z))) with (Fe y - Z.min (Fe y) (Fe z)) by lia.
  replace (Fe x + Fe z - (Fe x + Z.min (Fe y) (Fe z))) with (Fe z - Z.min (Fe y) (Fe z)) by lia.
  rewrite <- !Z.mul_assoc. apply Z.mul_le_mono_nonneg_l; assumption.
Qed.

Lemma aligned_sum_scale x y e :
  e <= Fe x -> e <= Fe y ->
  aligned_sum x y * 2 ^ (Z.min (Fe x) (Fe y) - e)
  = Fm x * 2 ^ (Fe x - e) + Fm y * 2 ^ (Fe y - e).
Proof.
  intros H1 H2. unfold aligned_sum. set (e0 := Z.min (Fe x) (Fe y)).
  rewrite (pow2_split (Fe x) e0 e), (pow2_split (Fe y) e0 e) by lia. ring.
Qed.

Lemma aligned_diff_scale x y e :
  e <= Fe x -> e <= Fe y ->
  aligned_diff x y * 2 ^ (Z.min (Fe x) (Fe y) - e)
  = Fm x * 2 ^ (Fe x - e) - Fm y * 2 ^ (Fe y - e).
Proof.
  intros H1 H2. unfold aligned_diff. set (e0 := Z.min (Fe x) (Fe y)).
  rewrite (pow2_split (Fe x) e0 e), (pow2_split (Fe y) e0 e) by lia. ring.
Qed.

Lemma d_add_mono_r x y z :
  is_double x -> is_double y -> is_double z ->
  is_finite x = true -> is_finite y = true -> is_finite z = true ->
  ord y <= ord z -> ord (d_add x y) <= ord (d_add x z).
Proof.
  intros Hx Hy Hz Fx Fy Fz Hle.
  destruct (d_add_ord x y Hx Hy Fx Fy) as (-> & _).
  destruct (d_add_ord x z Hx Hz Fx Fz) as (-> & _).
  apply srord_mono.
  pose proof (ord_le_val y z Hy Hz Fy Fz Hle) as Hv.
  set (e := Z.min (Fe x) (Z.min (Fe y) (Fe z))).
  apply (val_le_any _ _ _ _ e) in Hv; [|lia|lia].
  apply (val_le_any _ _ _ _ e); [lia|lia|].
  rewrite !aligned_sum_scale by lia. lia.
Qed.

Lemma d_sub_mono_l x y w :
  is_double x -> is_double y -> is_double w ->
  is_finite x = true -> is_finite y = true -> is_finite w = true ->
  ord x <= ord y -> ord (d_sub x w) <= ord (d_sub y w).
Proof.
  intros Hx Hy Hw Fx Fy Fw Hle.
  destruct (d_sub_ord x w Hx Hw Fx Fw) as (-> & _).
  destruct (d_sub_ord y w Hy Hw Fy Fw) as (-> & _).
  apply srord_mono.
  pose proof (ord_le_val x y Hx Hy Fx Fy Hle) as Hv.
  set (e := Z.min (Fe w) (Z.min (Fe x) (Fe y))).
  apply (val_le_any _ _ _ _ e) in Hv; [|lia|lia].
  apply (val_le_any _ _ _ _ e); [lia|lia|].
  rewrite !aligned_diff_scale by lia. lia.
Qed.

Lemma d_sub_add_opp x y :
  is_double x -> is_double y -> is_finite x = true -> is_finite y = true ->
  ord (d_sub x y) = ord (d_add x (SFopp y)).
Proof.
  intros Hx Hy Fx Fy.
  assert (Hy' : is_double (SFopp y)) by (destruct y; assumption).
  assert (Fy' : is_finite (SFopp y) = true) by (destruct y; assumption).
  destruct (d_sub_ord x y Hx Hy Fx Fy) as (-> & _).
  destruct (d_add_ord x (SFopp y) Hx Hy' Fx Fy') as (-> & _).
  assert (E1 : Fe (SFopp y) = Fe y) by (destruct y; reflexivity).
  assert (E2 : Fm (SFopp y) = - Fm y) by (destruct y as [| | |[] ? ?]; reflexivity).
  unfold aligned_sum, aligned_diff. rewrite E1, E2. f_equal. lia.
Qed.

(* comparison operators through ordinals *)
Lemma d_le_ord x y :
  is_double x -> is_double y -> is_nan x = false -> is_nan y = false ->
  SFleb x y = true <-> ord x <= ord y.
Proof.
  intros Hx Hy Nx Ny. unfold SFleb. rewrite SFcompare_ord by assumption.
  destruct (Z.compare_spec (ord x) (ord y)); split; intros; try lia; try reflexivity;
  discriminate.
Qed.

Lemma d_lt_ord x y :
  is_double x -> is_double y -> is_nan x = false -> is_nan y = false ->
  SFltb x y = true <-> ord x < ord y.
Proof.
  intros Hx Hy Nx Ny. unfold SFltb. rewrite SFcompare_ord by assumption.
  destruct (Z.compare_spec (ord x) (ord y)); split; intros; try lia; try reflexivity;
  discriminate.
Qed.

Lemma d_eq_ord x y :
  is_double x -> is_double y -> is_nan x = false -> is_nan y = false ->
  SFeqb x y = true <-> ord x = ord y.
Proof.
  intros Hx Hy Nx Ny. unfold SFeqb. rewrite SFcompare_ord by assumption.
  destruct (Z.compare_spec (ord x) (ord y)); split; intros; try lia; try reflexivity;
  discriminate.
Qed.

Lemma digits_le_53 m : 0 < m < 2 ^ 53 -> digits m <= 53.
Proof.
  intro Hm. pose proof (digits_bounds m ltac:(lia)) as Hb.
  destruct (Z.leb_spec (digits m) 53); [assumption|exfalso].
  assert (2 ^ 53 <= 2 ^ (digits m - 1)) by (apply Z.pow_le_mono_r; lia).
  lia.
Qed.

Lemma digits_le_52 m : 0 < m < 2 ^ 52 -> digits m <= 52.
Proof.
  intro Hm. pose proof (digits_bounds m ltac:(lia)) as Hb.
  destruct (Z.leb_spec (digits m) 52); [assumption|exfalso].
  assert (2 ^ 52 <= 2 ^ (digits m - 1)) by (apply Z.pow_le_mono_r; lia).
  lia.
Qed.

Lemma digits_53 m : 2 ^ 52 <= m < 2 ^ 53 -> digits m = 53.
Proof. intro H. apply digits_unique; [pow_consts; lia|]. change (53 - 1) with 52. lia. Qed.

(* multiplying a double by a power of two held in a normal mantissa 2^52 *)
Lemma mul_pow2_round (c : Z) m e :
  is_double (S754_finite false m e) ->
  SFmul prec emax (S754_finite false 4503599627370496 c) (S754_finite false m e)
  = let E := fexp prec emax (digits (Zpos m) + (e + c + 52)) in
    round_finite false (rne_scaled (Zpos m) (e + c + 52 - E)) E.
Proof.
  intro Hv. apply valid_finite_inv in Hv. destruct Hv as (He & Hm & Hn).
  cbn [SFmul xorb].
  assert (Hprod : Zpos (4503599627370496 * m) = Zpos m * 2 ^ 52) by (pow_consts; lia).
  assert (Hdig : digits (Zpos (4503599627370496 * m)) = digits (Zpos m) + 52)
    by (rewrite Hprod; apply digits_shift; lia).
  pose proof (digits_pos (Zpos m) ltac:(lia)) as Hd.
  rewrite binary_round_aux_round by (rewrite Hdig, fexp_eq; lia).
  rewrite binary_round_spec. cbv zeta. rewrite Hdig, Hprod.
  replace (digits (Z.pos m) + 52 + (c + e)) with (digits (Z.pos m) + (e + c + 52)) by lia.
  set (E := fexp prec emax (digits (Z.pos m) + (e + c + 52))).
  replace (c + e - E) with (e + c + 52 - E - 52) by lia.
  rewrite rne_scaled_shift by lia. reflexivity.
Qed.

Lemma d_mul_two m e :
  is_double (S754_finite false m e) ->
  d_mul d_two (S754_finite false m e) =
  if Zpos m <? 2 ^ 52 then S754_finite false (2 * m) e
  else if e + 1 <=? 971 then S754_finite false m (e + 1) else S754_infinity false.
Proof.
  intro Hv. unfold d_mul, d_two. rewrite mul_pow2_round by assumption.
  apply valid_finite_inv in Hv. destruct Hv as (He & Hm & Hn). cbv zeta.
  rewrite fexp_eq. unfold round_finite, rne_scaled.
  destruct (Z.ltb_spec (Zpos m) (2 ^ 52)) as [Hs|Hs].
  - assert (e = -1074) by (destruct (Z.eq_dec e (-1074)); [assumption|lia]). subst e.
    pose proof (digits_le_52 (Zpos m) ltac:(lia)).
    pose proof (digits_pos (Zpos m) ltac:(lia)).
    replace (Z.max (digits (Z.pos m) + (-1074 + -51 + 52) - 53) (-1074)) with (-1074) by lia.
    change (-1074 + -51 + 52 - -1074) with 1.
    change (0 <=? 1) with true. cbv iota. rewrite Z.pow_1_r.
    replace (Zpos m * 2) with (Zpos (2 * m)) by lia.
    destruct (Z.eqb_spec (Zpos (2 * m)) 0); [lia|].
    destruct (Z.eqb_spec (Zpos (2 * m)) (2 ^ 53)); [pow_consts; lia|].
    rewrite Pos2Z.id. reflexivity.
  - rewrite (digits_53 (Zpos m)) by lia.
    replace (Z.max (53 + (e + -51 + 52) - 53) (-1074)) with (e + 1) by lia.
    replace (e + -51 + 52 - (e + 1)) with 0 by lia.
    cbn [Z.leb Z.compare]. rewrite Z.pow_0_r, Z.mul_1_r.
    destruct (Z.eqb_spec (Zpos m) 0); [lia|].
    destruct (Z.eqb_spec (Zpos m) (2 ^ 53)); [lia|].
    rewrite Pos2Z.id. reflexivity.
Qed.

Lemma d_mul_half m e :
  is_double (S754_finite false m e) ->
  d_mul d_half (S754_finite false m e) =
  if -1074 <? e then S754_finite false m (e - 1)
  else round_finite false (rne_div (Zpos m) 1) (-1074).
Proof.
  intro Hv. unfold d_mul, d_half. rewrite mul_pow2_round by assumption.
  apply valid_finite_inv in Hv. destruct Hv as (He & Hm & Hn). cbv zeta.
  rewrite fexp_eq.
  destruct (Z.ltb_spec (-1074) e) as [Hs|Hs].
  - rewrite (digits_53 (Zpos m)) by lia.
    replace (Z.max (53 + (e + -53 + 52) - 53) (-1074)) with (e - 1) by lia.
    replace (e + -53 + 52 - (e - 1)) with 0 by lia.
    unfold rne_scaled, round_finite.
    cbn [Z.leb Z.compare]. rewrite Z.pow_0_r, Z.mul_1_r.
    destruct (Z.eqb_spec (Zpos m) 0); [lia|].
    destruct (Z.eqb_spec (Zpos m) (2 ^ 53)); [lia|].
    destruct (Z.leb_spec (e - 1) 971); [|lia].
    rewrite Pos2Z.id. reflexivity.
  - assert (e = -1074) by lia. subst e.
    pose proof (digits_le_53 (Zpos m) ltac:(lia)).
    pose proof (digits_pos (Zpos m) ltac:(lia)).
    replace (Z.max (digits (Z.pos m) + (-1074 + -53 + 52) - 53) (-1074)) with (-1074) by lia.
    change (-1074 + -53 + 52 - -1074) with (-1). reflexivity.
Qed.

Lemma Qpow2_pos e : (0 < 2 ^ e)%Q.
Proof. apply Qpower_0_lt. reflexivity. Qed.

Lemma Qpow2_add a b : (2 ^ (a + b) == 2 ^ a * 2 ^ b)%Q.
Proof. apply Qpower_plus. discriminate. Qed.

Lemma Qpow2_inject k : 0 <= k -> (inject_Z (2 ^ k) == 2 ^ k)%Q.
Proof. intro H. rewrite Zpower_Qpower by assumption. reflexivity. Qed.

Lemma scaled_Q M e e0 :
  e0 <= e -> (inject_Z M * 2 ^ e == inject_Z (M * 2 ^ (e - e0)) * 2 ^ e0)%Q.
Proof.
  intro H. replace e with ((e - e0) + e0) at 1 by lia.
  rewrite Qpow2_add, inject_Z_mult, Qpow2_inject by lia. ring.
Qed.

Lemma val_le_Q M1 e1 M2 e2 :
  val_le M1 e1 M2 e2 <-> (inject_Z M1 * 2 ^ e1 <= inject_Z M2 * 2 ^ e2)%Q.
Proof.
  unfold val_le. set (e0 := Z.min e1 e2).
  rewrite (scaled_Q M1 e1 e0), (scaled_Q M2 e2 e0) by lia.
  rewrite Qmult_le_r by apply Qpow2_pos.
  rewrite <- Zle_Qle. reflexivity.
Qed.

Lemma ord_le_B2Q x y :
  is_double x -> is_double y -> is_finite x = true -> is_finite y = true ->
  (ord x <= ord y <-> (B2Q x <= B2Q y)%Q).
Proof.
  intros Hx Hy Fx Fy. unfold B2Q. rewrite <- val_le_Q. split.
  - apply ord_le_val; assumption.
  - intro H. rewrite (ord_srord x), (ord_srord y) by assumption.
    apply srord_mono. assumption.
Qed.

Lemma ord_lt_B2Q x y :
  is_double x -> is_double y -> is_finite x = true -> is_finite y = true ->
  (ord x < ord y <-> (B2Q x < B2Q y)%Q).
Proof.
  intros Hx Hy Fx Fy.
  pose proof (ord_le_B2Q y x Hy Hx Fy Fx) as H. split; intro H1.
  - apply Qnot_le_lt. intro H2. apply H in H2. lia.
  - apply Z.nle_gt. intro H2. apply H in H2. apply (Qlt_not_le _ _ H1 H2).
Qed.

Lemma finite_not_nan x : is_finite x = true -> is_nan x = false.
Proof. destruct x; try discriminate; reflexivity. Qed.

Lemma d_le_B2Q x y :
  is_double x -> is_double y -> is_finite x = true -> is_finite y = true ->
  (SFleb x y = true <-> (B2Q x <= B2Q y)%Q).
Proof.
  intros Hx Hy Fx Fy. rewrite d_le_ord by auto using finite_not_nan.
  apply ord_le_B2Q; assumption.
Qed.

Lemma d_lt_B2Q x y :
  is_double x -> is_double y -> is_finite x = true -> is_finite y = true ->
  (SFltb x y = true <-> (B2Q x < B2Q y)%Q).
Proof.
  intros Hx Hy Fx Fy. rewrite d_lt_ord by auto using finite_not_nan.
  apply ord_lt_B2Q; assumption.
Qed.

Lemma B2Q_1e7 : (B2Q d_1e7 == 10000000)%Q.
Proof. reflexivity. Qed.

Lemma B2Q_mul_two m e :
  is_double (S754_finite false m e) -> e < 971 ->
  (B2Q (d_mul d_two (S754_finite false m e)) == 2 * B2Q (S754_finite false m e))%Q.
Proof.
  intros Hv He. rewrite d_mul_two by assumption.
  destruct (Z.ltb_spec (Zpos m) (2 ^ 52)).
  - unfold B2Q. cbn [Fm Fe]. rewrite Pos2Z.inj_mul, inject_Z_mult. ring.
  - destruct (Z.leb_spec (e + 1) 971); [|lia].
    unfold B2Q. cbn [Fm Fe]. rewrite Qpow2_add. change (2 ^ 1)%Q with 2%Q. ring.
Qed.

Lemma in_range_inv x :
  in_range x ->
  exists m e, x = S754_finite false m e /\
    -1074 <= e <= -29 /\ 0 < Zpos m < 2 ^ 53 /\ (-1074 < e -> 2 ^ 52 <= Zpos m).
Proof.
  intros (Hv & Hpos & Hle).
  destruct x as [s|s| |s m e]; try discriminate Hpos.
  - destruct s; [discriminate Hpos|discriminate Hle].
  - destruct s; [discriminate Hpos|].
    exists m, e. split; [reflexivity|].
    apply valid_finite_inv in Hv. destruct Hv as (He & Hm & Hn).
    repeat split; try lia; try assumption.
    unfold d_le, d_1e7, SFleb in Hle. cbn [SFcompare] in Hle.
    destruct (Z.compare_spec e (-29)); try lia; discriminate.
Qed.

Lemma in_range_intro m e :
  is_double (S754_finite false m e) -> e < -29 -> in_range (S754_finite false m e).
Proof.
  intros Hv He. split; [assumption|]. split; [reflexivity|].
  unfold d_le, d_1e7, SFleb. cbn [SFcompare].
  destruct (Z.compare_spec e (-29)); try lia; reflexivity.
Qed.

Lemma not_gt_le x y :
  is_double x -> is_double y -> is_nan x = false -> is_nan y = false ->
  d_gt x y = false -> d_le x y = true.
Proof.
  intros Hx Hy Nx Ny H. unfold d_gt, d_le in *.
  apply d_le_ord; try assumption.
  destruct (Z.le_gt_cases (ord x) (ord y)) as [|Hgt]; [assumption|].
  apply (d_lt_ord y x Hy Hx Ny Nx) in Hgt. congruence.
Qed.

Lemma scale_up x :
  in_range x ->
  is_double (d_mul d_two x) /\ d_eqb (d_mul d_two x) d_zero = false /\
  (d_gt (d_mul d_two x) d_1e7 = true \/
   (in_range (d_mul d_two x) /\ (up_budget (d_mul d_two x) < up_budget x)%nat)).
Proof.
  intro Hr. pose proof Hr as (Hv & _).
  destruct (in_range_inv x Hr) as (m & e & -> & He & Hm & Hn).
  rewrite d_mul_two by assumption.
  destruct (Z.ltb_spec (Zpos m) (2 ^ 52)) as [Hs|Hs].
  - assert (e = -1074) by (destruct (Z.eq_dec e (-1074)); [assumption|lia]). subst e.
    assert (Hv' : is_double (S754_finite false (2 * m) (-1074)))
      by (apply valid_finite_intro; pow_consts; lia).
    split; [assumption|]. split; [reflexivity|]. right.
    split; [apply in_range_intro; [assumption|lia]|].
    unfold up_budget. cbn [Fm Fe].
    pose proof (digits_le_52 (Zpos m) ltac:(lia)).
    replace (Zpos (2 * m)) with (Zpos m * 2 ^ 1) by lia.
    rewrite digits_shift by lia. lia.
  - destruct (Z.leb_spec (e + 1) 971); [|lia].
    assert (Hv' : is_double (S754_finite false m (e + 1)))
      by (apply valid_finite_intro; lia).
    split; [assumption|]. split; [reflexivity|].
    destruct (d_gt (S754_finite false m (e + 1)) d_1e7) eqn:Hgt; [left; reflexivity|right].
    split.
    + split; [assumption|]. split; [reflexivity|].
      apply not_gt_le; try assumption; reflexivity.
    + unfold up_budget. cbn [Fm Fe]. rewrite (digits_53 (Zpos m)) by lia. lia.
Qed.

Lemma rne_div_1_le m : 0 <= m -> rne_div m 1 <= (m + 1) / 2.
Proof.
  intro Hm. unfold rne_div. change (2 ^ (1 - 1)) with 1. rewrite Z.pow_1_r.
  pose proof (Z.div_mod m 2 ltac:(lia)) as Hdm.
  pose proof (Z.mod_pos_bound m 2 ltac:(lia)) as Hb.
  assert (m / 2 <= (m + 1) / 2) by (apply Z.div_le_mono; lia).
  destruct (Z.ltb_spec (m mod 2) 1); [assumption|].
  assert (Hodd : (m + 1) / 2 = m / 2 + 1).
  { replace (m + 1) with ((m / 2 + 1) * 2) by lia.
    rewrite Z.div_mul by lia. reflexivity. }
  destruct (Z.ltb_spec 1 (m mod 2)); [lia|].
  destruct (Z.even (m / 2)); lia.
Qed.

Lemma scale_down x :
  in_range x ->
  is_double (d_mul d_half x) /\ d_gt (d_mul d_half x) d_1e7 = false /\
  (d_eqb (d_mul d_half x) d_zero = true \/
   (d_eqb (d_mul d_half x) d_zero = false /\
    in_range (d_mul d_half x) /\ (down_budget (d_mul d_half x) < down_budget x)%nat)).
Proof.
  intro Hr. pose proof Hr as (Hv & _).
  destruct (in_range_inv x Hr) as (m & e & -> & He & Hm & Hn).
  rewrite d_mul_half by assumption.
  destruct (Z.ltb_spec (-1074) e) as [Hs|Hs].
  - assert (Hv' : is_double (S754_finite false m (e - 1)))
      by (apply valid_finite_intro; lia).
    pose proof (in_range_intro m (e - 1) Hv' ltac:(lia)) as Hr'.
    split; [assumption|]. split.
    + unfold d_gt, d_1e7, SFltb. cbn [SFcompare].
      destruct (Z.compare_spec (-29) (e - 1)); try lia; reflexivity.
    + right. split; [reflexivity|]. split; [assumption|].
      unfold down_budget. cbn [Fm Fe].
      pose proof (Z.log2_up_nonneg (Zpos m)). lia.
  - assert (e = -1074) by lia. subst e.
    pose proof (rne_div_1_le (Zpos m) ltac:(lia)) as Hq.
    pose proof (rne_div_nonneg (Zpos m) 1 ltac:(lia) ltac:(lia)) as Hq0.
    assert (Hq1 : (Zpos m + 1) / 2 < 2 ^ 53).
    { apply Z.div_lt_upper_bound; pow_consts; lia. }
    unfold round_finite.
    destruct (Z.eqb_spec (rne_div (Zpos m) 1) 0) as [Hz|Hz].
    { split; [reflexivity|]. split; [reflexivity|]. left; reflexivity. }
    destruct (Z.eqb_spec (rne_div (Zpos m) 1) (2 ^ 53)); [lia|].
    change (-1074 <=? 971) with true. cbv iota.
    destruct (rne_div (Zpos m) 1) as [|q|q] eqn:Eq; try lia.
    rewrite Pos2Z.id.
    assert (Hv' : is_double (S754_finite false q (-1074)))
      by (apply valid_finite_intro; lia).
    pose proof (in_range_intro q (-1074) Hv' ltac:(lia)) as Hr'.
    split; [assumption|]. split; [reflexivity|]. right.
    split; [reflexivity|]. split; [assumption|].
    unfold down_budget. cbn [Fm Fe].
    assert (Hm2 : 2 <= Zpos m).
    { destruct (Z.le_gt_cases 2 (Zpos m)); [assumption|].
      assert (Zpos m = 1) by lia.
      assert ((Zpos m + 1) / 2 = 1) by (replace (Zpos m) with 1 by lia; reflexivity).
      exfalso. assert (m = 1%positive) by lia. subst m. discriminate Eq. }
    pose proof (Z.log2_up_nonneg (Zpos q)).
    assert (Hk : 1 <= Z.log2_up (Zpos m)).
    { change 1 with (Z.log2_up 2). apply Z.log2_up_le_mono. assumption. }
    assert (Z.log2_up (Zpos q) <= Z.log2_up (Zpos m) - 1); [|lia].
    apply Z.log2_up_le_pow2; [lia|].
    pose proof (Z.log2_up_spec (Zpos m) ltac:(lia)) as [_ Hup].
    set (k := Z.log2_up (Zpos m)) in *.
    replace (2 ^ k) with (2 * 2 ^ (k - 1)) in Hup
      by (rewrite <- Z.pow_succ_r by lia; f_equal; lia).
    assert ((Zpos m + 1) / 2 <= 2 ^ (k - 1)); [|lia].
    apply Z.lt_succ_r. apply Z.div_lt_upper_bound; lia.
Qed.

Lemma budget_bound d x : in_range x -> (budget d x <= 1099)%nat.
Proof.
  intro Hr. destruct (in_range_inv x Hr) as (m & e & -> & He & Hm & Hn).
  unfold budget, up_budget, down_budget. cbn [Fm Fe].
  pose proof (digits_pos (Zpos m) ltac:(lia)).
  assert (Z.log2_up (Zpos m) <= 53) by (apply Z.log2_up_le_pow2; lia).
  destruct (d =? 1); lia.
Qed.

(* comparisons of arbitrary operands *)
Lemma SFcompare_swap x y :
  SFcompare y x = match SFcompare x y with Some c => Some (CompOpp c) | None => None end.
Proof.
  destruct x as [sx|sx| |sx mx ex]; destruct y as [sy|sy| |sy my ey]; cbn [SFcompare];
    try reflexivity; try (destruct sx; reflexivity); try (destruct sy; reflexivity);
    try (destruct sx, sy; reflexivity).
  change (Pos.compare_cont Eq my mx) with (Pos.compare my mx).
  change (Pos.compare_cont Eq mx my) with (Pos.compare mx my).
  rewrite (Pos.compare_antisym mx my).
  destruct sx, sy; try reflexivity; f_equal;
    rewrite (Z.compare_antisym ex ey); destruct (ex ?= ey); cbn [CompOpp]; try reflexivity;
    destruct (Pos.compare mx my); reflexivity.
Qed.

Lemma SFcompare_some x y :
  is_nan x = false -> is_nan y = false -> exists c, SFcompare x y = Some c.
Proof.
  intros Nx Ny. destruct x; try discriminate Nx; destruct y; try discriminate Ny;
    cbn [SFcompare]; eexists; reflexivity.
Qed.

Lemma not_gt_le_any x y :
  is_nan x = false -> is_nan y = false -> d_gt x y = false -> d_le x y = true.
Proof.
  intros Nx Ny H. unfold d_gt, d_le, SFltb, SFleb in *.
  rewrite (SFcompare_swap x y) in H.
  destruct (SFcompare_some x y Nx Ny) as [c Hc]. rewrite Hc in *.
  destruct c; try reflexivity. discriminate H.
Qed.

Lemma not_lt_ge_any x y :
  is_nan x = false -> is_nan y = false -> d_lt x y = false -> d_le y x = true.
Proof.
  intros Nx Ny H. unfold d_lt, d_le, SFltb, SFleb in *.
  rewrite (SFcompare_swap x y).
  destruct (SFcompare_some x y Nx Ny) as [c Hc]. rewrite Hc in *.
  destruct c; try reflexivity. discriminate H.
Qed.

Lemma lt_not_gt x y : d_lt x y = true -> d_gt x y = false.
Proof.
  unfold d_lt, d_gt, SFltb. rewrite (SFcompare_swap x y).
  destruct (SFcompare x y) as [[| |]|]; try discriminate; reflexivity.
Qed.

Lemma nan_compare_false x y :
  is_nan x = true -> d_gt x y = false /\ d_lt x y = false.
Proof. destruct x; try discriminate. intros _. destruct y; split; reflexivity. Qed.

Lemma d_sub_not_nan x y :
  is_finite x = true -> is_nan y = false -> is_nan (d_sub x y) = false.
Proof.
  intros Fx Ny. unfold d_sub.
  destruct x as [sx|sx| |sx mx ex]; try discriminate Fx;
  destruct y as [sy|sy| |sy my ey]; try discriminate Ny; cbn [SFsub];
  try reflexivity; try (destruct sx, sy; reflexivity).
  apply ord_binary_normalize.
Qed.

Lemma d_sub_nan_l x y : is_nan x = true -> is_nan (d_sub x y) = true.
Proof. destruct x; try discriminate. reflexivity. Qed.

Lemma Q_1e7_scaled e : e <= 0 -> (B2Q d_1e7 == inject_Z (10000000 * 2 ^ (- e)) * 2 ^ e)%Q.
Proof.
  intro He. rewrite B2Q_1e7, inject_Z_mult, Qpow2_inject by lia.
  rewrite <- Qmult_assoc, <- Qpow2_add. replace (- e + e) with 0 by lia.
  change (2 ^ 0)%Q with 1%Q. change (inject_Z 10000000) with 10000000%Q. ring.
Qed.

Lemma Q_scaled m e k :
  0 <= k ->
  (B2Q (S754_finite false m e) * 2 ^ k == inject_Z (Zpos m * 2 ^ k) * 2 ^ e)%Q.
Proof.
  intro Hk. unfold B2Q. cbn [Fm Fe]. rewrite inject_Z_mult, Qpow2_inject by lia. ring.
Qed.

Lemma B2Q_pow_le m e k :
  e <= 0 -> 0 <= k ->
  ((B2Q (S754_finite false m e) * 2 ^ k <= B2Q d_1e7)%Q
   <-> Zpos m * 2 ^ k <= 10000000 * 2 ^ (- e)).
Proof.
  intros He Hk. rewrite Q_scaled, (Q_1e7_scaled e) by lia.
  rewrite Qmult_le_r by apply Qpow2_pos. rewrite <- Zle_Qle. reflexivity.
Qed.

Lemma B2Q_pow_lt m e k :
  e <= 0 -> 0 <= k ->
  ((B2Q d_1e7 < B2Q (S754_finite false m e) * 2 ^ k)%Q
   <-> 10000000 * 2 ^ (- e) < Zpos m * 2 ^ k).
Proof.
  intros He Hk. rewrite Q_scaled, (Q_1e7_scaled e) by lia.
  rewrite Qmult_lt_r by apply Qpow2_pos. rewrite <- Zlt_Qlt. reflexivity.
Qed.

Lemma B2Q_pow_ge m e k :
  e <= 0 -> 0 <= k ->
  ((B2Q d_1e7 <= B2Q (S754_finite false m e) * 2 ^ k)%Q
   <-> 10000000 * 2 ^ (- e) <= Zpos m * 2 ^ k).
Proof.
  intros He Hk. rewrite Q_scaled, (Q_1e7_scaled e) by lia.
  rewrite Qmult_le_r by apply Qpow2_pos. rewrite <- Zle_Qle. reflexivity.
Qed.

Lemma B2Q_pow_gt m e k :
  e <= 0 -> 0 <= k ->
  ((B2Q (S754_finite false m e) * 2 ^ k < B2Q d_1e7)%Q
   <-> Zpos m * 2 ^ k < 10000000 * 2 ^ (- e)).
Proof.
  intros He Hk. rewrite Q_scaled, (Q_1e7_scaled e) by lia.
  rewrite Qmult_lt_r by apply Qpow2_pos. rewrite <- Zlt_Qlt. reflexivity.
Qed.

Lemma in_range_le_N m e :
  in_range (S754_finite false m e) -> Zpos m <= 10000000 * 2 ^ (- e).
Proof.
  intros Hr. pose proof Hr as (Hv & _ & Hle).
  destruct (in_range_inv _ Hr) as (m' & e' & [= <- <-] & He & _).
  apply (d_le_B2Q _ d_1e7 Hv) in Hle; try reflexivity.
  pose proof (B2Q_pow_le m e 0 ltac:(lia) ltac:(lia)) as H.
  rewrite Z.pow_0_r, Z.mul_1_r in H. apply H.
  change (2 ^ 0)%Q with 1%Q. rewrite Qmult_1_r. exact Hle.
Qed.

Lemma scalings_to_exceed_spec x :
  in_range x ->
  (1 <= scalings_to_exceed x)%nat /\
  (B2Q x * 2 ^ (Z.of_nat (scalings_to_exceed x) - 1) <= B2Q d_1e7)%Q /\
  (B2Q d_1e7 < B2Q x * 2 ^ Z.of_nat (scalings_to_exceed x))%Q.
Proof.
  intro Hr. destruct (in_range_inv x Hr) as (m & e & -> & He & Hm & _).
  pose proof (in_range_le_N m e Hr) as HN.
  unfold scalings_to_exceed. cbn [Fm Fe].
  set (N := 10000000 * 2 ^ (- e)) in *.
  assert (Hq : 1 <= N / Zpos m) by (apply Z.div_le_lower_bound; lia).
  pose proof (Z.log2_nonneg (N / Zpos m)) as Hk0.
  pose proof (Z.log2_spec (N / Zpos m) ltac:(lia)) as [Hlo Hhi].
  set (k := Z.log2 (N / Zpos m)) in *.
  rewrite Z2Nat.id by lia.
  replace (k + 1 - 1) with k by lia.
  split; [lia|]. split.
  - apply B2Q_pow_le; [lia|lia|]. fold N.
    pose proof (Z.mul_div_le N (Zpos m) ltac:(lia)). nia.
  - apply B2Q_pow_lt; [lia|lia|]. fold N.
    replace (k + 1) with (Z.succ k) by lia.
    pose proof (Z.mod_pos_bound N (Zpos m) ltac:(lia)).
    pose proof (Z.div_mod N (Zpos m) ltac:(lia)). nia.
Qed.

Lemma log2_ceil_ratio_spec x :
  in_range x ->
  0 <= log2_ceil_ratio x /\
  (B2Q d_1e7 <= B2Q x * 2 ^ log2_ceil_ratio x)%Q /\
  (0 < log2_ceil_ratio x -> (B2Q x * 2 ^ (log2_ceil_ratio x - 1) < B2Q d_1e7)%Q).
Proof.
  intro Hr. destruct (in_range_inv x Hr) as (m & e & -> & He & Hm & _).
  pose proof (in_range_le_N m e Hr) as HN.
  unfold log2_ceil_ratio. cbn [Fm Fe].
  set (N := 10000000 * 2 ^ (- e)) in *.
  assert (Hdiv : (N + Zpos m - 1) / Zpos m = (N - 1) / Zpos m + 1).
  { replace (N + Zpos m - 1) with (N - 1 + 1 * Zpos m) by lia.
    rewrite Z.div_add by lia. reflexivity. }
  assert (Hq0 : 0 <= (N - 1) / Zpos m) by (apply Z.div_pos; lia).
  pose proof (Z.mul_div_le (N - 1) (Zpos m) ltac:(lia)) as Hfl.
  pose proof (Z.mod_pos_bound (N - 1) (Zpos m) ltac:(lia)) as Hmod.
  pose proof (Z.div_mod (N - 1) (Zpos m) ltac:(lia)) as Hdm.
  rewrite Hdiv. set (a := (N - 1) / Zpos m + 1) in *.
  pose proof (Z.log2_up_nonneg a) as Hc0.
  split; [exact Hc0|].
  assert (Hle : forall c, a <= 2 ^ c -> N <= Zpos m * 2 ^ c) by (intros; nia).
  destruct (Z.eq_dec a 1) as [Ha1|Ha1].
  - rewrite Ha1. change (Z.log2_up 1) with 0. split; [|lia].
    apply B2Q_pow_ge; [lia|lia|]. fold N. apply Hle. cbn. lia.
  - pose proof (Z.log2_up_spec a ltac:(lia)) as [Hlo Hhi].
    set (c := Z.log2_up a) in *. split.
    + apply B2Q_pow_ge; [lia|lia|]. fold N. apply Hle. exact Hhi.
    + intros Hc. replace (Z.pred c) with (c - 1) in Hlo by lia.
      apply B2Q_pow_gt; [lia|lia|]. fold N. nia.
Qed.

Lemma scalings_vs_ceil x :
  in_range x ->
  (Z.of_nat (scalings_to_exceed x) = log2_ceil_ratio x \/
   Z.of_nat (scalings_to_exceed x) = log2_ceil_ratio x + 1) /\
  (Z.of_nat (scalings_to_exceed x) = log2_ceil_ratio x + 1 <->
   (B2Q x * 2 ^ log2_ceil_ratio x == B2Q d_1e7)%Q).
Proof.
  intro Hr.
  destruct (scalings_to_exceed_spec x Hr) as (Hn1 & Hn2 & Hn3).
  destruct (log2_ceil_ratio_spec x Hr) as (Hc0 & Hc1 & Hc2).
  destruct (in_range_inv x Hr) as (m & e & -> & He & Hm & _).
  set (n := Z.of_nat (scalings_to_exceed (S754_finite false m e))) in *.
  set (c := log2_ceil_ratio (S754_finite false m e)) in *.
  assert (Hn : 1 <= n) by lia.
  apply B2Q_pow_le in Hn2; [|lia|lia]. apply B2Q_pow_lt in Hn3; [|lia|lia].
  apply B2Q_pow_ge in Hc1; [|lia|lia].
  assert (Hc2' : 0 < c -> Zpos m * 2 ^ (c - 1) < 10000000 * 2 ^ (- e)).
  { intro H. apply B2Q_pow_gt; [lia|lia|]. apply Hc2. exact H. }
  set (N := 10000000 * 2 ^ (- e)) in *.
  assert (Hge : c <= n).
  { destruct (Z.le_gt_cases c n); [assumption|exfalso].
    assert (2 ^ n <= 2 ^ (c - 1)) by (apply Z.pow_le_mono_r; lia).
    specialize (Hc2' ltac:(lia)). nia. }
  assert (Hle : n <= c + 1).
  { destruct (Z.le_gt_cases n (c + 1)); [assumption|exfalso].
    assert (2 ^ c < 2 ^ (n - 1)) by (apply Z.pow_lt_mono_r; lia). nia. }
  split; [|split].
  - assert (Hcase : n = c \/ n = c + 1) by lia. exact Hcase.
  - intro Heq. apply Qle_antisym.
    + apply B2Q_pow_le; [lia|lia|]. fold N. replace c with (n - 1) by lia. exact Hn2.
    + apply B2Q_pow_ge; [lia|lia|]. exact Hc1.
  - intro Heq.
    assert (HleQ : (B2Q (S754_finite false m e) * 2 ^ c <= B2Q d_1e7)%Q)
      by (rewrite Heq; apply Qle_refl).
    apply B2Q_pow_le in HleQ; [|lia|lia]. fold N in HleQ.
    destruct (Z.eq_dec n c) as [Hnc|Hnc]; [|lia].
    exfalso. rewrite Hnc in Hn3. lia.
Qed.

Lemma fin_mul x y :
  fin x -> fin y -> - ord_inf < ord (d_mul x y) < ord_inf -> fin (d_mul x y).
Proof.
  intros [Hx Fx] [Hy Fy] Hb. destruct (d_mul_ord x y Hx Hy Fx Fy) as (_ & Hv & Hn).
  split; [assumption|]. apply finite_of_ord; assumption.
Qed.

Lemma fin_add x y :
  fin x -> fin y -> - ord_inf < ord (d_add x y) < ord_inf -> fin (d_add x y).
Proof.
  intros [Hx Fx] [Hy Fy] Hb. destruct (d_add_ord x y Hx Hy Fx Fy) as (_ & Hv & Hn).
  split; [assumption|]. apply finite_of_ord; assumption.
Qed.

Lemma fin_sub x y :
  fin x -> fin y -> - ord_inf < ord (d_sub x y) < ord_inf -> fin (d_sub x y).
Proof.
  intros [Hx Fx] [Hy Fy] Hb. destruct (d_sub_ord x y Hx Hy Fx Fy) as (_ & Hv & Hn).
  split; [assumption|]. apply finite_of_ord; assumption.
Qed.

Lemma fin_opp x : fin x -> fin (SFopp x).
Proof. intros [Hx Fx]. destruct x; split; assumption. Qed.

Lemma ord_opp x : ord (SFopp x) = - ord x.
Proof. destruct x as [s|s| |s m e]; cbn [SFopp ord]; try reflexivity; destruct s; cbn [negb]; lia. Qed.

Lemma fin_between x :
  is_double x -> d_le d_zero x = true -> d_le x d_one = true -> fin x.
Proof.
  intros Hv H0 H1. split; [assumption|].
  destruct x as [s|s| |s m e]; try reflexivity; try discriminate H0.
  destruct s; [discriminate H0|discriminate H1].
Qed.

Lemma srord_opp M e : srord (- M) e = - srord M e.
Proof. destruct M; cbn [Z.opp srord]; lia. Qed.

Lemma ord_mul_one x : fin x -> ord (d_mul x d_one) = ord x.
Proof.
  intros [Hx Fx].
  destruct (d_mul_ord x d_one Hx eq_refl Fx eq_refl) as (-> & _).
  change (Fm d_one) with (2 ^ 52). change (Fe d_one) with (-52).
  replace (Fe x + -52) with (Fe x - 52) by lia.
  rewrite srord_shift by lia. symmetry. apply ord_srord; assumption.
Qed.

Lemma ord_mul_minus_one x : fin x -> ord (d_mul x (SFopp d_one)) = - ord x.
Proof.
  intros [Hx Fx].
  destruct (d_mul_ord x (SFopp d_one) Hx eq_refl Fx eq_refl) as (-> & _).
  change (Fm (SFopp d_one)) with (- 2 ^ 52). change (Fe (SFopp d_one)) with (-52).
  replace (Fm x * - 2 ^ 52) with (- Fm x * 2 ^ 52) by lia.
  replace (Fe x + -52) with (Fe x - 52) by lia.
  rewrite srord_shift, srord_opp by lia. f_equal. symmetry. apply ord_srord; assumption.
Qed.

Lemma le_ord_fin x y : fin x -> fin y -> d_le x y = true -> ord x <= ord y.
Proof.
  intros [Hx Fx] [Hy Fy] H. apply d_le_ord; auto using finite_not_nan.
Qed.

Lemma lt_ord_fin x y : fin x -> fin y -> SFltb x y = true -> ord x < ord y.
Proof.
  intros [Hx Fx] [Hy Fy] H. apply d_lt_ord; auto using finite_not_nan.
Qed.

Ltac ord_consts :=
  change (ord d_zero) with 0 in *;
  change (ord d_one) with 4607182418800017408 in *;
  change (ord d_two) with 4611686018427387904 in *;
  change (ord (SFopp d_one)) with (-4607182418800017408) in *;
  change ord_inf with 9218868437227405312 in *.

(** ** Rounding errors of the jittered step size *)

Lemma rne_div_half m k :
  0 < k -> - 2 ^ (k - 1) <= rne_div m k * 2 ^ k - m <= 2 ^ (k - 1).
Proof.
  intro Hk. unfold rne_div. cbv zeta.
  assert (HP : 2 ^ k = 2 * 2 ^ (k - 1))
    by (rewrite <- Z.pow_succ_r by lia; f_equal; lia).
  assert (Hh : 0 < 2 ^ (k - 1)) by (apply pow2_pos; lia).
  pose proof (Z.div_mod m (2 ^ k) ltac:(lia)) as Hdm.
  pose proof (Z.mod_pos_bound m (2 ^ k) ltac:(lia)) as Hmb.
  set (a := m / 2 ^ k) in *. set (r := m mod 2 ^ k) in *.
  set (h := 2 ^ (k - 1)) in *. set (P := 2 ^ k) in *.
  destruct (Z.ltb_spec r h); [nia|]. destruct (Z.ltb_spec h r); [nia|].
  destruct (Z.even a); nia.
Qed.

Lemma Qpow2_lt_inv a b : (2 ^ a < 2 ^ b)%Q -> a < b.
Proof.
  intro H. destruct (Z_lt_le_dec a b) as [|Hle]; [assumption|]. exfalso.
  replace a with (b + (a - b)) in H by lia.
  rewrite Qpow2_add, <- (Qpow2_inject (a - b)) in H by lia.
  pose proof (Qpow2_pos b) as Hp.
  assert (Ht : (1 <= inject_Z (2 ^ (a - b)))%Q).
  { change 1%Q with (inject_Z 1). rewrite <- Zle_Qle.
    pose proof (pow2_pos (a - b) ltac:(lia)). lia. }
  nra.
Qed.

(* a finite double whose ordinal is that of the rounding of M * 2^e0 has that
   value up to half an ulp, when the rounding is to 53 digits or exact *)
Lemma round_near x M e0 :
  is_double x -> is_finite x = true -> 0 < M -> ord x = rord M e0 ->
  (-1021 <= digits M + e0 \/ fexp prec emax (digits M + e0) <= e0) ->
  near (inject_Z M * 2 ^ e0) (B2Q x).
Proof.
  intros Hx Fx HM Ho Hc.
  pose proof (rne_scaled_bounds M e0 HM) as Hq. cbv zeta in Hq.
  unfold rord in Ho. cbv zeta in Ho.
  set (E := fexp prec emax (digits M + e0)) in *.
  set (q := rne_scaled M (e0 - E)) in *.
  assert (HE : -1074 <= E) by (subst E; rewrite fexp_eq; lia).
  assert (Hv : (0 < inject_Z M * 2 ^ e0)%Q).
  { apply Qmult_lt_0_compat; [|apply Qpow2_pos].
    change 0%Q with (inject_Z 0). rewrite <- Zlt_Qlt. assumption. }
  (* the value of x is q * 2^E *)
  assert (Hval : (B2Q x == inject_Z q * 2 ^ E)%Q).
  { destruct x as [s|s| |s m e]; try discriminate Fx.
    - cbn [ord] in Ho.
      assert (Hq0 : q = 0) by (pow_consts; lia).
      rewrite Hq0. unfold B2Q. cbn [Fm]. ring.
    - apply valid_finite_inv in Hx. destruct Hx as (He & Hm & Hn).
      cbn [ord] in Ho. unfold B2Q. cbn [Fm Fe].
      destruct Hq as (Hq1 & Hq2).
      destruct s; [pow_consts; lia|].
      assert (Hcase : (e = E /\ Zpos m = q) \/
                      (e = E + 1 /\ Zpos m = 2 ^ 52 /\ q = 2 ^ 53)).
      { pow_consts. lia. }
      destruct Hcase as [(-> & ->)|(-> & -> & ->)]; [reflexivity|].
      rewrite Qpow2_add. change (2 ^ 1)%Q with 2%Q.
      change (inject_Z (2 ^ 52)) with (4503599627370496 # 1)%Q.
      change (inject_Z (2 ^ 53)) with (9007199254740992 # 1)%Q. ring. }
  unfold near. rewrite Hval.
  destruct (Z_le_gt_dec E e0) as [Hex|Hrd].
  - (* exact *)
    assert (Eq : q = M * 2 ^ (e0 - E)).
    { subst q. unfold rne_scaled. destruct (Z.leb_spec 0 (e0 - E)); [reflexivity|lia]. }
    rewrite Eq, <- (scaled_Q M e0 E) by lia.
    unfold half_ulp. split; lra.
  - (* rounded to 53 digits *)
    assert (HEd : E = digits M + e0 - 53).
    { destruct Hc as [Hc|Hc]; [|lia]. subst E. rewrite fexp_eq in *. lia. }
    set (k := E - e0).
    assert (Eq : q = rne_div M k).
    { subst q k. unfold rne_scaled. destruct (Z.leb_spec 0 (e0 - E)); [lia|].
      f_equal. lia. }
    pose proof (rne_div_half M k ltac:(subst k; lia)) as Hh.
    pose proof (digits_bounds M HM) as Hd.
    assert (Hpow : 2 ^ 53 * 2 ^ (k - 1) = 2 ^ (digits M - 1)).
    { rewrite <- Z.pow_add_r by (subst k; lia). f_equal. subst k. lia. }
    rewrite <- Eq in Hh.
    set (T := q * 2 ^ k) in *.
    assert (HZ : (2 ^ 53 - 1) * M <= 2 ^ 53 * T <= (2 ^ 53 + 1) * M).
    { set (h := 2 ^ (k - 1)) in *. set (D := 2 ^ (digits M - 1)) in *.
      pow_consts. lia. }
    rewrite (scaled_Q q E e0) by lia. fold k. fold T.
    destruct HZ as [HZ1 HZ2].
    rewrite Zle_Qle, !inject_Z_mult in HZ1, HZ2.
    change (inject_Z (2 ^ 53 - 1)) with (9007199254740991 # 1)%Q in *.
    change (inject_Z (2 ^ 53 + 1)) with (9007199254740993 # 1)%Q in *.
    change (inject_Z (2 ^ 53)) with (9007199254740992 # 1)%Q in *.
    pose proof (Qpow2_pos e0) as Hp.
    unfold half_ulp.
    set (IM := inject_Z M) in *. set (IT := inject_Z T) in *.
    set (p := (2 ^ e0)%Q) in *.
    split; nra.
Qed.

Lemma B2Q_pos_Fm x : (0 < B2Q x)%Q -> 0 < Fm x.
Proof.
  unfold B2Q. intro H. destruct (Z_lt_le_dec 0 (Fm x)) as [|Hle]; [assumption|].
  exfalso. pose proof (Qpow2_pos (Fe x)) as Hp.
  rewrite Zle_Qle in Hle. change (inject_Z 0) with 0%Q in Hle. nra.
Qed.

Lemma digits_of_value M e0 :
  0 < M -> (2 ^ (-1022) <= inject_Z M * 2 ^ e0)%Q -> -1021 <= digits M + e0.
Proof.
  intros HM Hv. pose proof (digits_bounds M HM) as [_ Hd].
  pose proof (digits_pos M HM) as Hdp.
  assert (Hlt : (2 ^ (-1022) < 2 ^ (digits M + e0))%Q).
  { eapply Qle_lt_trans; [exact Hv|].
    rewrite Qpow2_add, <- (Qpow2_inject (digits M)) by lia.
    apply Qmult_lt_compat_r; [apply Qpow2_pos|].
    rewrite <- Zlt_Qlt. assumption. }
  apply Qpow2_lt_inv in Hlt. lia.
Qed.

(* the product of two positive doubles, when it is finite and not subnormal *)
Lemma d_mul_near x y :
  is_double x -> is_double y -> is_finite x = true -> is_finite y = true ->
  (0 < B2Q x)%Q -> (0 < B2Q y)%Q ->
  is_finite (d_mul x y) = true ->
  (2 ^ (-1022) <= B2Q x * B2Q y)%Q ->
  near (B2Q x * B2Q y) (B2Q (d_mul x y)).
Proof.
  intros Hx Hy Fx Fy Px Py Fxy Hn.
  apply B2Q_pos_Fm in Px. apply B2Q_pos_Fm in Py.
  destruct (d_mul_ord x y Hx Hy Fx Fy) as (Ho & Hv & _).
  pose proof (ord_finite_bound _ Hv Fxy) as Hb.
  assert (HM : 0 < Fm x * Fm y) by nia.
  assert (Ev : (B2Q x * B2Q y == inject_Z (Fm x * Fm y) * 2 ^ (Fe x + Fe y))%Q).
  { unfold B2Q. rewrite inject_Z_mult, Qpow2_add. ring. }
  assert (Ho' : ord (d_mul x y) = rord (Fm x * Fm y) (Fe x + Fe y)).
  { rewrite Ho. destruct (Fm x * Fm y) as [|M|M] eqn:EM; try lia.
    cbn [srord]. rewrite Ho in Hb. cbn [srord] in Hb. lia. }
  unfold near. rewrite Ev. apply (round_near _ _ _ Hv Fxy HM Ho').
  left. apply digits_of_value; [assumption|]. rewrite <- Ev. assumption.
Qed.

Lemma Fe_lower x : is_double x -> is_finite x = true -> -1074 <= Fe x.
Proof.
  intros Hx Fx. destruct x as [s|s| |s m e]; try discriminate Fx; cbn [Fe]; try lia.
  apply valid_finite_inv in Hx. lia.
Qed.

(* sums and differences are rounded to 53 digits or exact *)
Lemma aligned_near r x y M :
  is_double x -> is_double y -> is_finite x = true -> is_finite y = true ->
  is_double r -> is_finite r = true ->
  ord r = srord M (Z.min (Fe x) (Fe y)) -> 0 < M ->
  near (inject_Z M * 2 ^ Z.min (Fe x) (Fe y)) (B2Q r).
Proof.
  intros Hx Hy Fx Fy Hr Fr Ho HM.
  pose proof (ord_finite_bound _ Hr Fr) as Hb.
  pose proof (Fe_lower x Hx Fx). pose proof (Fe_lower y Hy Fy).
  apply round_near; try assumption.
  - rewrite Ho. destruct M as [|M|M]; try lia. cbn [srord].
    rewrite Ho in Hb. cbn [srord] in Hb. lia.
  - rewrite fexp_eq. lia.
Qed.

Lemma aligned_diff_Q x y :
  (inject_Z (aligned_diff x y) * 2 ^ Z.min (Fe x) (Fe y) == B2Q x - B2Q y)%Q.
Proof.
  unfold aligned_diff, B2Q. set (e0 := Z.min (Fe x) (Fe y)).
  rewrite (scaled_Q (Fm x) (Fe x) e0), (scaled_Q (Fm y) (Fe y) e0) by lia.
  unfold Z.sub at 1. rewrite inject_Z_plus, inject_Z_opp. ring.
Qed.

Lemma aligned_sum_Q x y :
  (inject_Z (aligned_sum x y) * 2 ^ Z.min (Fe x) (Fe y) == B2Q x + B2Q y)%Q.
Proof.
  unfold aligned_sum, B2Q. set (e0 := Z.min (Fe x) (Fe y)).
  rewrite (scaled_Q (Fm x) (Fe x) e0), (scaled_Q (Fm y) (Fe y) e0) by lia.
  rewrite inject_Z_plus. ring.
Qed.

Lemma Q_pos_aligned M e : (0 < inject_Z M * 2 ^ e)%Q -> 0 < M.
Proof.
  intro H. destruct (Z_lt_le_dec 0 M) as [|Hle]; [assumption|].
  exfalso. pose proof (Qpow2_pos e) as Hp.
  rewrite Zle_Qle in Hle. change (inject_Z 0) with 0%Q in Hle. nra.
Qed.

Lemma d_sub_near x y :
  is_double x -> is_double y -> is_finite x = true -> is_finite y = true ->
  is_finite (d_sub x y) = true -> (B2Q y < B2Q x)%Q ->
  near (B2Q x - B2Q y) (B2Q (d_sub x y)).
Proof.
  intros Hx Hy Fx Fy Fr Hlt.
  destruct (d_sub_ord x y Hx Hy Fx Fy) as (Ho & Hv & _).
  unfold near. rewrite <- aligned_diff_Q.
  apply (aligned_near _ x y); try assumption.
  apply (Q_pos_aligned _ (Z.min (Fe x) (Fe y))). rewrite aligned_diff_Q. lra.
Qed.

Lemma d_add_near x y :
  is_double x -> is_double y -> is_finite x = true -> is_finite y = true ->
  is_finite (d_add x y) = true -> (0 < B2Q x + B2Q y)%Q ->
  near (B2Q x + B2Q y) (B2Q (d_add x y)).
Proof.
  intros Hx Hy Fx Fy Fr Hlt.
  destruct (d_add_ord x y Hx Hy Fx Fy) as (Ho & Hv & _).
  unfold near. rewrite <- aligned_sum_Q.
  apply (aligned_near _ x y); try assumption.
  apply (Q_pos_aligned _ (Z.min (Fe x) (Fe y))). rewrite aligned_sum_Q. lra.
Qed.

(* the factor 1 + j * (2u - 1) and the two factors that bound it *)
Lemma jitter_factor j u :
  is_double j -> is_double u ->
  d_gt j d_zero = true -> d_lt j d_one = true ->
  d_le d_zero u = true -> d_le u d_one = true ->
  let f := d_add d_one (d_mul j (d_sub (d_mul d_two u) d_one)) in
  fin j /\ fin f /\ fin (d_sub d_one j) /\ fin (d_add d_one j) /\
  0 < ord j < ord d_one /\
  ord (d_sub d_one j) <= ord f <= ord (d_add d_one j) /\
  ord (S754_finite false 4503599627370496 (-105)) <= ord (d_sub d_one j) /\
  ord d_one <= ord (d_add d_one j) <= ord d_two.
Proof.
  intros Vj Vu Hj0 Hj1 Hu0 Hu1.
  assert (F0 : fin d_zero) by (split; reflexivity).
  assert (F1 : fin d_one) by (split; reflexivity).
  assert (F2 : fin d_two) by (split; reflexivity).
  assert (Fm1 : fin (SFopp d_one)) by (split; reflexivity).
  assert (Fu : fin u) by (apply fin_between; assumption).
  assert (Fj : fin j).
  { split; [assumption|]. destruct j as [s|s| |s m e]; try reflexivity; try discriminate Hj0.
    destruct s; [discriminate Hj0|discriminate Hj1]. }
  assert (Ou : 0 <= ord u <= ord d_one)
    by (split; [apply (le_ord_fin d_zero u)|apply (le_ord_fin u d_one)]; assumption).
  assert (Oj : 0 < ord j < ord d_one)
    by (split; [apply (lt_ord_fin d_zero j)|apply (lt_ord_fin j d_one)]; assumption).
  (* a = 2 * u *)
  set (a := d_mul d_two u) in *.
  assert (Oa : 0 <= ord a <= ord d_two).
  { split.
    - change 0 with (ord (d_mul d_two d_zero)).
      apply d_mul_mono_r; try apply F0; try apply F2; try apply Fu. + ord_consts; lia. + apply Ou.
    - change (ord d_two) with (ord (d_mul d_two d_one)).
      apply d_mul_mono_r; try apply F1; try apply F2; try apply Fu. + ord_consts; lia. + apply Ou. }
  assert (Fa : fin a) by (apply fin_mul; [assumption|assumption|unfold a in *; ord_consts; lia]).
  (* t = a - 1 *)
  set (t := d_sub a d_one) in *.
  assert (Ot : ord (SFopp d_one) <= ord t <= ord d_one).
  { split.
    - change (ord (SFopp d_one)) with (ord (d_sub d_zero d_one)).
      apply d_sub_mono_l; try apply F0; try apply F1; try apply Fa. ord_consts; lia.
    - change (ord d_one) with (ord (d_sub d_two d_one)).
      apply d_sub_mono_l; try apply F2; try apply F1; try apply Fa. apply Oa. }
  assert (Ft : fin t) by (apply fin_sub; [assumption|assumption|unfold t in *; ord_consts; lia]).
  (* s = j * t *)
  set (s := d_mul j t) in *.
  assert (Os : - ord j <= ord s <= ord j).
  { split.
    - rewrite <- (ord_mul_minus_one j Fj).
      apply d_mul_mono_r; try apply Fj; try apply Fm1; try apply Ft. + lia. + apply Ot.
    - rewrite <- (ord_mul_one j Fj).
      apply d_mul_mono_r; try apply Fj; try apply F1; try apply Ft. + lia. + apply Ot. }
  assert (Fs : fin s) by (apply fin_mul; [assumption|assumption|unfold s in *; ord_consts; lia]).
  (* f = 1 + s, between 1 - j and 1 + j *)
  intro f.
  assert (Fnj : fin (SFopp j)) by (apply fin_opp; assumption).
  assert (Ohi : ord d_one <= ord (d_add d_one j) <= ord d_two).
  { split.
    - change (ord d_one) with (ord (d_add d_one d_zero)) at 1.
      apply d_add_mono_r; try apply F1; try apply F0; try apply Fj. ord_consts; lia.
    - change (ord d_two) with (ord (d_add d_one d_one)).
      apply d_add_mono_r; try apply F1; try apply Fj. lia. }
  (* j is at most the double below 1, so 1 - j is at least 2^-53 *)
  set (below_one := S754_finite false 9007199254740991 (-53)).
  assert (Fb : fin (SFopp below_one)) by (split; reflexivity).
  assert (Olo : ord (S754_finite false 4503599627370496 (-105))
                <= ord (d_add d_one (SFopp j))).
  { change (ord (S754_finite false 4503599627370496 (-105)))
      with (ord (d_add d_one (SFopp below_one))).
    apply d_add_mono_r; try apply F1; try apply Fb; try apply Fnj.
    rewrite !ord_opp. change (ord below_one) with (ord d_one - 1). lia. }
  assert (Of : ord (d_add d_one (SFopp j)) <= ord f <= ord (d_add d_one j)).
  { split.
    - apply d_add_mono_r; try apply F1; try apply Fnj; try apply Fs. rewrite ord_opp. lia.
    - apply d_add_mono_r; try apply F1; try apply Fj; try apply Fs. lia. }
  assert (Hpos : 0 < ord (S754_finite false 4503599627370496 (-105))) by (vm_compute; reflexivity).
  assert (Ff : fin f) by (apply fin_add; [assumption|assumption|unfold f in *; ord_consts; lia]).
  assert (Fhi : fin (d_add d_one j)) by (apply fin_add; [assumption|assumption|ord_consts; lia]).
  assert (Esub : ord (d_sub d_one j) = ord (d_add d_one (SFopp j))).
  { apply d_sub_add_opp; try apply F1; try apply Fj. }
  assert (Flo : fin (d_sub d_one j)).
  { apply fin_sub; [assumption|assumption|]. rewrite Esub. ord_consts; lia. }
  rewrite Esub. repeat split; try apply Fj; try apply Ff; try apply Flo; try apply Fhi; lia.
Qed.

(* the jittered step size lies between nominal * (1 - j) and nominal * (1 + j),
   all products and sums being the rounded ones *)
Lemma jitter_bounds nom j u :
  is_double nom -> is_double j -> is_double u ->
  d_le d_zero nom = true -> is_finite nom = true ->
  d_gt j d_zero = true -> d_lt j d_one = true ->
  d_le d_zero u = true -> d_le u d_one = true ->
  let eps := d_mul nom (d_add d_one (d_mul j (d_sub (d_mul d_two u) d_one))) in
  d_le (d_mul nom (d_sub d_one j)) eps = true /\
  d_le eps (d_mul nom (d_add d_one j)) = true.
Proof.
  intros Vn Vj Vu Hn0 Fn Hj0 Hj1 Hu0 Hu1 eps.
  destruct (jitter_factor j u Vj Vu Hj0 Hj1 Hu0 Hu1)
    as (Fj & [Vf Ff] & [Vlo Flo] & [Vhi Fhi] & Oj & Of & Olo & Ohi).
  assert (On : 0 <= ord nom).
  { apply (le_ord_fin d_zero nom); [split; reflexivity|split; assumption|assumption]. }
  destruct (d_mul_ord nom _ Vn Vf Fn Ff) as (_ & Ve & Ne).
  destruct (d_mul_ord nom (d_sub d_one j) Vn Vlo Fn Flo) as (_ & Vl & Nl).
  destruct (d_mul_ord nom (d_add d_one j) Vn Vhi Fn Fhi) as (_ & Vh & Nh).
  subst eps. unfold d_le. split.
  - apply d_le_ord; try assumption.
    apply d_mul_mono_r; try assumption. apply Of.
  - apply d_le_ord; try assumption.
    apply d_mul_mono_r; try assumption. apply Of.
Qed.

Lemma near_mul_l (n v r : Q) : (0 <= n)%Q -> near v r -> near (n * v) (n * r).
Proof. unfold near, half_ulp. intros Hn [H1 H2]. split; nra. Qed.

(* the same bounds with the products and sums taken exactly: each of the two
   roundings on either side costs at most half an ulp *)
Lemma jitter_bounds_exact nom j u :
  is_double nom -> is_double j -> is_double u ->
  is_finite nom = true ->
  (2 ^ (-968) <= B2Q nom)%Q -> (B2Q nom <= 2 ^ 1022)%Q ->
  d_gt j d_zero = true -> d_lt j d_one = true ->
  d_le d_zero u = true -> d_le u d_one = true ->
  let eps := d_mul nom (d_add d_one (d_mul j (d_sub (d_mul d_two u) d_one))) in
  is_finite eps = true /\
  (B2Q nom * (1 - B2Q j) * (1 - 2 ^ (-52)) <= B2Q eps)%Q /\
  (B2Q eps <= B2Q nom * (1 + B2Q j) * (1 + 2 ^ (-51)))%Q.
Proof.
  intros Vn Vj Vu Fn Hn1 Hn2 Hj0 Hj1 Hu0 Hu1 eps.
  destruct (jitter_factor j u Vj Vu Hj0 Hj1 Hu0 Hu1)
    as ([_ Fj] & [Vf Ff] & [Vlo Flo] & [Vhi Fhi] & Oj & Of & Olo & Ohi).
  set (f := d_add d_one (d_mul j (d_sub (d_mul d_two u) d_one))) in *.
  set (f_lo := d_sub d_one j) in *. set (f_hi := d_add d_one j) in *.
  assert (V0 : is_double d_zero) by reflexivity.
  assert (V1 : is_double d_one) by reflexivity.
  assert (V2 : is_double d_two) by reflexivity.
  assert (Pn : (0 < B2Q nom)%Q).
  { eapply Qlt_le_trans; [|exact Hn1]. apply Qpow2_pos. }
  assert (On : 0 < ord nom).
  { change 0 with (ord d_zero). apply ord_lt_B2Q; try assumption; try reflexivity. }
  (* nominal * 2 is finite *)
  assert (O2 : ord (d_mul nom d_two) < ord_inf).
  { destruct (d_mul_ord nom d_two Vn V2 Fn eq_refl) as (-> & _).
    change (Fm d_two) with (2 ^ 52). change (Fe d_two) with (-51).
    replace (Fe nom + -51) with (Fe nom + 1 - 52) by lia.
    rewrite srord_shift by lia.
    set (top := S754_finite false 4503599627370496 970).
    assert (Ht : ord nom <= ord top).
    { apply ord_le_B2Q; try assumption; try reflexivity. }
    set (bot := S754_finite false 4503599627370496 (-1020)).
    assert (Hb : ord bot <= ord nom).
    { apply ord_le_B2Q; try assumption; try reflexivity.
      eapply Qle_trans; [|exact Hn1]. apply Qle_bool_iff. vm_compute. reflexivity. }
    destruct nom as [s|s| |s m e]; try discriminate Fn; [cbn [ord] in On; lia|].
    pose proof (valid_finite_inv _ _ _ Vn) as (He & Hm & Hnm).
    destruct s; [cbn [ord] in On; pow_consts; lia|].
    cbn [Fm Fe]. subst top bot. cbn [ord] in Ht, Hb.
    assert (He' : -1074 < e <= 970) by (pow_consts; lia).
    assert (Vs : is_double (S754_finite false m (e + 1)))
      by (apply valid_finite_intro; lia).
    pose proof (ord_srord _ Vs eq_refl) as Es. cbn [Fm Fe] in Es. rewrite <- Es.
    apply (ord_finite_bound _ Vs eq_refl). }
  destruct (d_mul_ord nom f Vn Vf Fn Ff) as (_ & Ve & Ne).
  destruct (d_mul_ord nom f_lo Vn Vlo Fn Flo) as (_ & Vl & Nl).
  destruct (d_mul_ord nom f_hi Vn Vhi Fn Fhi) as (_ & Vh & Nh).
  assert (Hz : ord (d_mul nom d_zero) = 0).
  { destruct (d_mul_ord nom d_zero Vn V0 Fn eq_refl) as (-> & _).
    change (Fm d_zero) with 0. rewrite Z.mul_0_r. reflexivity. }
  assert (Hpos : 0 < ord (S754_finite false 4503599627370496 (-105)))
    by (vm_compute; reflexivity).
  assert (Ol : 0 <= ord (d_mul nom f_lo)).
  { rewrite <- Hz. apply d_mul_mono_r; try assumption; try reflexivity; ord_consts; lia. }
  assert (Ole : ord (d_mul nom f_lo) <= ord (d_mul nom f)).
  { apply d_mul_mono_r; try assumption; lia. }
  assert (Ohe : ord (d_mul nom f) <= ord (d_mul nom f_hi)).
  { apply d_mul_mono_r; try assumption; lia. }
  assert (Oh : ord (d_mul nom f_hi) <= ord (d_mul nom d_two)).
  { apply d_mul_mono_r; try assumption; try reflexivity; ord_consts; lia. }
  assert (Inf : 0 < ord_inf) by (ord_consts; lia).
  assert (Fl : is_finite (d_mul nom f_lo) = true) by (apply finite_of_ord; [assumption|lia]).
  assert (Fe' : is_finite (d_mul nom f) = true) by (apply finite_of_ord; [assumption|lia]).
  assert (Fh : is_finite (d_mul nom f_hi) = true) by (apply finite_of_ord; [assumption|lia]).
  split; [exact Fe'|].
  (* values *)
  assert (E1 : (B2Q d_one == 1)%Q) by reflexivity.
  assert (QJ : (0 < B2Q j < 1)%Q).
  { split.
    - change 0%Q with (B2Q d_zero). apply ord_lt_B2Q; try assumption; try reflexivity;
        try (ord_consts; lia).
    - rewrite <- E1. apply ord_lt_B2Q; try assumption; try reflexivity; try lia. }
  assert (Qlo : (2 ^ (-53) <= B2Q f_lo)%Q).
  { assert (E : (2 ^ (-53) == B2Q (S754_finite false 4503599627370496 (-105)))%Q)
      by reflexivity.
    rewrite E. apply ord_le_B2Q; try assumption; try reflexivity; try lia. }
  assert (Qhi : (1 <= B2Q f_hi)%Q).
  { rewrite <- E1. apply ord_le_B2Q; try assumption; try reflexivity; try lia. }
  assert (A1 : near (1 - B2Q j) (B2Q f_lo)).
  { pose proof (d_sub_near d_one j V1 Vj eq_refl Fj Flo) as H.
    unfold near in *. rewrite E1 in H. apply H. lra. }
  assert (B1 : near (1 + B2Q j) (B2Q f_hi)).
  { pose proof (d_add_near d_one j V1 Vj eq_refl Fj Fhi) as H.
    unfold near in *. rewrite E1 in H. apply H. lra. }
  assert (C968 : (2 ^ (-1022) <= 2 ^ (-968) * 2 ^ (-53))%Q).
  { apply Qle_bool_iff. vm_compute. reflexivity. }
  assert (C968' : (2 ^ (-1022) <= 2 ^ (-968))%Q).
  { apply Qle_bool_iff. vm_compute. reflexivity. }
  pose proof (Qpow2_pos (-968)) as P968. pose proof (Qpow2_pos (-53)) as P53.
  assert (A2 : near (B2Q nom * B2Q f_lo) (B2Q (d_mul nom f_lo))).
  { apply d_mul_near; try assumption.
    - eapply Qlt_le_trans; [exact P53|exact Qlo].
    - eapply Qle_trans; [exact C968|].
      set (c1 := (2 ^ (-968))%Q) in *. set (c2 := (2 ^ (-53))%Q) in *. nra. }
  assert (B2 : near (B2Q nom * B2Q f_hi) (B2Q (d_mul nom f_hi))).
  { apply d_mul_near; try assumption.
    - lra.
    - eapply Qle_trans; [exact C968'|].
      set (c1 := (2 ^ (-968))%Q) in *. nra. }
  assert (A3 : (B2Q (d_mul nom f_lo) <= B2Q (d_mul nom f))%Q)
    by (apply ord_le_B2Q; assumption).
  assert (B3 : (B2Q (d_mul nom f) <= B2Q (d_mul nom f_hi))%Q)
    by (apply ord_le_B2Q; assumption).
  apply (near_mul_l (B2Q nom)) in A1; [|lra].
  apply (near_mul_l (B2Q nom)) in B1; [|lra].
  subst eps. fold f.
  change (2 ^ (-52))%Q with (1 # 4503599627370496)%Q.
  change (2 ^ (-51))%Q with (1 # 2251799813685248)%Q.
  unfold near, half_ulp in *.
  clear C968 C968' P968 P53 Hn1 Hn2.
  set (N := B2Q nom) in *. set (J := B2Q j) in *.
  set (Flo' := B2Q f_lo) in *. set (Fhi' := B2Q f_hi) in *.
  set (Plo := B2Q (d_mul nom f_lo)) in *. set (Phi := B2Q (d_mul nom f_hi)) in *.
  set (Eps := B2Q (d_mul nom f)) in *.
  assert (X0 : (0 <= N * (1 - J))%Q) by nra.
  assert (X1 : (0 <= N * (1 + J))%Q) by nra.
  set (X := (N * (1 - J))%Q) in *. set (Y := (N * Flo')%Q) in *.
  set (X' := (N * (1 + J))%Q) in *. set (Y' := (N * Fhi')%Q) in *.
  split; lra.
Qed.

(** ** The step-size search *)

Import Hmc.

Section SearchLoop.
Context {Point Rng Log : Type}.
Variable C : collaborators Point Rng Log.

Lemma probe_eq (s : base_hmc Point Rng) (l : Log) :
  exists pr z' r' l',
    probe C s l = (pr, Build_base_hmc z' r' (nom_epsilon_ s) (epsilon_ s) (epsilon_jitter_ s), l') /\
    z' = probe_point C (z_ s) (rand_int_ s) (nom_epsilon_ s) l /\
    r' = snd (sample_p C (z_ s) (rand_int_ s)) /\
    pr_epsilon pr = nom_epsilon_ s /\
    pr_H0 pr = H C (fst (init C (fst (sample_p C (z_ s) (rand_int_ s))) l)) /\
    pr_h_raw pr = H C z' /\
    pr_h pr = (if isnan (pr_h_raw pr) then infinity else pr_h_raw pr) /\
    pr_delta_H pr = d_sub (pr_H0 pr) (pr_h pr).
Proof.
  unfold probe, probe_point.
  destruct (sample_p C (z_ s) (rand_int_ s)) as [z1 r1]. cbn.
  destruct (init C z1 l) as [z2 l1]. cbn.
  destruct (evolve C z2 (nom_epsilon_ s) l1) as [z3 l2]. cbn.
  eexists _, _, _, _. split; [reflexivity|]. cbn. repeat split; reflexivity.
Qed.

Lemma nan_to_inf_not_nan h : is_nan (if isnan h then infinity else h) = false.
Proof. unfold isnan. destruct h; reflexivity. Qed.

Lemma probe_probe_ok s l : probe_ok (fst (fst (probe C s l))).
Proof.
  destruct (probe_eq s l) as (pr & z' & r' & l' & -> & _ & _ & _ & _ & _ & Hh & Hd).
  cbn [fst]. unfold probe_ok. rewrite Hh at 2. rewrite nan_to_inf_not_nan. auto.
Qed.

Lemma loop_body_spec z d (s : base_hmc Point Rng) (l : Log) :
  loop_body C z d s l =
  (let '(pr, s1, l1) := probe C (set_z s (ps_point_assign C (z_ s) z)) l in
   if accepts d (pr_delta_H pr) then (Build_iter_rec pr d, Some Break, s1, l1)
   else (Build_iter_rec pr d, check_scaled (scale d (nom_epsilon_ s1)),
         set_nom_epsilon s1 (scale d (nom_epsilon_ s1)), l1)).
Proof.
  unfold loop_body, accepts, check_scaled, scale.
  destruct (probe C (set_z s (ps_point_assign C (z_ s) z)) l) as [[pr s1] l1].
  destruct ((d =? 1) && negb (d_gt (pr_delta_H pr) log_0_8)); [reflexivity|].
  destruct ((d =? -1) && negb (d_lt (pr_delta_H pr) log_0_8)); [reflexivity|].
  cbn [orb nom_epsilon_ set_nom_epsilon].
  destruct (d_gt _ d_1e7); [reflexivity|].
  destruct (d_eqb _ d_zero); reflexivity.
Qed.

(* the loop body in terms of the entry state *)
Lemma loop_body_run z d (s : base_hmc Point Rng) (l : Log) :
  exists pr z' r' l',
    probe C (set_z s (ps_point_assign C (z_ s) z)) l
      = (pr, Build_base_hmc z' r' (nom_epsilon_ s) (epsilon_ s) (epsilon_jitter_ s), l') /\
    z' = probe_point C (ps_point_assign C (z_ s) z) (rand_int_ s) (nom_epsilon_ s) l /\
    pr_epsilon pr = nom_epsilon_ s /\ probe_ok pr /\
    loop_body C z d s l =
      (if accepts d (pr_delta_H pr)
       then (Build_iter_rec pr d, Some Break,
             Build_base_hmc z' r' (nom_epsilon_ s) (epsilon_ s) (epsilon_jitter_ s), l')
       else (Build_iter_rec pr d, check_scaled (scale d (nom_epsilon_ s)),
             Build_base_hmc z' r' (scale d (nom_epsilon_ s)) (epsilon_ s) (epsilon_jitter_ s), l')).
Proof.
  pose proof (probe_probe_ok (set_z s (ps_point_assign C (z_ s) z)) l) as Hok.
  destruct (probe_eq (set_z s (ps_point_assign C (z_ s) z)) l) as (pr & z' & r' & l' & Hp & Hz & _ & He & _).
  cbn [set_z z_ rand_int_ nom_epsilon_ epsilon_ epsilon_jitter_] in *.
  exists pr, z', r', l'. rewrite Hp in Hok. cbn [fst] in Hok.
  split; [assumption|]. split; [assumption|]. split; [assumption|].
  split; [assumption|]. rewrite loop_body_spec, Hp. reflexivity.
Qed.

Lemma search_loop_unfold fuel z d (s : base_hmc Point Rng) (l : Log) :
  search_loop C (S fuel) z d s l =
  match loop_body C z d s l with
  | (it, Some e, s, logger) => Some (e, s, logger, [it])
  | (it, None, s, logger) =>
      match search_loop C fuel z d s logger with
      | Some (e, s, logger, its) => Some (e, s, logger, it :: its)
      | None => None
      end
  end.
Proof. reflexivity. Qed.

Lemma search_loop_fuel_S fuel z d (s : base_hmc Point Rng) (l : Log) r :
  search_loop C fuel z d s l = Some r -> search_loop C (S fuel) z d s l = Some r.
Proof.
  revert s l r. induction fuel as [|fuel IH]; intros s l r Hr; [discriminate|].
  rewrite search_loop_unfold in Hr. rewrite search_loop_unfold.
  destruct (loop_body C z d s l) as [[[it [e|]] s1] l1]; [assumption|].
  destruct (search_loop C fuel z d s1 l1) as [[[[e s2] l2] its]|] eqn:Hrec; [|discriminate].
  rewrite (IH _ _ _ Hrec). assumption.
Qed.

Lemma search_loop_fuel_le fuel fuel' z d (s : base_hmc Point Rng) (l : Log) r :
  (fuel <= fuel')%nat ->
  search_loop C fuel z d s l = Some r -> search_loop C fuel' z d s l = Some r.
Proof.
  intros Hle Hr. induction Hle; [assumption|]. apply search_loop_fuel_S. assumption.
Qed.

Lemma check_scaled_scale d x :
  in_range x ->
  (exists e, check_scaled (scale d x) = Some e) \/
  (check_scaled (scale d x) = None /\ in_range (scale d x) /\
   (budget d (scale d x) < budget d x)%nat).
Proof.
  intro Hr. unfold check_scaled, scale, budget.
  destruct (d =? 1).
  - destruct (scale_up x Hr) as (_ & Hz & [Hgt|[Hr' Hb]]).
    + rewrite Hgt. left. eexists; reflexivity.
    + destruct (d_gt (d_mul d_two x) d_1e7); [left; eexists; reflexivity|].
      rewrite Hz. right. auto.
  - destruct (scale_down x Hr) as (_ & Hgt & [Hz|(Hz & Hr' & Hb)]).
    + rewrite Hgt, Hz. left. eexists; reflexivity.
    + rewrite Hgt, Hz. right. auto.
Qed.

(* the loop ends within budget + 1 iterations *)
Lemma search_loop_total fuel z d (s : base_hmc Point Rng) (l : Log) :
  in_range (nom_epsilon_ s) -> (budget d (nom_epsilon_ s) < fuel)%nat ->
  exists e s' l' its,
    search_loop C fuel z d s l = Some (e, s', l', its) /\
    (List.length its <= S (budget d (nom_epsilon_ s)))%nat.
Proof.
  revert s l. induction fuel as [|fuel IH]; intros s l Hr Hb; [lia|].
  rewrite search_loop_unfold.
  destruct (loop_body_run z d s l) as (pr & z' & r' & l' & _ & _ & _ & _ & ->).
  destruct (accepts d (pr_delta_H pr)).
  { eexists _, _, _, _. split; [reflexivity|]. cbn [List.length]. lia. }
  destruct (check_scaled_scale d _ Hr) as [[e He]|(Hn & Hr' & Hb')].
  { rewrite He. eexists _, _, _, _. split; [reflexivity|]. cbn [List.length]. lia. }
  rewrite Hn.
  set (s1 := Build_base_hmc z' r' (scale d (nom_epsilon_ s)) (epsilon_ s) (epsilon_jitter_ s)).
  destruct (IH s1 l') as (e & s2 & l2 & its & Hrec & Hlen).
  { exact Hr'. } { cbn [s1 nom_epsilon_]. lia. }
  rewrite Hrec. eexists _, _, _, _. split; [reflexivity|].
  cbn [List.length]. cbn [s1 nom_epsilon_] in Hlen. lia.
Qed.

(* what a finished run of the loop looks like *)
Lemma search_loop_inv fuel z d (s : base_hmc Point Rng) (l : Log) e s' l' its :
  search_loop C fuel z d s l = Some (e, s', l', its) ->
  loop_trace d (nom_epsilon_ s) its e (nom_epsilon_ s') /\
  Forall (fun it => probe_ok (it_probe it) /\ from_point C z (it_probe it)) its /\
  epsilon_ s' = epsilon_ s /\ epsilon_jitter_ s' = epsilon_jitter_ s /\
  (exists z0 r0 eps0 l0, z_ s' = probe_point C (ps_point_assign C z0 z) r0 eps0 l0).
Proof.
  revert s l e s' l' its. induction fuel as [|fuel IH]; intros s l e s' l' its Hrun;
    [discriminate|].
  rewrite search_loop_unfold in Hrun.
  destruct (loop_body_run z d s l) as (pr & z1 & r1 & l1 & Hp & Hz & He & Hok & Hbody).
  rewrite Hbody in Hrun. clear Hbody.
  assert (Hfrom : from_point C z pr).
  { exists (set_z s (ps_point_assign C (z_ s) z)), l, (z_ s).
    split; [reflexivity|]. rewrite Hp. reflexivity. }
  destruct (accepts d (pr_delta_H pr)) eqn:Hacc.
  { injection Hrun as <- <- <- <-. cbn.
    repeat split; try assumption; try reflexivity.
    - constructor; [split; assumption|constructor].
    - eexists _, _, _, _. exact Hz. }
  destruct (check_scaled (scale d (nom_epsilon_ s))) as [e1|] eqn:Hchk.
  { injection Hrun as <- <- <- <-. cbn.
    unfold check_scaled in Hchk.
    assert (exists w, e1 = Throw w) as [w ->].
    { destruct (d_gt _ d_1e7); [injection Hchk as <-; eexists; reflexivity|].
      destruct (d_eqb _ d_zero); [injection Hchk as <-; eexists; reflexivity|discriminate]. }
    repeat split; try assumption; try reflexivity.
    - constructor; [split; assumption|constructor].
    - eexists _, _, _, _. exact Hz. }
  set (s1 := Build_base_hmc z1 r1 (scale d (nom_epsilon_ s)) (epsilon_ s) (epsilon_jitter_ s)) in *.
  destruct (search_loop C fuel z d s1 l1) as [[[[e2 s2] l2] its2]|] eqn:Hrec; [|discriminate].
  injection Hrun as <- <- <- <-.
  destruct (IH _ _ _ _ _ _ Hrec) as (Htr & Hall & Heps & Hjit & Hpt).
  cbn [s1 nom_epsilon_ epsilon_ epsilon_jitter_] in *.
  split; [|split; [|split; [|split]]].
  - cbn [loop_trace it_probe it_direction].
    split; [assumption|]. split; [reflexivity|].
    destruct its2 as [|it2 rest]; [destruct Htr|].
    split; [assumption|]. split; [assumption|]. exact Htr.
  - constructor; [split; assumption|assumption].
  - assumption.
  - assumption.
  - assumption.
Qed.

(* the two ways init_stepsize ends *)
Lemma init_stepsize_run fuel (s : base_hmc Point Rng) (l : Log) o s' l' g :
  init_stepsize C fuel s l = Some (o, s', l', g) ->
  (d_eqb (nom_epsilon_ s) d_zero || d_gt (nom_epsilon_ s) d_1e7 = true /\
   o = Returned /\ s' = s /\ l' = l /\ g = None)
  \/
  (d_eqb (nom_epsilon_ s) d_zero || d_gt (nom_epsilon_ s) d_1e7 = false /\
   exists pr s1 l1 e s2 its,
     probe C s l = (pr, s1, l1) /\
     let direction := if d_gt (pr_delta_H pr) log_0_8 then 1 else -1 in
     search_loop C fuel (ps_point_copy C (z_ s)) direction s1 l1
       = Some (e, s2, l', its) /\
     g = Some (Build_ghost pr direction its) /\
     match e with
     | Break => o = Returned /\
                s' = set_z s2 (ps_point_assign C (z_ s2) (ps_point_copy C (z_ s)))
     | Throw what => o = Threw what /\ s' = s2
     end).
Proof.
  unfold init_stepsize.
  destruct (d_eqb (nom_epsilon_ s) d_zero || d_gt (nom_epsilon_ s) d_1e7).
  { intro Hr. injection Hr as <- <- <- <-. left. auto. }
  destruct (probe C s l) as [[pr s1] l1].
  destruct (search_loop C fuel (ps_point_copy C (z_ s)) _ s1 l1)
    as [[[[e s2] l2] its]|] eqn:Hloop;
    [|discriminate].
  intro Hr. right. split; [reflexivity|].
  exists pr, s1, l1, e, s2, its. split; [reflexivity|]. cbv zeta.
  destruct e as [|what]; injection Hr as <- <- <- <-; rewrite Hloop; auto.
Qed.

Lemma loop_trace_direction d x its e x' :
  loop_trace d x its e x' -> Forall (fun it => it_direction it = d) its.
Proof.
  revert x. induction its as [|it rest IH]; intros x Htr; [constructor|].
  cbn [loop_trace] in Htr. destruct Htr as (_ & Hd & Hrest).
  constructor; [assumption|].
  destruct rest as [|it2 rest]; [constructor|].
  destruct Hrest as (_ & _ & Hrest). apply (IH _ Hrest).
Qed.

Lemma iter_scale_shift n d x :
  Nat.iter n (scale d) (scale d x) = Nat.iter (S n) (scale d) x.
Proof. symmetry. apply Nat.iter_succ_r. Qed.

(* a finished run is a sequence of continuing iterations and a last one *)
Lemma loop_trace_split d x its e x' :
  loop_trace d x its e x' ->
  exists front it,
    its = front ++ [it] /\
    Forall (fun it => accepts d (pr_delta_H (it_probe it)) = false) front /\
    pr_epsilon (it_probe it) = Nat.iter (List.length front) (scale d) x /\
    match e with
    | Break => accepts d (pr_delta_H (it_probe it)) = true /\
               x' = Nat.iter (List.length front) (scale d) x
    | Throw what => accepts d (pr_delta_H (it_probe it)) = false /\
               x' = Nat.iter (S (List.length front)) (scale d) x /\
               check_scaled x' = Some (Throw what)
    end.
Proof.
  revert x. induction its as [|it rest IH]; intros x Htr; [destruct Htr|].
  cbn [loop_trace] in Htr. destruct Htr as (Hx & Hd & Hrest).
  destruct rest as [|it2 rest].
  - exists [], it. split; [reflexivity|]. split; [constructor|]. split; [exact Hx|].
    destruct e; cbn [List.length Nat.iter nat_rect]; exact Hrest.
  - destruct Hrest as (Ha & _ & Hrest).
    destruct (IH _ Hrest) as (front & it' & Heq & Hall & Heps & He).
    exists (it :: front), it'. split; [rewrite Heq; reflexivity|].
    split; [constructor; assumption|].
    cbn [List.length]. rewrite iter_scale_shift in Heps. split; [exact Heps|].
    destruct e; rewrite iter_scale_shift in He; exact He.
Qed.

End SearchLoop.

Section SearchClaims.
Context {Point Rng Log : Type}.
Variable C : collaborators Point Rng Log.

(** C7: with a nominal step size equal to 0 or above 1e7 at entry,
    init_stepsize returns at once, whatever the fuel, and the sampler (point,
    nominal and current step size, jitter, generator) and the logger are the
    ones it was called with; no probe is made. *)
Theorem init_stepsize_skips_extreme (s : base_hmc Point Rng) (l : Log) (fuel : nat) :
  d_eqb (nom_epsilon_ s) d_zero = true \/ d_gt (nom_epsilon_ s) d_1e7 = true ->
  init_stepsize C fuel s l = Some (Returned, s, l, None).
Proof.
  intro H. unfold init_stepsize.
  replace (d_eqb (nom_epsilon_ s) d_zero || d_gt (nom_epsilon_ s) d_1e7) with true;
    [reflexivity|].
  symmetry. apply orb_true_iff. exact H.
Qed.

(** C1: when init_stepsize returns normally the ps_point sub-object of the
    point (position and momentum) is the one it had on entry, and so is the
    whole point when it has no member outside ps_point; in every finished run
    the current step size and the jitter are unchanged; when it throws
    nothing is restored: the point is the one the last probe left behind,
    started from a point whose ps_point sub-object had been set to the entry
    one. (Copying the ps_point sub-object after assigning to it is taken to
    give what was assigned.) *)
Theorem init_stepsize_point fuel (s : base_hmc Point Rng) (l : Log) o s' l' g :
  copy_of_assigned C ->
  init_stepsize C fuel s l = Some (o, s', l', g) ->
  epsilon_ s' = epsilon_ s /\ epsilon_jitter_ s' = epsilon_jitter_ s /\
  match o with
  | Returned =>
      ps_point_copy C (z_ s') = ps_point_copy C (z_ s) /\
      ((forall z z' : Point, ps_point_copy C z = ps_point_copy C z' -> z = z') ->
       z_ s' = z_ s)
  | Threw _ =>
      exists z0 r0 eps0 l0,
        z_ s' = probe_point C (ps_point_assign C z0 (ps_point_copy C (z_ s))) r0 eps0 l0
  end.
Proof.
  intros Hlaw Hrun. apply init_stepsize_run in Hrun.
  destruct Hrun as [(_ & -> & -> & _ & _)|(_ & pr & s1 & l1 & e & s2 & its & Hp & Hloop & _ & He)].
  { repeat split. }
  cbv zeta in Hloop. apply search_loop_inv in Hloop.
  destruct Hloop as (_ & _ & Heps & Hjit & Hpt).
  destruct (probe_eq C s l) as (pr' & z' & r' & l'' & Hp' & _).
  rewrite Hp in Hp'. injection Hp' as -> -> ->.
  cbn [epsilon_ epsilon_jitter_] in Heps, Hjit.
  destruct e as [|what]; destruct He as [-> ->]; cbn [set_z epsilon_ epsilon_jitter_ z_].
  - split; [exact Heps|]. split; [exact Hjit|].
    assert (Hc : ps_point_copy C (ps_point_assign C (z_ s2) (ps_point_copy C (z_ s)))
                 = ps_point_copy C (z_ s)) by apply Hlaw.
    split; [exact Hc|]. intro Hinj. apply Hinj. exact Hc.
  - split; [exact Heps|]. split; [exact Hjit|]. exact Hpt.
Qed.

(** C4: the direction is computed once, from the first probe: +1 when its
    delta_H = H0 - h is greater than log(0.8) and -1 otherwise, and every
    iteration of the loop reads that same value. *)
Theorem direction_decided_once fuel (s : base_hmc Point Rng) (l : Log) o s' l' g :
  init_stepsize C fuel s l = Some (o, s', l', Some g) ->
  g_first g = fst (fst (probe C s l)) /\
  pr_delta_H (g_first g) = d_sub (pr_H0 (g_first g)) (pr_h (g_first g)) /\
  g_direction g = (if d_gt (pr_delta_H (g_first g)) log_0_8 then 1 else -1) /\
  Forall (fun it => it_direction it = g_direction g) (g_loop g).
Proof.
  intro Hrun. apply init_stepsize_run in Hrun.
  destruct Hrun as [(_ & _ & _ & _ & Hg)|(_ & pr & s1 & l1 & e & s2 & its & Hp & Hloop & Hg & _)];
    [discriminate Hg|].
  injection Hg as ->. cbn [g_first g_direction g_loop].
  pose proof (probe_probe_ok C s l) as (_ & _ & Hd). rewrite Hp in *. cbn [fst] in *.
  split; [reflexivity|]. split; [assumption|]. split; [reflexivity|].
  cbv zeta in Hloop. apply search_loop_inv in Hloop. destruct Hloop as (Htr & _).
  apply (loop_trace_direction _ _ _ _ _ Htr).
Qed.

(* a NaN delta_H makes the iteration accept when direction is +1 or -1 *)
Lemma accepts_nan d delta_H :
  d = 1 \/ d = -1 -> is_nan delta_H = true -> accepts d delta_H = true.
Proof.
  intros Hd Hn. destruct (nan_compare_false delta_H log_0_8 Hn) as [H1 H2].
  unfold accepts. rewrite H1, H2. destruct Hd as [-> | ->]; reflexivity.
Qed.

(** C5: in every probe of the search the energy after the step is
    tested with isnan and replaced by +infinity, so h is never NaN; the
    energy before the step, H0, is used as H returned it; delta_H = H0 - h
    is NaN when H0 is NaN, and never when H0 is finite; a NaN delta_H is on
    neither side of log(0.8): at the first probe it gives direction -1, and
    in the loop it ends the search by acceptance, so a run that throws had no
    NaN delta_H in its loop. *)
Theorem nan_only_h_coerced fuel (s : base_hmc Point Rng) (l : Log) o s' l' g :
  init_stepsize C fuel s l = Some (o, s', l', Some g) ->
  let ok pr :=
    pr_h pr = (if isnan (pr_h_raw pr) then infinity else pr_h_raw pr) /\
    is_nan (pr_h pr) = false /\
    pr_delta_H pr = d_sub (pr_H0 pr) (pr_h pr) /\
    (is_nan (pr_H0 pr) = true -> is_nan (pr_delta_H pr) = true) /\
    (is_finite (pr_H0 pr) = true -> is_nan (pr_delta_H pr) = false) in
  ok (g_first g) /\
  pr_H0 (g_first g) = H C (fst (init C (fst (sample_p C (z_ s) (rand_int_ s))) l)) /\
  Forall (fun it => ok (it_probe it)) (g_loop g) /\
  (is_nan (pr_delta_H (g_first g)) = true -> g_direction g = -1) /\
  (forall what, o = Threw what ->
     Forall (fun it => is_nan (pr_delta_H (it_probe it)) = false) (g_loop g)).
Proof.
  intros Hrun ok.
  assert (Hok : forall pr, probe_ok pr -> ok pr).
  { intros pr (H1 & H2 & H3). unfold ok. rewrite H3.
    repeat split; try assumption.
    - apply d_sub_nan_l.
    - intro Hf. apply d_sub_not_nan; assumption. }
  apply init_stepsize_run in Hrun.
  destruct Hrun as [(_ & _ & _ & _ & Hg)|(_ & pr & s1 & l1 & e & s2 & its & Hp & Hloop & Hg & He)];
    [discriminate Hg|].
  injection Hg as ->. cbn [g_first g_direction g_loop].
  pose proof (probe_probe_ok C s l) as Hpok.
  destruct (probe_eq C s l) as (pr' & z' & r' & l'' & Hp' & _ & _ & _ & HH0 & _).
  rewrite Hp in Hp', Hpok. injection Hp' as <- -> ->. cbn [fst] in Hpok.
  cbv zeta in Hloop. apply search_loop_inv in Hloop. destruct Hloop as (Htr & Hall & _).
  split; [apply Hok; assumption|]. split; [assumption|]. split; [|split].
  - eapply Forall_impl; [|exact Hall]. intros it [Hi _]. apply Hok. exact Hi.
  - intro Hn. destruct (nan_compare_false _ log_0_8 Hn) as [-> _]. reflexivity.
  - intros what ->. destruct e as [|w]; [destruct He; discriminate|].
    apply loop_trace_split in Htr.
    destruct Htr as (front & it & -> & Hfront & _ & Hacc & _).
    assert (Hdir : (if d_gt (pr_delta_H pr) log_0_8 then 1 else -1) = 1 \/
                   (if d_gt (pr_delta_H pr) log_0_8 then 1 else -1) = -1)
      by (destruct (d_gt (pr_delta_H pr) log_0_8); auto).
    apply Forall_app. split.
    + eapply Forall_impl; [|exact Hfront]. intros it' Ha.
      destruct (is_nan (pr_delta_H (it_probe it'))) eqn:Hn; [|reflexivity].
      cbv beta in Ha. rewrite (accepts_nan _ _ Hdir Hn) in Ha. discriminate.
    + constructor; [|constructor].
      destruct (is_nan (pr_delta_H (it_probe it))) eqn:Hn; [|reflexivity].
      rewrite (accepts_nan _ _ Hdir Hn) in Hacc. discriminate.
Qed.

Lemma le_not_gt x y : d_le x y = true -> d_gt x y = false.
Proof.
  unfold d_le, d_gt, SFleb, SFltb. rewrite (SFcompare_swap x y).
  destruct (SFcompare x y) as [[| |]|]; try discriminate; reflexivity.
Qed.

Lemma in_range_guard x : in_range x -> d_eqb x d_zero || d_gt x d_1e7 = false.
Proof.
  intros Hr. pose proof Hr as (_ & _ & Hle).
  destruct (in_range_inv x Hr) as (m & e & -> & _).
  rewrite (le_not_gt _ _ Hle). reflexivity.
Qed.

Lemma init_stepsize_search fuel (s : base_hmc Point Rng) (l : Log) pr s1 l1 r :
  d_eqb (nom_epsilon_ s) d_zero || d_gt (nom_epsilon_ s) d_1e7 = false ->
  probe C s l = (pr, s1, l1) ->
  search_loop C fuel (ps_point_copy C (z_ s))
    (if d_gt (pr_delta_H pr) log_0_8 then 1 else -1) s1 l1 = Some r ->
  init_stepsize C fuel s l
  = Some (finish C (ps_point_copy C (z_ s)) pr (if d_gt (pr_delta_H pr) log_0_8 then 1 else -1) r).
Proof.
  intros Hg Hp Hl. unfold init_stepsize. rewrite Hg, Hp. cbv zeta. rewrite Hl.
  destruct r as [[[[|what] s2] l2] its]; reflexivity.
Qed.

Lemma check_scaled_throws x e :
  check_scaled x = Some e -> e = Throw improper_msg \/ e = Throw too_small_msg.
Proof.
  unfold check_scaled. destruct (d_gt x d_1e7); [intros [= <-]; auto|].
  destruct (d_eqb x d_zero); [intros [= <-]; auto|discriminate].
Qed.

(** C2: from a nominal step size in (0, 1e7] init_stepsize ends
    within 1100 iterations of its loop, by acceptance or by one of the two
    errors, with the same result for every larger fuel. When it accepts, the
    last probe fails the comparison that keeps the loop going: its delta_H
    is not greater than log(0.8) for direction +1, not smaller for direction
    -1. That is delta_H <= log(0.8), respectively delta_H >= log(0.8),
    whenever delta_H is not NaN, which holds whenever the energy before the
    step is finite. *)
Theorem init_stepsize_terminates (s : base_hmc Point Rng) (l : Log) :
  in_range (nom_epsilon_ s) ->
  exists o s' l' g,
    (forall fuel, (1100 <= fuel)%nat ->
       init_stepsize C fuel s l = Some (o, s', l', Some g)) /\
    (List.length (g_loop g) <= 1100)%nat /\
    (o = Returned \/ o = Threw improper_msg \/ o = Threw too_small_msg) /\
    (o = Returned ->
     exists front it,
       g_loop g = front ++ [it] /\
       ((g_direction g = 1 /\ d_gt (pr_delta_H (it_probe it)) log_0_8 = false) \/
        (g_direction g = -1 /\ d_lt (pr_delta_H (it_probe it)) log_0_8 = false)) /\
       (is_nan (pr_delta_H (it_probe it)) = false ->
        (g_direction g = 1 /\ d_le (pr_delta_H (it_probe it)) log_0_8 = true) \/
        (g_direction g = -1 /\ d_le log_0_8 (pr_delta_H (it_probe it)) = true)) /\
       (is_finite (pr_H0 (it_probe it)) = true ->
        is_nan (pr_delta_H (it_probe it)) = false)).
Proof.
  intro Hr.
  destruct (probe_eq C s l) as (pr & z1 & r1 & l1 & Hp & _).
  set (s1 := Build_base_hmc z1 r1 (nom_epsilon_ s) (epsilon_ s) (epsilon_jitter_ s)) in *.
  set (d := if d_gt (pr_delta_H pr) log_0_8 then 1 else -1).
  assert (Hd : d = 1 \/ d = -1) by (subst d; destruct (d_gt _ _); auto).
  pose proof (budget_bound d _ Hr) as Hb.
  destruct (search_loop_total C (S (budget d (nom_epsilon_ s)))
              (ps_point_copy C (z_ s)) d s1 l1)
    as (e & s2 & l2 & its & Hloop & Hlen); [exact Hr|cbn [s1 nom_epsilon_]; lia|].
  cbn [s1 nom_epsilon_] in Hlen.
  pose proof (search_loop_inv C _ _ _ _ _ _ _ _ _ Hloop) as (Htr & Hall & _).
  apply loop_trace_split in Htr.
  destruct Htr as (front & it & Hits & _ & _ & He).
  assert (Hrun : forall fuel, (1100 <= fuel)%nat ->
            init_stepsize C fuel s l = Some (finish C (ps_point_copy C (z_ s)) pr d (e, s2, l2, its))).
  { intros fuel Hf.
    apply (init_stepsize_search fuel s l pr s1 l1);
      [apply in_range_guard; exact Hr|exact Hp|].
    apply (search_loop_fuel_le C (S (budget d (nom_epsilon_ s)))); [lia|exact Hloop]. }
  destruct e as [|what]; cbn [finish] in Hrun.
  - eexists _, _, _, _. split; [exact Hrun|]. cbn [g_loop g_direction].
    split; [lia|]. split; [auto|]. intros _.
    exists front, it. split; [exact Hits|].
    destruct He as [Hacc _].
    assert (Hokit : probe_ok (it_probe it)).
    { rewrite Hits in Hall. apply Forall_app in Hall. destruct Hall as [_ Hl].
      inversion Hl as [|? ? [Hk _] _]. exact Hk. }
    destruct Hokit as (_ & Hnh & Hdelta).
    fold d. unfold accepts in Hacc.
    assert (Hside : (d = 1 /\ d_gt (pr_delta_H (it_probe it)) log_0_8 = false) \/
                    (d = -1 /\ d_lt (pr_delta_H (it_probe it)) log_0_8 = false)).
    { destruct Hd as [Hd1|Hd1]; rewrite Hd1 in Hacc; cbn in Hacc; [left|right];
        (split; [assumption|]).
      - rewrite orb_false_r in Hacc. apply negb_true_iff in Hacc. exact Hacc.
      - apply negb_true_iff in Hacc. exact Hacc. }
    split; [exact Hside|]. split.
    + intro Hn. destruct Hside as [[H1 H2]|[H1 H2]]; [left|right]; (split; [assumption|]).
      * apply not_gt_le_any; [assumption|reflexivity|assumption].
      * apply not_lt_ge_any; [assumption|reflexivity|assumption].
    + intro Hf. rewrite Hdelta. apply d_sub_not_nan; assumption.
  - eexists _, _, _, _. split; [exact Hrun|]. cbn [g_loop g_direction].
    split; [lia|]. split; [|intro Hx; discriminate Hx].
    destruct He as (_ & _ & Hchk). apply check_scaled_throws in Hchk.
    destruct Hchk as [[= ->]|[= ->]]; auto.
Qed.

End SearchClaims.

Section Scaling.
Context {Point Rng Log : Type}.
Variable C : collaborators Point Rng Log.

Lemma accepts_up delta_H : d_gt delta_H log_0_8 = true -> accepts 1 delta_H = false.
Proof. intro H. unfold accepts. rewrite H. reflexivity. Qed.

Lemma accepts_down delta_H : d_lt delta_H log_0_8 = true -> accepts (-1) delta_H = false.
Proof. intro H. unfold accepts. rewrite H. reflexivity. Qed.

(* which error ends a run of the loop *)
Lemma loop_trace_throw d x its what x' :
  in_range x -> loop_trace d x its (Throw what) x' ->
  if d =? 1 then what = improper_msg /\ d_gt x' d_1e7 = true
  else what = too_small_msg /\ d_eqb x' d_zero = true /\ d_gt x' d_1e7 = false.
Proof.
  revert x. induction its as [|it rest IH]; intros x Hr Htr; [destruct Htr|].
  cbn [loop_trace] in Htr. destruct Htr as (_ & _ & Hrest).
  destruct rest as [|it2 rest].
  - destruct Hrest as (_ & -> & Hchk). unfold check_scaled, scale in *.
    destruct (d =? 1).
    + destruct (scale_up x Hr) as (_ & Hz & _). rewrite Hz in Hchk.
      destruct (d_gt (d_mul d_two x) d_1e7); [|discriminate].
      injection Hchk as <-. auto.
    + destruct (scale_down x Hr) as (_ & Hgt & _). rewrite Hgt in Hchk.
      destruct (d_eqb (d_mul d_half x) d_zero); [|discriminate].
      injection Hchk as <-. auto.
  - destruct Hrest as (_ & Hchk & Hrest).
    destruct (check_scaled_scale d x Hr) as [[e He]|(_ & Hr' & _)]; [congruence|].
    apply (IH _ Hr' Hrest).
Qed.

Lemma up_step x :
  in_range x ->
  (B2Q (d_mul d_two x) == 2 * B2Q x)%Q /\
  is_double (d_mul d_two x) /\ is_finite (d_mul d_two x) = true.
Proof.
  intro Hr. pose proof Hr as (Hv & _).
  destruct (scale_up x Hr) as (Hv' & _).
  destruct (in_range_inv x Hr) as (m & e & -> & He & Hm & Hn).
  split; [apply B2Q_mul_two; [assumption|lia]|]. split; [assumption|].
  rewrite d_mul_two by assumption.
  destruct (Zpos m <? 2 ^ 52); [reflexivity|].
  destruct (Z.leb_spec (e + 1) 971); [reflexivity|lia].
Qed.

Lemma Qpow2_succ (n : nat) : (2 ^ Z.of_nat (S n) == 2 * 2 ^ Z.of_nat n)%Q.
Proof.
  rewrite Nat2Z.inj_succ. unfold Z.succ. rewrite Qpow2_add.
  change (2 ^ 1)%Q with 2%Q. ring.
Qed.

(* the doublings of a run of the loop that ends with an error *)
Lemma loop_trace_up_throw x its what x' :
  in_range x -> loop_trace 1 x its (Throw what) x' ->
  (1 <= List.length its)%nat /\
  (B2Q x' == B2Q x * 2 ^ Z.of_nat (List.length its))%Q /\
  (B2Q x * 2 ^ (Z.of_nat (List.length its) - 1) <= B2Q d_1e7)%Q /\
  (B2Q d_1e7 < B2Q x * 2 ^ Z.of_nat (List.length its))%Q.
Proof.
  revert x. induction its as [|it rest IH]; intros x Hr Htr; [destruct Htr|].
  cbn [loop_trace] in Htr. destruct Htr as (_ & _ & Hrest).
  destruct (up_step x Hr) as (Hval & Hv' & Hf').
  change (scale 1 x) with (d_mul d_two x) in Hrest.
  destruct rest as [|it2 rest].
  - destruct Hrest as (_ & -> & Hchk). cbn [List.length].
    change (Z.of_nat 1) with 1. change (1 - 1) with 0.
    change (2 ^ 1)%Q with 2%Q. change (2 ^ 0)%Q with 1%Q.
    split; [lia|]. split; [rewrite Hval; ring|]. split.
    + rewrite Qmult_1_r. pose proof Hr as (Hv & _ & Hle).
      apply (d_le_B2Q x d_1e7); [exact Hv|reflexivity| |reflexivity|exact Hle].
      destruct (in_range_inv x Hr) as (m & e & -> & _). reflexivity.
    + unfold check_scaled in Hchk.
      destruct (d_gt (d_mul d_two x) d_1e7) eqn:Hgt.
      * assert (Hlt : (B2Q d_1e7 < B2Q (d_mul d_two x))%Q)
          by (apply d_lt_B2Q; try assumption; reflexivity).
        rewrite Hval in Hlt. rewrite Qmult_comm. exact Hlt.
      * destruct (scale_up x Hr) as (_ & Hz & _). rewrite Hz in Hchk. discriminate Hchk.
  - destruct Hrest as (_ & Hn & Hrest).
    assert (Hr' : in_range (d_mul d_two x)).
    { destruct (check_scaled_scale 1 x Hr) as [[e He]|(_ & Hr' & _)]; [|exact Hr'].
      change (scale 1 x) with (d_mul d_two x) in He. congruence. }
    destruct (IH _ Hr' Hrest) as (Hlen & Hfin & Hlo & Hhi).
    set (k := List.length (it2 :: rest)) in *.
    change (List.length (it :: it2 :: rest)) with (S k).
    destruct k as [|k]; [lia|].
    replace (Z.of_nat (S (S k)) - 1) with (Z.of_nat (S k)) by lia.
    replace (Z.of_nat (S k) - 1) with (Z.of_nat k) in Hlo by lia.
    rewrite Hval in Hfin, Hlo, Hhi.
    split; [lia|]. split; [|split].
    + rewrite Hfin, (Qpow2_succ (S k)). ring.
    + rewrite (Qpow2_succ k).
      setoid_replace (B2Q x * (2 * 2 ^ Z.of_nat k))%Q
        with (2 * B2Q x * 2 ^ Z.of_nat k)%Q by ring.
      exact Hlo.
    + rewrite (Qpow2_succ (S k)).
      setoid_replace (B2Q x * (2 * 2 ^ Z.of_nat (S k)))%Q
        with (2 * B2Q x * 2 ^ Z.of_nat (S k))%Q by ring.
      exact Hhi.
Qed.

(* the number of doublings that takes x above 1e7 is determined *)
Lemma scalings_unique x (n : nat) :
  in_range x -> (1 <= n)%nat ->
  (B2Q x * 2 ^ (Z.of_nat n - 1) <= B2Q d_1e7)%Q ->
  (B2Q d_1e7 < B2Q x * 2 ^ Z.of_nat n)%Q ->
  n = scalings_to_exceed x.
Proof.
  intros Hr Hn Hlo Hhi.
  destruct (scalings_to_exceed_spec x Hr) as (Hn0 & Hlo0 & Hhi0).
  set (n0 := scalings_to_exceed x) in *.
  destruct (in_range_inv x Hr) as (m & e & -> & He & Hm & _).
  apply B2Q_pow_le in Hlo; try lia. apply B2Q_pow_le in Hlo0; try lia.
  apply B2Q_pow_lt in Hhi; try lia. apply B2Q_pow_lt in Hhi0; try lia.
  set (N := 10000000 * 2 ^ (- e)) in *.
  destruct (Nat.lt_trichotomy n n0) as [Hlt|[Heq|Hgt]]; [|exact Heq|]; exfalso.
  - assert (Hp : 2 ^ Z.of_nat n <= 2 ^ (Z.of_nat n0 - 1))
      by (apply Z.pow_le_mono_r; lia).
    nia.
  - assert (Hp : 2 ^ Z.of_nat n0 <= 2 ^ (Z.of_nat n - 1))
      by (apply Z.pow_le_mono_r; lia).
    nia.
Qed.

Lemma last_of_forall {A} (P : A -> Prop) (front : list A) (x : A) :
  Forall P (front ++ [x]) -> P x.
Proof.
  intro Hall. apply Forall_app in Hall. destruct Hall as [_ Hl].
  inversion Hl. assumption.
Qed.

(** C3: an iteration that does not accept multiplies the nominal step size by
    2.0 when direction is +1 and by 0.5 otherwise, then throws "Posterior is
    improper..." if the product is greater than 1e7, else throws "No
    acceptably small step size..." if it equals 0. From a nominal step size x
    in (0, 1e7] the search ends within 1100 probes of its loop; when every
    probe it makes has delta_H > log(0.8) it ends with the first error after
    exactly floor(log2(1e7/x)) + 1 doublings, which is ceil(log2(1e7/x))
    doublings or one more (one more exactly when 1e7/x is a power of two),
    the nominal step size then being x * 2^n; when every probe it makes has
    delta_H < log(0.8) it ends with the second error, the nominal step size
    then being 0. *)
Theorem scaling_and_fatal_errors (s : base_hmc Point Rng) (l : Log) :
  in_range (nom_epsilon_ s) ->
  (forall z d (s0 : base_hmc Point Rng) (l0 : Log),
     let '(it, ex, s', _) := loop_body C z d s0 l0 in
     if accepts d (pr_delta_H (it_probe it))
     then ex = Some Break /\ nom_epsilon_ s' = nom_epsilon_ s0
     else nom_epsilon_ s' = (if d =? 1 then d_mul d_two (nom_epsilon_ s0)
                             else d_mul d_half (nom_epsilon_ s0)) /\
          ex = (if d_gt (nom_epsilon_ s') d_1e7 then Some (Throw improper_msg)
                else if d_eqb (nom_epsilon_ s') d_zero then Some (Throw too_small_msg)
                else None)) /\
  exists o s' l' g,
    (forall fuel, (1100 <= fuel)%nat ->
       init_stepsize C fuel s l = Some (o, s', l', Some g)) /\
    (List.length (g_loop g) <= 1100)%nat /\
    (probes_above g = true ->
     let n := scalings_to_exceed (nom_epsilon_ s) in
     (Z.of_nat n = log2_ceil_ratio (nom_epsilon_ s) \/
      Z.of_nat n = log2_ceil_ratio (nom_epsilon_ s) + 1) /\
     (Z.of_nat n = log2_ceil_ratio (nom_epsilon_ s) + 1 <->
      (B2Q (nom_epsilon_ s) * 2 ^ log2_ceil_ratio (nom_epsilon_ s) == B2Q d_1e7)%Q) /\
     o = Threw improper_msg /\
     g_direction g = 1 /\ List.length (g_loop g) = n /\
     (B2Q (nom_epsilon_ s') == B2Q (nom_epsilon_ s) * 2 ^ Z.of_nat n)%Q) /\
    (probes_below g = true ->
     o = Threw too_small_msg /\
     g_direction g = -1 /\ d_eqb (nom_epsilon_ s') d_zero = true).
Proof.
  intro Hr. split.
  - intros z d s0 l0.
    destruct (loop_body_run C z d s0 l0) as (pr & z1 & r1 & l1 & _ & _ & _ & _ & ->).
    unfold check_scaled, scale.
    destruct (accepts d (pr_delta_H pr)) eqn:Hacc; cbn [it_probe nom_epsilon_];
      rewrite Hacc; auto.
  - destruct (probe_eq C s l) as (pr & z1 & r1 & l1 & Hp & _).
    set (s1 := Build_base_hmc z1 r1 (nom_epsilon_ s) (epsilon_ s) (epsilon_jitter_ s)) in *.
    set (d := if d_gt (pr_delta_H pr) log_0_8 then 1 else -1).
    pose proof (budget_bound d _ Hr) as Hb.
    destruct (search_loop_total C (S (budget d (nom_epsilon_ s)))
                (ps_point_copy C (z_ s)) d s1 l1)
      as (e & s2 & l2 & its & Hloop & Hlen); [exact Hr|cbn [s1 nom_epsilon_]; lia|].
    cbn [s1 nom_epsilon_] in Hlen.
    pose proof (search_loop_inv C _ _ _ _ _ _ _ _ _ Hloop) as (Htr & _).
    cbn [s1 nom_epsilon_] in Htr.
    pose proof (loop_trace_split _ _ _ _ _ Htr) as (front & it & Hits & _ & _ & He).
    assert (Hrun : forall fuel, (1100 <= fuel)%nat ->
              init_stepsize C fuel s l
              = Some (finish C (ps_point_copy C (z_ s)) pr d (e, s2, l2, its))).
    { intros fuel Hf.
      apply (init_stepsize_search C fuel s l pr s1 l1);
        [apply in_range_guard; exact Hr|exact Hp|].
      apply (search_loop_fuel_le C (S (budget d (nom_epsilon_ s)))); [lia|exact Hloop]. }
    assert (Hshape : exists o s',
              finish C (ps_point_copy C (z_ s)) pr d (e, s2, l2, its)
              = (o, s', l2, Some (Build_ghost pr d its)) /\
              nom_epsilon_ s' = nom_epsilon_ s2 /\
              match e with Break => o = Returned | Throw what => o = Threw what end).
    { destruct e as [|what]; cbn [finish]; eexists _, _;
        (split; [reflexivity|]); split; reflexivity. }
    destruct Hshape as (o & s' & Hfin & Hnom & Ho).
    exists o, s', l2, (Build_ghost pr d its).
    split; [intros fuel Hf; rewrite (Hrun fuel Hf), Hfin; reflexivity|].
    cbn [g_loop g_direction g_first]. split; [lia|]. split.
    + unfold probes_above. cbn [g_first g_loop]. intro Hab.
      apply andb_true_iff in Hab. destruct Hab as [Hfirst Hall].
      rewrite forallb_forall in Hall.
      set (n := scalings_to_exceed (nom_epsilon_ s)).
      destruct (scalings_vs_ceil _ Hr) as [Hc1 Hc2].
      split; [exact Hc1|]. split; [exact Hc2|].
      assert (Hd : d = 1) by (unfold d; rewrite Hfirst; reflexivity).
      rewrite Hd in Htr, He |- *.
      assert (Hacc : accepts 1 (pr_delta_H (it_probe it)) = false).
      { apply accepts_up. apply Hall. rewrite Hits. apply in_or_app. right. left.
        reflexivity. }
      destruct e as [|what]; [destruct He as [He _]; congruence|].
      pose proof (loop_trace_throw _ _ _ _ _ Hr Htr) as Hthrow.
      change (1 =? 1) with true in Hthrow. cbv iota in Hthrow.
      destruct Hthrow as (-> & _).
      destruct (loop_trace_up_throw _ _ _ _ Hr Htr) as (Hl1 & Hval & Hlo & Hhi).
      assert (Hn : List.length its = n)
        by (apply scalings_unique; assumption).
      split; [exact Ho|]. split; [reflexivity|]. split; [exact Hn|].
      rewrite Hnom, Hval, Hn. reflexivity.
    + unfold probes_below. cbn [g_first g_loop]. intro Hbe.
      apply andb_true_iff in Hbe. destruct Hbe as [Hfirst Hall].
      rewrite forallb_forall in Hall.
      assert (Hd : d = -1)
        by (unfold d; rewrite (lt_not_gt _ _ Hfirst); reflexivity).
      rewrite Hd in Htr, He |- *.
      assert (Hacc : accepts (-1) (pr_delta_H (it_probe it)) = false).
      { apply accepts_down. apply Hall. rewrite Hits. apply in_or_app. right. left.
        reflexivity. }
      destruct e as [|what]; [destruct He as [He _]; congruence|].
      pose proof (loop_trace_throw _ _ _ _ _ Hr Htr) as Hthrow.
      change (-1 =? 1) with false in Hthrow. cbv iota in Hthrow.
      destruct Hthrow as (-> & Hzero & _).
      split; [exact Ho|]. split; [reflexivity|]. rewrite Hnom. exact Hzero.
Qed.

End Scaling.

Section Setters.
Context {Point Rng Log : Type}.
Variable C : collaborators Point Rng Log.

(** C6: sample_stepsize copies the nominal step size into the current one;
    when the stored jitter compares equal to zero nothing else happens and the
    generator is not advanced; otherwise exactly one uniform draw u is taken
    and the current step size is nominal * (1 + jitter * (2u - 1)) in double
    arithmetic. For a finite nominal >= 0, 0 < jitter < 1 and 0 <= u <= 1 it
    lies between nominal * (1 - jitter) and nominal * (1 + jitter) when these
    are computed as doubles, with the same rounded operations; against the
    exact products of the stored numbers it lies between
    nominal * (1 - jitter) * (1 - 2^-52) and
    nominal * (1 + jitter) * (1 + 2^-51), for a nominal step size from 2^-968
    to 2^1022, and it can be below nominal * (1 - jitter) itself. The nominal
    step size, the jitter and the point are unchanged. *)
Theorem sample_stepsize_jitter (s : base_hmc Point Rng) :
  let s' := sample_stepsize C s in
  let nom := nom_epsilon_ s in
  let j := epsilon_jitter_ s in
  nom_epsilon_ s' = nom /\ epsilon_jitter_ s' = j /\ z_ s' = z_ s /\
  (d_eqb j d_zero = true -> epsilon_ s' = nom /\ rand_int_ s' = rand_int_ s) /\
  (d_eqb j d_zero = false ->
   let u := fst (rand_uniform_ C (rand_int_ s)) in
   rand_int_ s' = snd (rand_uniform_ C (rand_int_ s)) /\
   epsilon_ s' = d_mul nom (d_add d_one (d_mul j (d_sub (d_mul d_two u) d_one))) /\
   (is_double nom -> is_double j -> is_double u ->
    d_le d_zero nom = true -> is_finite nom = true ->
    d_gt j d_zero = true -> d_lt j d_one = true ->
    d_le d_zero u = true -> d_le u d_one = true ->
    d_le (d_mul nom (d_sub d_one j)) (epsilon_ s') = true /\
    d_le (epsilon_ s') (d_mul nom (d_add d_one j)) = true) /\
   (is_double nom -> is_double j -> is_double u ->
    is_finite nom = true -> (2 ^ (-968) <= B2Q nom)%Q -> (B2Q nom <= 2 ^ 1022)%Q ->
    d_gt j d_zero = true -> d_lt j d_one = true ->
    d_le d_zero u = true -> d_le u d_one = true ->
    is_finite (epsilon_ s') = true /\
    (B2Q nom * (1 - B2Q j) * (1 - 2 ^ (-52)) <= B2Q (epsilon_ s'))%Q /\
    (B2Q (epsilon_ s') <= B2Q nom * (1 + B2Q j) * (1 + 2 ^ (-51)))%Q)).
Proof.
  intros s' nom j. subst s'. unfold sample_stepsize, truthy.
  cbn [set_epsilon epsilon_jitter_ rand_int_ nom_epsilon_ epsilon_ z_]. fold j nom.
  destruct (d_eqb j d_zero) eqn:Hj; cbn [negb].
  - cbn [nom_epsilon_ epsilon_jitter_ z_ epsilon_ rand_int_].
    split; [reflexivity|]. split; [reflexivity|]. split; [reflexivity|].
    split; [intros _; split; reflexivity|discriminate].
  - destruct (rand_uniform_ C (rand_int_ s)) as [u r].
    cbn [set_rand_int set_epsilon nom_epsilon_ epsilon_jitter_ z_ epsilon_ rand_int_ fst snd].
    split; [reflexivity|]. split; [reflexivity|]. split; [reflexivity|].
    split; [discriminate|]. intros _.
    split; [reflexivity|]. split; [reflexivity|]. split.
    + intros. apply jitter_bounds; assumption.
    + intros. apply jitter_bounds_exact; assumption.
Qed.

(** C8: set_stepsize_jitter(j) stores j when 0 < j and j < 1 both hold, and
    otherwise (j <= 0, j >= 1, or j NaN) returns the sampler it was given; it
    has no error result. *)
Theorem set_stepsize_jitter_range (j : double) (s : base_hmc Point Rng) :
  (d_gt j d_zero = true /\ d_lt j d_one = true ->
   set_stepsize_jitter j s = set_epsilon_jitter s j /\
   get_stepsize_jitter (set_stepsize_jitter j s) = j) /\
  (d_gt j d_zero = false \/ d_lt j d_one = false -> set_stepsize_jitter j s = s) /\
  (is_nan j = true -> set_stepsize_jitter j s = s) /\
  (is_double j -> is_finite j = true ->
   ((0 < B2Q j < 1)%Q -> get_stepsize_jitter (set_stepsize_jitter j s) = j) /\
   (~ (0 < B2Q j < 1)%Q -> set_stepsize_jitter j s = s)).
Proof.
  unfold set_stepsize_jitter, get_stepsize_jitter.
  split; [|split; [|split]].
  - intros [-> ->]. split; reflexivity.
  - intros [-> | ->]; [reflexivity|]. rewrite andb_false_r. reflexivity.
  - intro Hn. destruct j; try discriminate Hn. reflexivity.
  - intros Hv Hf.
    assert (H0 : d_gt j d_zero = true <-> (0 < B2Q j)%Q).
    { unfold d_gt. rewrite (d_lt_B2Q d_zero j) by (try assumption; reflexivity).
      reflexivity. }
    assert (H1 : d_lt j d_one = true <-> (B2Q j < 1)%Q).
    { unfold d_lt. rewrite (d_lt_B2Q j d_one) by (try assumption; reflexivity).
      assert (E1 : (B2Q d_one == 1)%Q) by reflexivity. rewrite E1. reflexivity. }
    split.
    + intros [Ha Hb]. apply H0 in Ha. apply H1 in Hb. rewrite Ha, Hb. reflexivity.
    + intro Hn. destruct (d_gt j d_zero) eqn:Ea; [|reflexivity].
      destruct (d_lt j d_one) eqn:Eb; [|reflexivity].
      exfalso. apply Hn. split; [apply H0|apply H1]; reflexivity.
Qed.

(** C9: set_nominal_stepsize(e) stores e as nominal step size when e > 0 and
    keeps the old one otherwise (e <= 0 or e NaN); in both cases the derived
    sampler's update_L_ is then applied once, to the resulting sampler. *)
Theorem set_nominal_stepsize_hook {Derived : Type}
    (update_L_ : base_hmc Point Rng -> Derived -> Derived)
    (e : double) (s : base_hmc Point Rng) (d : Derived) :
  let r := set_nominal_stepsize update_L_ e s d in
  (d_gt e d_zero = true -> fst r = set_nom_epsilon s e /\ nom_epsilon_ (fst r) = e) /\
  (d_gt e d_zero = false -> fst r = s) /\
  (is_nan e = true -> fst r = s) /\
  snd r = update_L_ (fst r) d /\
  snd (set_nominal_stepsize (fun _ (calls : nat) => S calls) e s 0%nat) = 1%nat.
Proof.
  unfold set_nominal_stepsize. cbn [fst snd].
  split; [|split; [|split; [|split]]]; try reflexivity.
  - intros ->. split; reflexivity.
  - intros ->. reflexivity.
  - intro Hn. destruct e; try discriminate Hn. reflexivity.
Qed.

End Setters.

(** ** Runs of the search on the test doubles *)

(* 0.1 is a step size the search starts from *)
Lemma in_range_0_1 : in_range Stub.d_0_1.
Proof. repeat split. Qed.

(* On a flat energy the search from 0.1 doubles 27 times and throws; the
   point of the sampler is then the one the last probe moved, not the one
   the sampler had on entry. *)
Lemma init_stepsize_point_counterexample :
  exists s' g,
    init_stepsize (Stub.make Stub.flat) 1100 (Stub.fresh Stub.d_0_1) tt
      = Some (Threw improper_msg, s', tt, g) /\
    z_ s' = Stub.Build_ps_point [S754_finite false 7205759403792794 (-30)] [d_one] 1 /\
    z_ s' <> z_ (Stub.fresh Stub.d_0_1).
Proof.
  eexists _, _. split; [vm_compute; reflexivity|]. split; [reflexivity|].
  cbn. discriminate.
Qed.

(* On the quadratic energy the search from 0.1 returns; with a point that
   counts the calls of init in a member of its own, position and momentum
   are the ones of entry and the count is not: it stands at 5, one for each
   probe. *)
Lemma init_stepsize_point_witness :
  copy_of_assigned (Stub.with_cache Stub.quadratic) /\
  exists s' l' g,
    init_stepsize (Stub.with_cache Stub.quadratic) 1100 (Stub.fresh_cached Stub.d_0_1) tt
      = Some (Returned, s', l', g) /\
    Stub.base (z_ s') = Stub.base (z_ (Stub.fresh_cached Stub.d_0_1)) /\
    Stub.cache (z_ s') = 5%nat.
Proof.
  refine ((fun Hlaw : copy_of_assigned (Stub.with_cache Stub.quadratic) =>
             conj Hlaw _) (fun z z_init => eq_refl)).
  eexists _, _, _.
  assert (Hrun : init_stepsize (Stub.with_cache Stub.quadratic) 1100
                   (Stub.fresh_cached Stub.d_0_1) tt
                 = Some (Returned,
                         Build_base_hmc (Stub.Build_cached_point Stub.origin 5) 5%nat
                           (S754_finite false 7205759403792794 (-53)) Stub.d_0_1 d_zero,
                         tt, _)) by (vm_compute; reflexivity).
  split; [exact Hrun|]. split; [|reflexivity].
  exact (proj1 (proj2 (proj2 (init_stepsize_point _ _ _ _ _ _ _ _ Hlaw Hrun)))).
Defined.

(* The search on the quadratic energy, from 0.1. *)
Lemma init_stepsize_terminates_witness :
  in_range (nom_epsilon_ (Stub.fresh Stub.d_0_1)) /\
  exists o s' l' g,
    init_stepsize (Stub.make Stub.quadratic) 1100 (Stub.fresh Stub.d_0_1) tt
      = Some (o, s', l', Some g) /\
    (List.length (g_loop g) <= 1100)%nat.
Proof.
  split; [exact in_range_0_1|].
  destruct (init_stepsize_terminates (Stub.make Stub.quadratic) (Stub.fresh Stub.d_0_1) tt
              in_range_0_1) as (o & s' & l' & g & Hrun & Hlen & _).
  exists o, s', l', g. split; [apply Hrun; apply le_n|exact Hlen].
Defined.

(* An energy that is +infinity everywhere is never NaN; the search
   from 0.1 takes direction -1 and accepts at its first loop probe with
   delta_H = inf - inf = NaN, for which log(0.8) <= delta_H is false. *)
Lemma init_stepsize_terminates_counterexample :
  (forall z, is_nan (Stub.always_inf z) = false) /\
  in_range (nom_epsilon_ (Stub.fresh Stub.d_0_1)) /\
  exists s' it,
    init_stepsize (Stub.make Stub.always_inf) 1100 (Stub.fresh Stub.d_0_1) tt
      = Some (Returned, s', tt,
              Some (Build_ghost (it_probe it) (-1) [it])) /\
    it_direction it = -1 /\
    pr_H0 (it_probe it) = infinity /\
    is_nan (pr_delta_H (it_probe it)) = true /\
    d_le log_0_8 (pr_delta_H (it_probe it)) = false.
Proof.
  split; [reflexivity|]. split; [exact in_range_0_1|].
  eexists _, (Build_iter_rec _ _). split; [vm_compute; reflexivity|].
  repeat split.
Qed.

(* From 0.1 on the flat energy: every probe has delta_H = 0, and the first
   error comes after 27 doublings. *)
Lemma scaling_and_fatal_errors_witness :
  in_range (nom_epsilon_ (Stub.fresh Stub.d_0_1)) /\
  scalings_to_exceed (nom_epsilon_ (Stub.fresh Stub.d_0_1)) = 27%nat /\
  exists s' l' g,
    init_stepsize (Stub.make Stub.flat) 1100 (Stub.fresh Stub.d_0_1) tt
      = Some (Threw improper_msg, s', l', Some g) /\
    probes_above g = true /\
    List.length (g_loop g) = 27%nat.
Proof.
  split; [exact in_range_0_1|]. split; [reflexivity|].
  destruct (proj2 (scaling_and_fatal_errors (Stub.make Stub.flat) (Stub.fresh Stub.d_0_1) tt
                     in_range_0_1)) as (o & s' & l' & g & Hrun & _ & Hup & _).
  specialize (Hrun 1100%nat (le_n _)).
  assert (Hab : probes_above g = true).
  { clear Hup. vm_compute in Hrun. injection Hrun as _ _ _ <-. vm_compute. reflexivity. }
  destruct (Hup Hab) as (_ & _ & -> & _ & Hlen & _).
  exists s', l', g. split; [exact Hrun|]. split; [exact Hab|exact Hlen].
Defined.

(* 1e7 itself is a step size the search starts from *)
Lemma in_range_1e7 : in_range d_1e7.
Proof. repeat split. Qed.

(* From 1e7 on the flat energy every probe has delta_H = 0 and the error
   comes after one doubling, while ceil(log2(1e7/1e7)) = 0. *)
Lemma scaling_and_fatal_errors_counterexample :
  in_range (nom_epsilon_ (Stub.fresh d_1e7)) /\
  log2_ceil_ratio (nom_epsilon_ (Stub.fresh d_1e7)) = 0 /\
  exists s' g,
    init_stepsize (Stub.make Stub.flat) 1100 (Stub.fresh d_1e7) tt
      = Some (Threw improper_msg, s', tt, Some g) /\
    probes_above g = true /\
    List.length (g_loop g) = 1%nat /\
    nom_epsilon_ s' = d_mul d_two d_1e7 /\
    ~ (Z.of_nat (List.length (g_loop g))
       <= log2_ceil_ratio (nom_epsilon_ (Stub.fresh d_1e7))).
Proof.
  split; [exact in_range_1e7|]. split; [reflexivity|].
  eexists _, _. split; [vm_compute; reflexivity|].
  split; [reflexivity|]. split; [reflexivity|]. split; [reflexivity|].
  intro Hle. vm_compute in Hle. apply Hle. reflexivity.
Qed.

(* The search on the quadratic energy, from 0.1. *)
Lemma direction_decided_once_witness :
  exists o s' l' g,
    init_stepsize (Stub.make Stub.quadratic) 1100 (Stub.fresh Stub.d_0_1) tt
      = Some (o, s', l', Some g) /\
    g_direction g = (if d_gt (pr_delta_H (g_first g)) log_0_8 then 1 else -1) /\
    Forall (fun it => it_direction it = g_direction g) (g_loop g).
Proof.
  eexists _, _, _, _.
  refine ((fun Hrun => conj Hrun
             (proj2 (proj2 (direction_decided_once _ _ _ _ _ _ _ _ Hrun)))) _).
  vm_compute. reflexivity.
Defined.

(* The search on an energy that is NaN everywhere, from 0.1. *)
Lemma nan_only_h_coerced_witness :
  exists o s' l' g,
    init_stepsize (Stub.make Stub.always_nan) 1100 (Stub.fresh Stub.d_0_1) tt
      = Some (o, s', l', Some g) /\
    is_nan (pr_h (g_first g)) = false /\
    (is_nan (pr_delta_H (g_first g)) = true -> g_direction g = -1).
Proof.
  eexists _, _, _, _.
  refine ((fun Hrun =>
             let H := nan_only_h_coerced _ _ _ _ _ _ _ _ Hrun in
             conj Hrun (conj (proj1 (proj2 (proj1 H)))
                             (proj1 (proj2 (proj2 (proj2 H)))))) _).
  vm_compute. reflexivity.
Defined.

(* With an energy that is NaN everywhere H0 is NaN at every probe, so is
   delta_H, and that NaN is what is compared with log(0.8), at the first
   probe and in the loop. *)
Lemma nan_only_h_coerced_counterexample :
  exists s' g,
    init_stepsize (Stub.make Stub.always_nan) 1100 (Stub.fresh Stub.d_0_1) tt
      = Some (Returned, s', tt, Some g) /\
    pr_H0 (g_first g) = S754_nan /\
    is_nan (pr_delta_H (g_first g)) = true /\
    g_direction g = (if d_gt (pr_delta_H (g_first g)) log_0_8 then 1 else -1) /\
    Exists (fun it => is_nan (pr_H0 (it_probe it)) = true /\
                      is_nan (pr_delta_H (it_probe it)) = true) (g_loop g).
Proof.
  eexists _, _. split; [vm_compute; reflexivity|].
  split; [reflexivity|]. split; [reflexivity|]. split; [reflexivity|].
  constructor. split; reflexivity.
Qed.

(* A sampler whose nominal step size is 0, with no fuel at all. *)
Lemma init_stepsize_skips_extreme_witness :
  (d_eqb (nom_epsilon_ (Stub.fresh d_zero)) d_zero = true \/
   d_gt (nom_epsilon_ (Stub.fresh d_zero)) d_1e7 = true) /\
  init_stepsize (Stub.make Stub.quadratic) 0 (Stub.fresh d_zero) tt
  = Some (Returned, Stub.fresh d_zero, tt, None).
Proof.
  refine ((fun Hg => conj Hg (init_stepsize_skips_extreme _ _ _ _ Hg)) _).
  left. reflexivity.
Defined.

(* Nominal step size 0.1, jitter 0.3 and the draw 0. *)
Lemma sample_stepsize_jitter_witness :
  let s := Build_base_hmc Stub.origin 0%nat Stub.d_0_1 Stub.d_0_1 Stub.d_0_3 in
  let s' := sample_stepsize (Stub.with_draw d_zero) s in
  (d_le (d_mul Stub.d_0_1 (d_sub d_one Stub.d_0_3)) (epsilon_ s') = true /\
   d_le (epsilon_ s') (d_mul Stub.d_0_1 (d_add d_one Stub.d_0_3)) = true) /\
  is_finite (epsilon_ s') = true /\
  (B2Q Stub.d_0_1 * (1 - B2Q Stub.d_0_3) * (1 - 2 ^ (-52)) <= B2Q (epsilon_ s'))%Q /\
  (B2Q (epsilon_ s') <= B2Q Stub.d_0_1 * (1 + B2Q Stub.d_0_3) * (1 + 2 ^ (-51)))%Q.
Proof.
  intros s s'.
  destruct (sample_stepsize_jitter (Stub.with_draw d_zero) s)
    as (_ & _ & _ & _ & Hj).
  destruct (Hj eq_refl) as (_ & _ & Hb & Hx).
  split.
  - apply Hb; reflexivity.
  - apply Hx; try reflexivity; apply Qle_bool_iff; vm_compute; reflexivity.
Defined.

(* Nominal step size 0.1, jitter 0.3 and the draw 0: the step size computed,
   5044031582654955 * 2^-56, is below the exact product 0.1 * (1 - 0.3) of
   the two stored numbers. *)
Lemma sample_stepsize_jitter_counterexample :
  let s := Build_base_hmc Stub.origin 0%nat Stub.d_0_1 Stub.d_0_1 Stub.d_0_3 in
  let s' := sample_stepsize (Stub.with_draw d_zero) s in
  d_eqb (epsilon_jitter_ s) d_zero = false /\
  fst (rand_uniform_ (Stub.with_draw d_zero) (rand_int_ s)) = d_zero /\
  epsilon_ s' = S754_finite false 5044031582654955 (-56) /\
  ~ (B2Q (nom_epsilon_ s) * (1 - B2Q (epsilon_jitter_ s)) <= B2Q (epsilon_ s'))%Q.
Proof.
  cbv zeta. split; [reflexivity|]. split; [reflexivity|].
  split; [vm_compute; reflexivity|].
  apply Qlt_not_le. vm_compute. reflexivity.
Qed.

(** ** The writer *)

Import Writer.
Local Open Scope writer_scope.

Lemma extend_nil {T} (w : writer T) : extend w [] [] = w.
Proof. destruct w. unfold extend. cbn. rewrite !app_nil_r. reflexivity. Qed.

Lemma extend_extend {T} (w : writer T) rs ns rs' ns' :
  extend (extend w rs ns) rs' ns' = extend w (rs ++ rs') (ns ++ ns').
Proof. unfold extend. cbn. rewrite !app_assoc. reflexivity. Qed.

Lemma extend_push_r {T} (w : writer T) (x : T) rs :
  extend (Build_writer (push_back (data_r_ w) x) (data_i_ w) (CONSTRAINT_TOLERANCE w)) rs []
  = extend w (x :: rs) [].
Proof. unfold extend, push_back. cbn. rewrite <- app_assoc. reflexivity. Qed.

Lemma for_each_push_r {T} (xs : list T) (w : writer T) :
  for_each xs push_r w = (Ok tt, extend w xs []).
Proof.
  revert w. induction xs as [|x rest IH]; intro w; cbn [for_each].
  - unfold ret. rewrite extend_nil. reflexivity.
  - unfold bind, push_r. rewrite IH, extend_push_r. reflexivity.
Qed.
Create HintDb appends.

Lemma appends_ret {T A} (a : A) : appends (@ret T A a).
Proof. exists (Ok a), [], []. intro w. unfold ret. now rewrite extend_nil. Qed.

Lemma appends_throw {T A} what : appends (@throw T A what).
Proof. exists (Throws what), [], []. intro w. unfold throw. now rewrite extend_nil. Qed.

Lemma appends_lift {T A} (r : result A) : appends (@lift T A r).
Proof. exists r, [], []. intro w. unfold lift. now rewrite extend_nil. Qed.

Lemma appends_push_r {T} (y : T) : appends (push_r y).
Proof.
  exists (Ok tt), [y], []. intro w. unfold push_r, push_back, extend.
  now rewrite app_nil_r.
Qed.

Lemma appends_push_i {T} (n : Z) : appends (@push_i T n).
Proof.
  exists (Ok tt), [], [n]. intro w. unfold push_i, push_back, extend.
  now rewrite app_nil_r.
Qed.

Lemma appends_bind {T A B} (m : W T A) (f : A -> W T B) :
  appends m -> (forall a, appends (f a)) -> appends (bind m f).
Proof.
  intros (r & rs & ns & Hm) Hf. destruct r as [a|what].
  - destruct (Hf a) as (r' & rs' & ns' & Hfa).
    exists r', (rs ++ rs'), (ns ++ ns'). intro w. unfold bind.
    rewrite Hm, Hfa, extend_extend. reflexivity.
  - exists (Throws what), rs, ns. intro w. unfold bind. rewrite Hm. reflexivity.
Qed.

Lemma appends_for_each {T A} (xs : list A) (body : A -> W T unit) :
  (forall x, appends (body x)) -> appends (for_each xs body).
Proof.
  intro Hb. induction xs as [|x rest IH]; cbn [for_each].
  - apply appends_ret.
  - apply appends_bind; [apply Hb|intros _; exact IH].
Qed.

Lemma appends_if {T A} (b : bool) (m1 m2 : W T A) :
  appends m1 -> appends m2 -> appends (if b then m1 else m2).
Proof. destruct b; auto. Qed.

#[export] Hint Resolve appends_ret appends_throw appends_lift appends_push_r
  appends_push_i appends_bind appends_for_each appends_if : appends.

Section WriterFacts.
Context {T : Type}.
Variable M : stan_math T.

Lemma exec_appends (c : call T) : appends (exec M c).
Proof.
  destruct c; cbn [exec];
    unfold integer, scalar_unconstrain, scalar_pos_unconstrain,
      corr_unconstrain, prob_unconstrain,
      ordered_unconstrain, positive_ordered_unconstrain, vector_unconstrain,
      row_vector_unconstrain, matrix_unconstrain, sparse_matrix_unconstrain,
      vector_lb_unconstrain, row_vector_lb_unconstrain, matrix_lb_unconstrain,
      sparse_matrix_lb_unconstrain, vector_ub_unconstrain, row_vector_ub_unconstrain,
      matrix_ub_unconstrain, sparse_matrix_ub_unconstrain, vector_lub_unconstrain,
      row_vector_lub_unconstrain, matrix_lub_unconstrain, sparse_matrix_lub_unconstrain,
      vector_offset_multiplier_unconstrain, row_vector_offset_multiplier_unconstrain,
      matrix_offset_multiplier_unconstrain, sparse_matrix_offset_multiplier_unconstrain,
      unit_vector_unconstrain, simplex_unconstrain, cholesky_factor_cov_unconstrain,
      cholesky_factor_corr_unconstrain, cov_matrix_unconstrain, corr_matrix_unconstrain,
      scalar_lb_unconstrain, scalar_ub_unconstrain, scalar_lub_unconstrain,
      scalar_offset_multiplier_unconstrain;
    try match goal with y : list T |- _ => destruct y end; cbv zeta;
    auto 12 with appends.
Qed.

(* what a plain call does to the writer it is made on *)
Lemma exec_plain (c : call T) rs ns (w : writer T) :
  plain_values c = Some (rs, ns) ->
  exec M c w
  = (Ok tt, Build_writer (data_r_ w ++ rs) (data_i_ w ++ ns) (CONSTRAINT_TOLERANCE w)).
Proof.
  intro Hp.
  destruct c; try discriminate Hp; injection Hp as <- <-; cbn [exec];
    unfold integer, scalar_unconstrain, vector_unconstrain, row_vector_unconstrain,
      matrix_unconstrain, sparse_matrix_unconstrain, stored_values;
    rewrite ?for_each_push_r; try reflexivity;
    unfold push_r, push_i, push_back; rewrite ?app_nil_r; reflexivity.
Qed.

Lemma for_each_plain (cs : list (call T)) (w : writer T) :
  Forall (fun c => plain_values c <> None) cs ->
  for_each cs (exec M) w
  = (Ok tt, Build_writer (data_r_ w ++ flat_map plain_reals cs)
              (data_i_ w ++ flat_map plain_integers cs) (CONSTRAINT_TOLERANCE w)).
Proof.
  intro Hall. revert w. induction Hall as [|c cs Hc _ IH]; intro w; cbn [for_each flat_map].
  - unfold ret. rewrite !app_nil_r. destruct w; reflexivity.
  - unfold bind. unfold plain_reals at 1, plain_integers at 1.
    destruct (plain_values c) as [[rs ns]|] eqn:Hp; [|contradiction].
    rewrite (exec_plain c rs ns w Hp), IH. cbn [data_r_ data_i_ CONSTRAINT_TOLERANCE].
    rewrite <- !app_assoc. reflexivity.
Qed.


End WriterFacts.


(** ** What each write method appends *)

(* a loop whose body transforms one element and writes the result *)
Lemma for_each_free_ok {T} (f : T -> result T) (body : T -> W T unit) ys xs w :
  (forall y, body y = (x <- lift (f y) ;; push_r x)) ->
  Forall2 (fun y x => f y = Ok x) ys xs ->
  for_each ys body w = (Ok tt, extend w xs []).
Proof.
  intros Hb Hok. revert w.
  induction Hok as [|y x ys xs Hy _ IH]; intro w; cbn [for_each].
  - unfold ret. rewrite extend_nil. reflexivity.
  - unfold bind at 1. rewrite Hb. unfold bind at 1, lift. rewrite Hy.
    unfold push_r. rewrite IH, extend_push_r. reflexivity.
Qed.

Lemma for_each_free_throw {T} (f : T -> result T) (body : T -> W T unit)
    pre bad post xs what w :
  (forall y, body y = (x <- lift (f y) ;; push_r x)) ->
  Forall2 (fun y x => f y = Ok x) pre xs -> f bad = Throws what ->
  for_each (pre ++ bad :: post) body w = (Throws what, extend w xs []).
Proof.
  intros Hb Hok Hbad. revert w.
  induction Hok as [|y x ys xs Hy _ IH]; intro w; cbn [for_each app].
  - unfold bind at 1. rewrite Hb. unfold bind, lift. rewrite Hbad, extend_nil.
    reflexivity.
  - unfold bind at 1. rewrite Hb. unfold bind at 1, lift. rewrite Hy.
    unfold push_r. rewrite IH, extend_push_r. reflexivity.
Qed.

Lemma length_column_major {T} (y : matrix_t T) :
  List.length (column_major y) = (cols y * rows y)%nat.
Proof.
  unfold column_major. generalize (seq 0 (cols y)) (length_seq (cols y) 0).
  intros js. revert js. generalize (cols y).
  intros c js. revert c. induction js as [|j js IH]; intros c Hc; cbn in *.
  - subst c. reflexivity.
  - destruct c as [|c]; [discriminate|]. injection Hc as Hc.
    rewrite length_app, length_map, length_seq, (IH c Hc). cbn. reflexivity.
Qed.

Lemma nth_columns {T} (y : matrix_t T) (d : T) (c j0 j i : nat) :
  (j < c)%nat -> (i < rows y)%nat ->
  nth (j * rows y + i)
      (flat_map (fun j => map (fun i => coeff y i j) (seq 0 (rows y))) (seq j0 c)) d
  = coeff y i (j0 + j).
Proof.
  revert j0 j. induction c as [|c IH]; intros j0 j Hj Hi; [lia|].
  cbn [seq flat_map]. destruct j as [|j].
  - cbn [Nat.mul Nat.add]. rewrite app_nth1 by (rewrite length_map, length_seq; exact Hi).
    rewrite (nth_indep _ d (coeff y 0 j0)) by (rewrite length_map, length_seq; exact Hi).
    rewrite (map_nth (fun i => coeff y i j0)), seq_nth by exact Hi.
    rewrite Nat.add_0_r. reflexivity.
  - rewrite app_nth2 by (rewrite length_map, length_seq; cbn; lia).
    rewrite length_map, length_seq.
    replace (S j * rows y + i - rows y)%nat with (j * rows y + i)%nat by (cbn; lia).
    rewrite IH by lia. f_equal. lia.
Qed.

Lemma nth_column_major {T} (y : matrix_t T) (d : T) (i j : nat) :
  (i < rows y)%nat -> (j < cols y)%nat ->
  nth (j * rows y + i) (column_major y) d = coeff y i j.
Proof. intros Hi Hj. unfold column_major. rewrite nth_columns by assumption. reflexivity. Qed.

Lemma extend_reals {T} (w : writer T) xs :
  extend w xs [] = Build_writer (data_r_ w ++ xs) (data_i_ w) (CONSTRAINT_TOLERANCE w).
Proof. unfold extend. rewrite app_nil_r. reflexivity. Qed.

Section WriterValues.
Context {T : Type}.
Variable M : stan_math T.

(** X1: matrix_unconstrain never throws and appends rows * cols values, column
    by column: the value at offset j * rows + i is y(i, j); the integer
    sequence is untouched. *)
Theorem matrix_unconstrain_column_major (y : matrix_t T) (w : writer T) :
  exists xs,
    matrix_unconstrain y w
      = (Ok tt, Build_writer (data_r_ w ++ xs) (data_i_ w) (CONSTRAINT_TOLERANCE w)) /\
    List.length xs = (rows y * cols y)%nat /\
    forall i j d, (i < rows y)%nat -> (j < cols y)%nat ->
      nth (List.length (data_r_ w) + (j * rows y + i)) (data_r_ w ++ xs) d = coeff y i j.
Proof.
  exists (column_major y). split; [|split].
  - unfold matrix_unconstrain. rewrite for_each_push_r, extend_reals. reflexivity.
  - rewrite length_column_major. apply Nat.mul_comm.
  - intros i j d Hi Hj. rewrite app_nth2_plus. apply nth_column_major; assumption.
Qed.

(** X2: vector_unconstrain, row_vector_unconstrain and
    sparse_matrix_unconstrain never throw; they append the elements (for a
    sparse matrix the stored values, outer index by outer index) in order and
    leave the integer sequence alone; writing a vector in two pieces is
    writing the concatenation. *)
Theorem vector_unconstrain_writes_elements (w : writer T) :
  let wrote xs := (Ok tt, Build_writer (data_r_ w ++ xs) (data_i_ w) (CONSTRAINT_TOLERANCE w)) in
  (forall y : list T, vector_unconstrain y w = wrote y) /\
  (forall y : list T, row_vector_unconstrain y w = wrote y) /\
  (forall y : sparse_matrix_t T, sparse_matrix_unconstrain y w = wrote (List.concat y)) /\
  (forall a b : list T,
     (vector_unconstrain a ;; vector_unconstrain b) w = vector_unconstrain (a ++ b) w).
Proof.
  cbv zeta. unfold vector_unconstrain, row_vector_unconstrain, sparse_matrix_unconstrain,
    stored_values.
  repeat split; intros; rewrite ?for_each_push_r, ?extend_reals; try reflexivity.
  unfold bind. rewrite !for_each_push_r, extend_extend. cbn [app].
  rewrite extend_reals. reflexivity.
Qed.

Lemma length_log_diffs (prev : T) (ys : list T) :
  List.length (log_diffs M prev ys) = List.length ys.
Proof. revert prev. induction ys as [|y ys IH]; intro prev; cbn; [|rewrite IH]; reflexivity. Qed.

Lemma nth_log_diffs (prev : T) (ys : list T) (k : nat) (d : T) :
  (k < List.length ys)%nat ->
  nth k (log_diffs M prev ys) d
  = T_log M (T_minus M (nth k ys d) (nth k (prev :: ys) d)).
Proof.
  revert prev k. induction ys as [|y ys IH]; intros prev k Hk; cbn in Hk; [lia|].
  destruct k as [|k]; [reflexivity|].
  cbn [log_diffs nth]. rewrite IH by lia. reflexivity.
Qed.

(* the values both ordered methods write for y0 :: rest, given the first *)
Lemma ordered_values (x0 y0 : T) (rest : list T) :
  let y := y0 :: rest in
  let xs := x0 :: log_diffs M y0 rest in
  List.length xs = List.length y /\
  forall k d, (1 <= k < List.length y)%nat ->
    nth k xs d = T_log M (T_minus M (nth k y d) (nth (k - 1) y d)).
Proof.
  cbv zeta. split.
  - cbn. rewrite length_log_diffs. reflexivity.
  - intros k d Hk. destruct k as [|k]; [lia|]. cbn [List.length] in Hk.
    change (nth (S k) (x0 :: log_diffs M y0 rest) d) with (nth k (log_diffs M y0 rest) d).
    rewrite nth_log_diffs by lia. replace (S k - 1)%nat with k by lia. reflexivity.
Qed.

(** X3: ordered_unconstrain returns at once on an empty vector, without
    checking it; on a non-empty vector that check_ordered rejects it throws
    and writes nothing; otherwise it appends as many values as the vector has:
    first y[0] itself, then log(y[k] - y[k-1]) for each k >= 1. *)
Theorem ordered_unconstrain_values (y : list T) (w : writer T) :
  (y = [] -> ordered_unconstrain M y w = (Ok tt, w)) /\
  (y <> [] -> forall what, check_ordered M y = Throws what ->
     ordered_unconstrain M y w = (Throws what, w)) /\
  (y <> [] -> check_ordered M y = Ok tt ->
     exists xs,
       ordered_unconstrain M y w
         = (Ok tt, Build_writer (data_r_ w ++ xs) (data_i_ w) (CONSTRAINT_TOLERANCE w)) /\
       List.length xs = List.length y /\
       (forall d, nth 0 xs d = nth 0 y d) /\
       (forall k d, (1 <= k < List.length y)%nat ->
          nth k xs d = T_log M (T_minus M (nth k y d) (nth (k - 1) y d)))).
Proof.
  split; [|split].
  - intros ->. reflexivity.
  - intros Hne what Hc. destruct y as [|y0 rest]; [contradiction|].
    unfold ordered_unconstrain, bind, lift. rewrite Hc. reflexivity.
  - intros Hne Hc. destruct y as [|y0 rest]; [contradiction|].
    exists (y0 :: log_diffs M y0 rest).
    destruct (ordered_values y0 y0 rest) as [Hl Hn].
    split; [|split; [exact Hl|split; [reflexivity|exact Hn]]].
    unfold ordered_unconstrain, bind, lift. rewrite Hc. unfold push_r at 1.
    rewrite for_each_push_r, extend_push_r, extend_reals. reflexivity.
Qed.

(** X4: positive_ordered_unconstrain returns at once on an empty vector,
    without checking it; on a non-empty vector that check_positive_ordered
    rejects it throws and writes nothing; otherwise it appends as many values
    as the vector has: first log(y[0]), then log(y[k] - y[k-1]) for each
    k >= 1. *)
Theorem positive_ordered_unconstrain_values (y : list T) (w : writer T) :
  (y = [] -> positive_ordered_unconstrain M y w = (Ok tt, w)) /\
  (y <> [] -> forall what, check_positive_ordered M y = Throws what ->
     positive_ordered_unconstrain M y w = (Throws what, w)) /\
  (y <> [] -> check_positive_ordered M y = Ok tt ->
     exists xs,
       positive_ordered_unconstrain M y w
         = (Ok tt, Build_writer (data_r_ w ++ xs) (data_i_ w) (CONSTRAINT_TOLERANCE w)) /\
       List.length xs = List.length y /\
       (forall d, nth 0 xs d = T_log M (nth 0 y d)) /\
       (forall k d, (1 <= k < List.length y)%nat ->
          nth k xs d = T_log M (T_minus M (nth k y d) (nth (k - 1) y d)))).
Proof.
  split; [|split].
  - intros ->. reflexivity.
  - intros Hne what Hc. destruct y as [|y0 rest]; [contradiction|].
    unfold positive_ordered_unconstrain, bind, lift. rewrite Hc. reflexivity.
  - intros Hne Hc. destruct y as [|y0 rest]; [contradiction|].
    exists (T_log M y0 :: log_diffs M y0 rest).
    destruct (ordered_values (T_log M y0) y0 rest) as [Hl Hn].
    split; [|split; [exact Hl|split; [reflexivity|exact Hn]]].
    unfold positive_ordered_unconstrain, bind, lift. rewrite Hc. unfold push_r at 1.
    rewrite for_each_push_r, extend_push_r, extend_reals. reflexivity.
Qed.

(** X5: vector_lb_unconstrain, row_vector_lb_unconstrain,
    matrix_lb_unconstrain and sparse_matrix_lb_unconstrain apply
    lb_free to the elements in order (a matrix column by column, a sparse
    matrix by stored value) and append each result as soon as it is computed.
    When every element is accepted all results are appended; when an element
    is rejected the call throws its error, the results of the elements before
    it stay written, and the elements after it are not looked at. *)
Theorem lb_unconstrain_elementwise (lb : double) (pre post xs : list T) (w : writer T) :
  Forall2 (fun y x => lb_free M y lb = Ok x) pre xs ->
  let done := Build_writer (data_r_ w ++ xs) (data_i_ w) (CONSTRAINT_TOLERANCE w) in
  vector_lb_unconstrain M lb pre w = (Ok tt, done) /\
  row_vector_lb_unconstrain M lb pre w = (Ok tt, done) /\
  (forall y : matrix_t T, column_major y = pre ->
     matrix_lb_unconstrain M lb y w = (Ok tt, done)) /\
  (forall y : sparse_matrix_t T, List.concat y = pre ->
     sparse_matrix_lb_unconstrain M lb y w = (Ok tt, done)) /\
  (forall bad what, lb_free M bad lb = Throws what ->
     vector_lb_unconstrain M lb (pre ++ bad :: post) w = (Throws what, done) /\
     row_vector_lb_unconstrain M lb (pre ++ bad :: post) w = (Throws what, done) /\
     (forall y : matrix_t T, column_major y = pre ++ bad :: post ->
        matrix_lb_unconstrain M lb y w = (Throws what, done)) /\
     (forall y : sparse_matrix_t T, List.concat y = pre ++ bad :: post ->
        sparse_matrix_lb_unconstrain M lb y w = (Throws what, done))).
Proof.
  intros Hok done.
  assert (Hb : forall y, scalar_lb_unconstrain M lb y
                         = (x <- lift (lb_free M y lb) ;; push_r x))
    by reflexivity.
  unfold vector_lb_unconstrain, row_vector_lb_unconstrain,
    matrix_lb_unconstrain, sparse_matrix_lb_unconstrain, stored_values, done.
  rewrite <- extend_reals.
  repeat split; intros;
    repeat match goal with E : _ = pre |- _ => rewrite E | E : _ = pre ++ _ |- _ => rewrite E end.
  1-4: exact (for_each_free_ok _ _ _ _ w Hb Hok).
  all: eapply for_each_free_throw; [exact Hb|exact Hok|eassumption].
Qed.

(** X6: vector_ub_unconstrain, row_vector_ub_unconstrain,
    matrix_ub_unconstrain and sparse_matrix_ub_unconstrain apply
    ub_free to the elements in order (a matrix column by column, a sparse
    matrix by stored value) and append each result as soon as it is computed.
    When every element is accepted all results are appended; when an element
    is rejected the call throws its error, the results of the elements before
    it stay written, and the elements after it are not looked at. *)
Theorem ub_unconstrain_elementwise (ub : double) (pre post xs : list T) (w : writer T) :
  Forall2 (fun y x => ub_free M y ub = Ok x) pre xs ->
  let done := Build_writer (data_r_ w ++ xs) (data_i_ w) (CONSTRAINT_TOLERANCE w) in
  vector_ub_unconstrain M ub pre w = (Ok tt, done) /\
  row_vector_ub_unconstrain M ub pre w = (Ok tt, done) /\
  (forall y : matrix_t T, column_major y = pre ->
     matrix_ub_unconstrain M ub y w = (Ok tt, done)) /\
  (forall y : sparse_matrix_t T, List.concat y = pre ->
     sparse_matrix_ub_unconstrain M ub y w = (Ok tt, done)) /\
  (forall bad what, ub_free M bad ub = Throws what ->
     vector_ub_unconstrain M ub (pre ++ bad :: post) w = (Throws what, done) /\
     row_vector_ub_unconstrain M ub (pre ++ bad :: post) w = (Throws what, done) /\
     (forall y : matrix_t T, column_major y = pre ++ bad :: post ->
        matrix_ub_unconstrain M ub y w = (Throws what, done)) /\
     (forall y : sparse_matrix_t T, List.concat y = pre ++ bad :: post ->
        sparse_matrix_ub_unconstrain M ub y w = (Throws what, done))).
Proof.
  intros Hok done.
  assert (Hb : forall y, scalar_ub_unconstrain M ub y
                         = (x <- lift (ub_free M y ub) ;; push_r x))
    by reflexivity.
  unfold vector_ub_unconstrain, row_vector_ub_unconstrain,
    matrix_ub_unconstrain, sparse_matrix_ub_unconstrain, stored_values, done.
  rewrite <- extend_reals.
  repeat split; intros;
    repeat match goal with E : _ = pre |- _ => rewrite E | E : _ = pre ++ _ |- _ => rewrite E end.
  1-4: exact (for_each_free_ok _ _ _ _ w Hb Hok).
  all: eapply for_each_free_throw; [exact Hb|exact Hok|eassumption].
Qed.

(** X7: vector_lub_unconstrain, row_vector_lub_unconstrain,
    matrix_lub_unconstrain and sparse_matrix_lub_unconstrain apply
    lub_free to the elements in order (a matrix column by column, a sparse
    matrix by stored value) and append each result as soon as it is computed.
    When every element is accepted all results are appended; when an element
    is rejected the call throws its error, the results of the elements before
    it stay written, and the elements after it are not looked at. *)
Theorem lub_unconstrain_elementwise (lb ub : double) (pre post xs : list T) (w : writer T) :
  Forall2 (fun y x => lub_free M y lb ub = Ok x) pre xs ->
  let done := Build_writer (data_r_ w ++ xs) (data_i_ w) (CONSTRAINT_TOLERANCE w) in
  vector_lub_unconstrain M lb ub pre w = (Ok tt, done) /\
  row_vector_lub_unconstrain M lb ub pre w = (Ok tt, done) /\
  (forall y : matrix_t T, column_major y = pre ->
     matrix_lub_unconstrain M lb ub y w = (Ok tt, done)) /\
  (forall y : sparse_matrix_t T, List.concat y = pre ->
     sparse_matrix_lub_unconstrain M lb ub y w = (Ok tt, done)) /\
  (forall bad what, lub_free M bad lb ub = Throws what ->
     vector_lub_unconstrain M lb ub (pre ++ bad :: post) w = (Throws what, done) /\
     row_vector_lub_unconstrain M lb ub (pre ++ bad :: post) w = (Throws what, done) /\
     (forall y : matrix_t T, column_major y = pre ++ bad :: post ->
        matrix_lub_unconstrain M lb ub y w = (Throws what, done)) /\
     (forall y : sparse_matrix_t T, List.concat y = pre ++ bad :: post ->
        sparse_matrix_lub_unconstrain M lb ub y w = (Throws what, done))).
Proof.
  intros Hok done.
  assert (Hb : forall y, scalar_lub_unconstrain M lb ub y
                         = (x <- lift (lub_free M y lb ub) ;; push_r x))
    by reflexivity.
  unfold vector_lub_unconstrain, row_vector_lub_unconstrain,
    matrix_lub_unconstrain, sparse_matrix_lub_unconstrain, stored_values, done.
  rewrite <- extend_reals.
  repeat split; intros;
    repeat match goal with E : _ = pre |- _ => rewrite E | E : _ = pre ++ _ |- _ => rewrite E end.
  1-4: exact (for_each_free_ok _ _ _ _ w Hb Hok).
  all: eapply for_each_free_throw; [exact Hb|exact Hok|eassumption].
Qed.

(** X8: vector_offset_multiplier_unconstrain, row_vector_offset_multiplier_unconstrain,
    matrix_offset_multiplier_unconstrain and sparse_matrix_offset_multiplier_unconstrain apply
    offset_multiplier_free to the elements in order (a matrix column by column, a sparse
    matrix by stored value) and append each result as soon as it is computed.
    When every element is accepted all results are appended; when an element
    is rejected the call throws its error, the results of the elements before
    it stay written, and the elements after it are not looked at. *)
Theorem offset_multiplier_unconstrain_elementwise (offset multiplier : double) (pre post xs : list T) (w : writer T) :
  Forall2 (fun y x => offset_multiplier_free M y offset multiplier = Ok x) pre xs ->
  let done := Build_writer (data_r_ w ++ xs) (data_i_ w) (CONSTRAINT_TOLERANCE w) in
  vector_offset_multiplier_unconstrain M offset multiplier pre w = (Ok tt, done) /\
  row_vector_offset_multiplier_unconstrain M offset multiplier pre w = (Ok tt, done) /\
  (forall y : matrix_t T, column_major y = pre ->
     matrix_offset_multiplier_unconstrain M offset multiplier y w = (Ok tt, done)) /\
  (forall y : sparse_matrix_t T, List.concat y = pre ->
     sparse_matrix_offset_multiplier_unconstrain M offset multiplier y w = (Ok tt, done)) /\
  (forall bad what, offset_multiplier_free M bad offset multiplier = Throws what ->
     vector_offset_multiplier_unconstrain M offset multiplier (pre ++ bad :: post) w = (Throws what, done) /\
     row_vector_offset_multiplier_unconstrain M offset multiplier (pre ++ bad :: post) w = (Throws what, done) /\
     (forall y : matrix_t T, column_major y = pre ++ bad :: post ->
        matrix_offset_multiplier_unconstrain M offset multiplier y w = (Throws what, done)) /\
     (forall y : sparse_matrix_t T, List.concat y = pre ++ bad :: post ->
        sparse_matrix_offset_multiplier_unconstrain M offset multiplier y w = (Throws what, done))).
Proof.
  intros Hok done.
  assert (Hb : forall y, scalar_offset_multiplier_unconstrain M offset multiplier y
                         = (x <- lift (offset_multiplier_free M y offset multiplier) ;; push_r x))
    by reflexivity.
  unfold vector_offset_multiplier_unconstrain, row_vector_offset_multiplier_unconstrain,
    matrix_offset_multiplier_unconstrain, sparse_matrix_offset_multiplier_unconstrain, stored_values, done.
  rewrite <- extend_reals.
  repeat split; intros;
    repeat match goal with E : _ = pre |- _ => rewrite E | E : _ = pre ++ _ |- _ => rewrite E end.
  1-4: exact (for_each_free_ok _ _ _ _ w Hb Hok).
  all: eapply for_each_free_throw; [exact Hb|exact Hok|eassumption].
Qed.

(* closed forms of the methods that transform their argument as a whole *)
Lemma lift_then_push (r : result T) (w : writer T) :
  (x <- lift r ;; push_r x) w
  = match r with
    | Ok x => (Ok tt, Build_writer (data_r_ w ++ [x]) (data_i_ w) (CONSTRAINT_TOLERANCE w))
    | Throws what => (Throws what, w)
    end.
Proof. unfold bind, lift, push_r, push_back. destruct r; reflexivity. Qed.

Lemma lift_then_write (r : result (list T)) (w : writer T) :
  (xs <- lift r ;; for_each xs push_r) w
  = match r with
    | Ok xs => (Ok tt, Build_writer (data_r_ w ++ xs) (data_i_ w) (CONSTRAINT_TOLERANCE w))
    | Throws what => (Throws what, w)
    end.
Proof.
  unfold bind, lift. destruct r; [|reflexivity].
  rewrite for_each_push_r, extend_reals. reflexivity.
Qed.

Lemma lift_then_write_gen (r : result (list T)) (g : list T -> list T) (w : writer T) :
  (xs <- lift r ;; for_each (g xs) push_r) w
  = match r with
    | Ok xs => (Ok tt, Build_writer (data_r_ w ++ g xs) (data_i_ w) (CONSTRAINT_TOLERANCE w))
    | Throws what => (Throws what, w)
    end.
Proof.
  unfold bind, lift. destruct r; [|reflexivity].
  rewrite for_each_push_r, extend_reals. reflexivity.
Qed.

Lemma check_then (r : result unit) (m : W T unit) (w : writer T) :
  (lift r ;; m) w = match r with Ok _ => m w | Throws what => (Throws what, w) end.
Proof. unfold bind, lift. destruct r; reflexivity. Qed.

(** X9: unit_vector_unconstrain and simplex_unconstrain check their argument
    before they transform it, so the error of the check is the one thrown
    when both would fail; these two and the two Cholesky factor methods write
    nothing when the check or the transform throws, and otherwise append the
    whole vector the transform returned, in index order. *)
Theorem free_vector_methods (w : writer T) :
  let wrote (r : result (list T)) :=
    match r with
    | Ok xs => (Ok tt, Build_writer (data_r_ w ++ xs) (data_i_ w) (CONSTRAINT_TOLERANCE w))
    | Throws what => (Throws what, w)
    end in
  (forall y, unit_vector_unconstrain M y w
             = match check_unit_vector M y with
               | Ok _ => wrote (unit_vector_free M y)
               | Throws what => (Throws what, w)
               end) /\
  (forall y, simplex_unconstrain M y w
             = match check_simplex M y with
               | Ok _ => wrote (simplex_free M y)
               | Throws what => (Throws what, w)
               end) /\
  (forall y, cholesky_factor_cov_unconstrain M y w = wrote (cholesky_factor_free M y)) /\
  (forall y, cholesky_factor_corr_unconstrain M y w = wrote (cholesky_corr_free M y)).
Proof.
  cbv zeta.
  unfold unit_vector_unconstrain, simplex_unconstrain, cholesky_factor_cov_unconstrain,
    cholesky_factor_corr_unconstrain.
  repeat split; intro y; rewrite ?check_then, ?lift_then_write; reflexivity.
Qed.

Lemma first_coeffs_length (n : nat) (v : list T) :
  List.length (first_coeffs M n v) = n.
Proof. unfold first_coeffs. rewrite length_map, length_seq. reflexivity. Qed.

Lemma first_coeffs_nth (n : nat) (v : list T) (i : nat) (d : T) :
  (i < n)%nat -> (i < List.length v)%nat -> nth i (first_coeffs M n v) d = nth i v d.
Proof.
  intros Hi Hv. unfold first_coeffs.
  rewrite (nth_indep _ d (nth 0 v (T_default M)))
    by (rewrite length_map, length_seq; exact Hi).
  rewrite (map_nth (fun i => nth i v (T_default M))), seq_nth by exact Hi.
  apply nth_indep. exact Hv.
Qed.

Lemma first_coeffs_all (v : list T) : first_coeffs M (List.length v) v = v.
Proof.
  apply (nth_ext _ _ (T_default M) (T_default M)).
  - apply first_coeffs_length.
  - intros i Hi. rewrite first_coeffs_length in Hi. apply first_coeffs_nth; exact Hi.
Qed.

(* 1 + 2 + ... + k *)
Lemma triangle_sum (k : nat) : list_sum (map S (seq 0 k)) = (k * (k + 1) / 2)%nat.
Proof.
  assert (H : (2 * list_sum (map S (seq 0 k)) = k * (k + 1))%nat).
  { induction k as [|k IH]; [reflexivity|].
    rewrite seq_S, map_app, list_sum_app.
    change (list_sum (map S [(0 + k)%nat])) with (S k + 0)%nat. nia. }
  rewrite <- H, Nat.mul_comm, Nat.div_mul by discriminate. reflexivity.
Qed.

(** X10: cov_matrix_unconstrain throws its own error, without calling
    cov_matrix_free and without writing, when the matrix has no rows or is
    not square; on a k x k matrix it throws what cov_matrix_free throws,
    writing nothing, and otherwise appends k (k + 1) / 2 values, which are
    the leading coefficients of the vector cov_matrix_free returned, and the
    whole vector when it has that length. *)
Theorem cov_matrix_unconstrain_count (y : matrix_t T) (w : writer T) :
  (rows y = 0%nat \/ cols y <> rows y ->
   cov_matrix_unconstrain M y w
   = (Throws "y must have elements and y must be a square matrix", w)) /\
  (rows y <> 0%nat -> cols y = rows y ->
   (forall what, cov_matrix_free M y = Throws what ->
      cov_matrix_unconstrain M y w = (Throws what, w)) /\
   (forall L_vec, cov_matrix_free M y = Ok L_vec ->
      exists xs,
        cov_matrix_unconstrain M y w
          = (Ok tt, Build_writer (data_r_ w ++ xs) (data_i_ w) (CONSTRAINT_TOLERANCE w)) /\
        List.length xs = (rows y * (rows y + 1) / 2)%nat /\
        (forall i d, (i < List.length xs)%nat -> (i < List.length L_vec)%nat ->
           nth i xs d = nth i L_vec d) /\
        (List.length L_vec = (rows y * (rows y + 1) / 2)%nat -> xs = L_vec))).
Proof.
  unfold cov_matrix_unconstrain. cbv zeta. split.
  - intros [H0 | Hne].
    + rewrite H0. reflexivity.
    + destruct (rows y =? 0)%nat; [reflexivity|].
      apply Nat.eqb_neq in Hne. rewrite Hne. reflexivity.
  - intros H0 Hsq. apply Nat.eqb_neq in H0. rewrite H0, Hsq, Nat.eqb_refl.
    cbn [orb negb]. rewrite triangle_sum. split.
    + intros what Hf. rewrite lift_then_write_gen, Hf. reflexivity.
    + intros L_vec Hf. exists (first_coeffs M (rows y * (rows y + 1) / 2) L_vec).
      split; [|split; [|split]].
      * rewrite lift_then_write_gen, Hf. reflexivity.
      * apply first_coeffs_length.
      * intros i d Hi Hv. rewrite first_coeffs_length in Hi.
        apply first_coeffs_nth; assumption.
      * intros <-. apply first_coeffs_all.
Qed.

(** X11: corr_matrix_unconstrain checks the matrix first and throws the
    check's error without writing; then it throws what corr_matrix_free
    throws, writing nothing, and otherwise appends k (k - 1) / 2 values for a
    matrix of k rows, which are the leading coefficients of the vector
    corr_matrix_free returned, and the whole vector when it has that length;
    for a matrix of one row nothing is written. *)
Theorem corr_matrix_unconstrain_count (y : matrix_t T) (w : writer T) :
  (forall what, check_corr_matrix M y = Throws what ->
     corr_matrix_unconstrain M y w = (Throws what, w)) /\
  (check_corr_matrix M y = Ok tt ->
   (forall what, corr_matrix_free M y = Throws what ->
      corr_matrix_unconstrain M y w = (Throws what, w)) /\
   (forall cpcs, corr_matrix_free M y = Ok cpcs ->
      exists xs,
        corr_matrix_unconstrain M y w
          = (Ok tt, Build_writer (data_r_ w ++ xs) (data_i_ w) (CONSTRAINT_TOLERANCE w)) /\
        List.length xs = (rows y * (rows y - 1) / 2)%nat /\
        (forall i d, (i < List.length xs)%nat -> (i < List.length cpcs)%nat ->
           nth i xs d = nth i cpcs d) /\
        (List.length cpcs = (rows y * (rows y - 1) / 2)%nat -> xs = cpcs) /\
        (rows y = 1%nat -> xs = []))).
Proof.
  unfold corr_matrix_unconstrain. cbv zeta. split.
  - intros what Hc. rewrite check_then, Hc. reflexivity.
  - intro Hc. split.
    + intros what Hf. rewrite check_then, Hc, lift_then_write_gen, Hf. reflexivity.
    + intros cpcs Hf. exists (first_coeffs M (rows y * (rows y - 1) / 2) cpcs).
      split; [|split; [|split; [|split]]].
      * rewrite check_then, Hc, lift_then_write_gen, Hf. reflexivity.
      * apply first_coeffs_length.
      * intros i d Hi Hv. rewrite first_coeffs_length in Hi.
        apply first_coeffs_nth; assumption.
      * intros <-. apply first_coeffs_all.
      * intros ->. reflexivity.
Qed.

Ltac unfold_methods :=
  unfold integer, scalar_unconstrain, scalar_pos_unconstrain,
    corr_unconstrain, prob_unconstrain,
    ordered_unconstrain, positive_ordered_unconstrain, vector_unconstrain,
    row_vector_unconstrain, matrix_unconstrain, sparse_matrix_unconstrain,
    vector_lb_unconstrain, row_vector_lb_unconstrain, matrix_lb_unconstrain,
    sparse_matrix_lb_unconstrain, vector_ub_unconstrain, row_vector_ub_unconstrain,
    matrix_ub_unconstrain, sparse_matrix_ub_unconstrain, vector_lub_unconstrain,
    row_vector_lub_unconstrain, matrix_lub_unconstrain, sparse_matrix_lub_unconstrain,
    vector_offset_multiplier_unconstrain, row_vector_offset_multiplier_unconstrain,
    matrix_offset_multiplier_unconstrain, sparse_matrix_offset_multiplier_unconstrain,
    unit_vector_unconstrain, simplex_unconstrain, cholesky_factor_cov_unconstrain,
    cholesky_factor_corr_unconstrain, cov_matrix_unconstrain, corr_matrix_unconstrain,
    scalar_lb_unconstrain, scalar_ub_unconstrain, scalar_lub_unconstrain,
    scalar_offset_multiplier_unconstrain.

(* rewrite a method applied to a writer into its closed form and split on the
   results of the functions of stan::math it called *)
Ltac closed_form :=
  cbv zeta;
  repeat first
    [ rewrite check_then | rewrite lift_then_write | rewrite lift_then_write_gen
    | rewrite lift_then_push | rewrite for_each_push_r | rewrite extend_reals
    | match goal with
      | |- context [match ?r with Ok _ => _ | Throws _ => _ end] => destruct r
      | |- context [if ?b then _ else _] => destruct b
      end ].

Lemma ordered_closed (chk : result unit) (x0 : T) (xs : list T) (w : writer T) :
  (lift chk ;; push_r x0 ;; for_each xs push_r) w
  = match chk with
    | Ok _ => (Ok tt, Build_writer (data_r_ w ++ x0 :: xs) (data_i_ w) (CONSTRAINT_TOLERANCE w))
    | Throws what => (Throws what, w)
    end.
Proof.
  rewrite check_then. destruct chk; [|reflexivity].
  unfold bind, push_r at 1. rewrite for_each_push_r, extend_push_r, extend_reals.
  reflexivity.
Qed.

(** X12: every method other than the sixteen that transform a container
    element by element is all or nothing: when it throws, the writer is as it
    was before the call. *)
Theorem throw_leaves_writer_unchanged (c : call T) (w w' : writer T) (what : string) :
  elementwise c = false -> exec M c w = (Throws what, w') -> w' = w.
Proof.
  intros He Hx. destruct c; try discriminate He; cbn [exec] in Hx;
    revert Hx; unfold_methods;
    try match goal with y : list T |- _ => destruct y end;
    rewrite ?ordered_closed; closed_form; unfold throw, ret, push_r, push_i;
    intro Hx; congruence.
Qed.

(** X13: each of the eight methods that take one scalar either appends exactly
    one value to the real sequence or throws and leaves the writer as it
    was; scalar_unconstrain never throws and appends its argument; 
    scalar_pos_unconstrain throws exactly when y < 0 and otherwise appends
    log(y). *)
Theorem scalar_methods_write_one (c : call T) (w : writer T) :
  scalar_call c = true ->
  ((exists x, exec M c w
      = (Ok tt, Build_writer (data_r_ w ++ [x]) (data_i_ w) (CONSTRAINT_TOLERANCE w))) \/
   (exists what, exec M c w = (Throws what, w))) /\
  (forall y, c = c_scalar_unconstrain y ->
     exec M c w = (Ok tt, Build_writer (data_r_ w ++ [y]) (data_i_ w) (CONSTRAINT_TOLERANCE w))) /\
  (forall y, c = c_scalar_pos_unconstrain y ->
     exec M c w = if T_is_negative M y then (Throws "y is negative", w)
                  else (Ok tt, Build_writer (data_r_ w ++ [T_log M y]) (data_i_ w)
                                 (CONSTRAINT_TOLERANCE w))).
Proof.
  intro Hs. split; [|split].
  - destruct c; try discriminate Hs; cbn [exec]; unfold_methods;
      unfold throw, push_r, push_back; closed_form;
      solve [left; eexists; reflexivity | right; eexists; reflexivity].
  - intros y ->. reflexivity.
  - intros y ->. cbn [exec]. unfold scalar_pos_unconstrain.
    destruct (T_is_negative M y); reflexivity.
Qed.

Lemma reals_only_ret {A} (a : A) : reals_only (@ret T A a).
Proof. intro w. reflexivity. Qed.

Lemma reals_only_throw {A} what : reals_only (@throw T A what).
Proof. intro w. reflexivity. Qed.

Lemma reals_only_lift {A} (r : result A) : reals_only (@lift T A r).
Proof. intro w. reflexivity. Qed.

Lemma reals_only_push_r (y : T) : reals_only (push_r y).
Proof. intro w. reflexivity. Qed.

Lemma reals_only_bind {A B} (m : W T A) (f : A -> W T B) :
  reals_only m -> (forall a, reals_only (f a)) -> reals_only (bind m f).
Proof.
  intros Hm Hf w. unfold bind. specialize (Hm w).
  destruct (m w) as [[a|what] w1]; cbn [snd] in *; [|exact Hm].
  rewrite (Hf a w1). exact Hm.
Qed.

Lemma reals_only_for_each {A} (xs : list A) (body : A -> W T unit) :
  (forall x, reals_only (body x)) -> reals_only (for_each xs body).
Proof.
  intro Hb. induction xs as [|x rest IH]; cbn [for_each].
  - apply reals_only_ret.
  - apply reals_only_bind; [apply Hb|intros _; exact IH].
Qed.

Lemma reals_only_if {A} (b : bool) (m1 m2 : W T A) :
  reals_only m1 -> reals_only m2 -> reals_only (if b then m1 else m2).
Proof. destruct b; auto. Qed.

(** X14: integer is the only method that touches the integer sequence: it
    appends its argument there and leaves the real sequence alone, and every
    other method, whether it returns or throws, leaves the integer sequence
    as it was. *)
Theorem integer_sequence_frame (c : call T) (w : writer T) :
  match c with
  | c_integer n =>
      exec M c w
      = (Ok tt, Build_writer (data_r_ w) (data_i_ w ++ [n]) (CONSTRAINT_TOLERANCE w))
  | _ => data_i_ (snd (exec M c w)) = data_i_ w
  end.
Proof.
  destruct c; cbn [exec]; try reflexivity;
    match goal with |- data_i_ (snd (?m w)) = _ => enough (Hr : reals_only m) by exact (Hr w) end;
    unfold_methods;
    try match goal with y : list T |- _ => destruct y end; cbv zeta;
    repeat first
      [ apply reals_only_ret | apply reals_only_throw | apply reals_only_lift
      | apply reals_only_push_r | apply reals_only_if
      | apply reals_only_for_each; intro | apply reals_only_bind; [|intro] ].
Qed.

End WriterValues.

(** ** Runs of the writer on the test doubles *)

(* 1 and 2 are accepted and written, -1 is rejected, 5 is not reached *)
Lemma lb_unconstrain_elementwise_witness :
  Forall2 (fun y x => lb_free WStub.math y d_zero = Ok x) [1; 2] [1; 2] /\
  vector_lb_unconstrain WStub.math d_zero [1; 2; -1; 5] WStub.empty
  = (Throws "value out of support", Build_writer [1; 2] [] d_1e_8).
Proof.
  refine ((fun Hok => conj Hok _) _); [|repeat constructor].
  exact (proj1 (proj2 (proj2 (proj2 (proj2
           (lb_unconstrain_elementwise WStub.math d_zero [1; 2] [5] [1; 2]
              WStub.empty Hok)))) (-1) "value out of support"%string eq_refl)).
Defined.

(* 1 and 2 are accepted and written, -1 is rejected, 5 is not reached *)
Lemma ub_unconstrain_elementwise_witness :
  Forall2 (fun y x => ub_free WStub.math y d_one = Ok x) [1; 2] [1; 2] /\
  vector_ub_unconstrain WStub.math d_one [1; 2; -1; 5] WStub.empty
  = (Throws "value out of support", Build_writer [1; 2] [] d_1e_8).
Proof.
  refine ((fun Hok => conj Hok _) _); [|repeat constructor].
  exact (proj1 (proj2 (proj2 (proj2 (proj2
           (ub_unconstrain_elementwise WStub.math d_one [1; 2] [5] [1; 2]
              WStub.empty Hok)))) (-1) "value out of support"%string eq_refl)).
Defined.

(* 1 and 2 are accepted and written, -1 is rejected, 5 is not reached *)
Lemma lub_unconstrain_elementwise_witness :
  Forall2 (fun y x => lub_free WStub.math y d_zero d_one = Ok x) [1; 2] [1; 2] /\
  vector_lub_unconstrain WStub.math d_zero d_one [1; 2; -1; 5] WStub.empty
  = (Throws "value out of support", Build_writer [1; 2] [] d_1e_8).
Proof.
  refine ((fun Hok => conj Hok _) _); [|repeat constructor].
  exact (proj1 (proj2 (proj2 (proj2 (proj2
           (lub_unconstrain_elementwise WStub.math d_zero d_one [1; 2] [5] [1; 2]
              WStub.empty Hok)))) (-1) "value out of support"%string eq_refl)).
Defined.

(* 1 and 2 are accepted and written, -1 is rejected, 5 is not reached *)
Lemma offset_multiplier_unconstrain_elementwise_witness :
  Forall2 (fun y x => offset_multiplier_free WStub.math y d_zero d_one = Ok x) [1; 2] [1; 2] /\
  vector_offset_multiplier_unconstrain WStub.math d_zero d_one [1; 2; -1; 5] WStub.empty
  = (Throws "value out of support", Build_writer [1; 2] [] d_1e_8).
Proof.
  refine ((fun Hok => conj Hok _) _); [|repeat constructor].
  exact (proj1 (proj2 (proj2 (proj2 (proj2
           (offset_multiplier_unconstrain_elementwise WStub.math d_zero d_one [1; 2] [5] [1; 2]
              WStub.empty Hok)))) (-1) "value out of support"%string eq_refl)).
Defined.

(* cov_matrix_unconstrain on a matrix that is not square *)
Lemma throw_leaves_writer_unchanged_witness :
  let c := c_cov_matrix_unconstrain (Build_matrix_t Z 2 3 (fun _ _ => 0)) in
  let w := Build_writer [7] [8] d_1e_8 in
  elementwise c = false /\
  fst (exec WStub.math c w)
    = Throws "y must have elements and y must be a square matrix" /\
  snd (exec WStub.math c w) = w.
Proof.
  intros c w. split; [reflexivity|]. split; [reflexivity|].
  apply (throw_leaves_writer_unchanged WStub.math c w (snd (exec WStub.math c w))
           "y must have elements and y must be a square matrix"%string);
    reflexivity.
Defined.

(* scalar_lb_unconstrain on a value in the support *)
Lemma scalar_methods_write_one_witness :
  scalar_call (c_scalar_lb_unconstrain d_zero 3) = true /\
  ((exists x, exec WStub.math (c_scalar_lb_unconstrain d_zero 3) WStub.empty
              = (Ok tt, Build_writer ([] ++ [x]) [] d_1e_8)) \/
   (exists what, exec WStub.math (c_scalar_lb_unconstrain d_zero 3) WStub.empty
                 = (Throws what, WStub.empty))).
Proof.
  split; [reflexivity|].
  exact (proj1 (scalar_methods_write_one WStub.math
                  (c_scalar_lb_unconstrain d_zero 3) WStub.empty eq_refl)).
Defined.

(** ** The step sizes the search visits *)

Lemma loop_trace_nth d x its e x' :
  loop_trace d x its e x' ->
  forall i it, nth_error its i = Some it ->
    pr_epsilon (it_probe it) = Nat.iter i (scale d) x.
Proof.
  revert x. induction its as [|it0 rest IH]; intros x Htr i it Hi; [destruct Htr|].
  cbn [loop_trace] in Htr. destruct Htr as (Hx & _ & Hrest).
  destruct i as [|i].
  - injection Hi as <-. exact Hx.
  - cbn [nth_error] in Hi. destruct rest as [|it2 rest]; [destruct i; discriminate Hi|].
    destruct Hrest as (_ & _ & Hrest).
    rewrite (IH _ Hrest i it Hi). apply iter_scale_shift.
Qed.

Lemma check_scaled_none_range d x :
  in_range x -> check_scaled (scale d x) = None -> in_range (scale d x).
Proof.
  intros Hr Hn. destruct (check_scaled_scale d x Hr) as [[e He]|(_ & Hr' & _)].
  - rewrite He in Hn. discriminate Hn.
  - exact Hr'.
Qed.

(* the step size the loop leaves by, in a run started in (0, 1e7] *)
Lemma loop_trace_range d x its e x' :
  in_range x -> loop_trace d x its e x' ->
  match e with
  | Break => in_range x'
  | Throw _ => exists x0, in_range x0 /\ x' = scale d x0
  end.
Proof.
  revert x. induction its as [|it0 rest IH]; intros x Hr Htr; [destruct Htr|].
  cbn [loop_trace] in Htr. destruct Htr as (_ & _ & Hrest).
  destruct rest as [|it2 rest].
  - destruct e.
    + destruct Hrest as (_ & ->). exact Hr.
    + destruct Hrest as (_ & -> & _). exists x. split; [exact Hr|reflexivity].
  - destruct Hrest as (_ & Hn & Hrest).
    exact (IH _ (check_scaled_none_range d x Hr Hn) Hrest).
Qed.

Lemma loop_trace_up_exact x its x' :
  in_range x -> loop_trace 1 x its Break x' ->
  (B2Q x' == B2Q x * 2 ^ Z.of_nat (List.length its - 1))%Q.
Proof.
  revert x. induction its as [|it0 rest IH]; intros x Hr Htr; [destruct Htr|].
  cbn [loop_trace] in Htr. destruct Htr as (_ & _ & Hrest).
  destruct rest as [|it2 rest].
  - destruct Hrest as (_ & ->). cbn. rewrite Qmult_1_r. reflexivity.
  - destruct Hrest as (_ & Hn & Hrest).
    assert (Hr' := check_scaled_none_range 1 x Hr Hn).
    rewrite (IH _ Hr' Hrest).
    change (scale 1 x) with (d_mul d_two x).
    destruct (up_step x Hr) as (-> & _).
    replace (List.length (it0 :: it2 :: rest) - 1)%nat
      with (S (List.length (it2 :: rest) - 1)) by (cbn [List.length]; lia).
    rewrite Qpow2_succ. ring.
Qed.

Lemma half_step x :
  in_range x -> in_range (d_mul d_half x) ->
  (B2Q (d_mul d_half x) <= B2Q x)%Q /\
  Fe (d_mul d_half x) <= Fe x /\
  (-1074 < Fe (d_mul d_half x) -> (B2Q (d_mul d_half x) * 2 == B2Q x)%Q).
Proof.
  intros Hr Hr'. assert (Hv : is_double x) by exact (proj1 Hr).
  destruct (in_range_inv x Hr) as (m & e & -> & He & Hm & Hn).
  revert Hr'. rewrite (d_mul_half m e Hv).
  destruct (-1074 <? e) eqn:Ee.
  - intros _. apply Z.ltb_lt in Ee. unfold B2Q. cbn [Fm Fe].
    assert (E2 : (2 ^ e == 2 ^ (e - 1) * 2)%Q).
    { replace e with ((e - 1) + 1) at 1 by lia. rewrite Qpow2_add. reflexivity. }
    split; [|split; [lia|]].
    + rewrite E2. assert (Hp := Qpow2_pos (e - 1)).
      assert (Hq : (0 <= inject_Z (Zpos m))%Q)
        by (rewrite <- (Zle_Qle 0); lia).
      setoid_replace (inject_Z (Zpos m) * (2 ^ (e - 1) * 2))%Q
        with (inject_Z (Zpos m) * 2 ^ (e - 1) + inject_Z (Zpos m) * 2 ^ (e - 1))%Q by ring.
      rewrite <- (Qplus_0_r (inject_Z (Zpos m) * 2 ^ (e - 1))) at 1.
      apply Qplus_le_compat; [apply Qle_refl|].
      apply Qmult_le_0_compat; [exact Hq|apply Qlt_le_weak; exact Hp].
    + intros _. rewrite E2. ring.
  - apply Z.ltb_ge in Ee. assert (e = -1074) by lia. subst e.
    assert (Hq0 := rne_div_nonneg (Zpos m) 1 ltac:(lia) ltac:(lia)).
    assert (Hq1 := rne_div_1_le (Zpos m) ltac:(lia)).
    assert (Hq2 : (Zpos m + 1) / 2 <= Zpos m)
      by (apply Z.div_le_upper_bound; lia).
    unfold round_finite.
    destruct (rne_div (Zpos m) 1 =? 0) eqn:E0.
    { intros (_ & Hg & _). discriminate Hg. }
    apply Z.eqb_neq in E0.
    destruct (rne_div (Zpos m) 1 =? 2 ^ 53) eqn:E53.
    { apply Z.eqb_eq in E53. exfalso.
      assert (Zpos m < 2 ^ 53) by lia. lia. }
    change (-1074 <=? 971) with true. cbv iota. intros _.
    unfold B2Q. cbn [Fm Fe]. rewrite Z2Pos.id by lia. split; [|split; [lia|]].
    + apply Qmult_le_compat_r; [|apply Qlt_le_weak; apply Qpow2_pos].
      rewrite <- Zle_Qle. lia.
    + intro Hlt. lia.
Qed.

Lemma loop_trace_down x its x' :
  in_range x -> loop_trace (-1) x its Break x' ->
  (B2Q x' <= B2Q x)%Q /\ Fe x' <= Fe x /\
  (-1074 < Fe x' -> (B2Q x' * 2 ^ Z.of_nat (List.length its - 1) == B2Q x)%Q).
Proof.
  revert x. induction its as [|it0 rest IH]; intros x Hr Htr; [destruct Htr|].
  cbn [loop_trace] in Htr. destruct Htr as (_ & _ & Hrest).
  destruct rest as [|it2 rest].
  - destruct Hrest as (_ & ->). split; [apply Qle_refl|]. split; [lia|].
    intros _. cbn. apply Qmult_1_r.
  - destruct Hrest as (_ & Hn & Hrest).
    assert (Hr' := check_scaled_none_range (-1) x Hr Hn).
    destruct (IH _ Hr' Hrest) as (Hle & Hfe & Hex).
    change (scale (-1) x) with (d_mul d_half x) in *.
    destruct (half_step x Hr Hr') as (Hle1 & Hfe1 & Hex1).
    split; [eapply Qle_trans; eassumption|]. split; [lia|].
    intro Hn'.
    replace (List.length (it0 :: it2 :: rest) - 1)%nat
      with (S (List.length (it2 :: rest) - 1)) by (cbn [List.length]; lia).
    rewrite Qpow2_succ, <- (Hex1 ltac:(lia)), <- (Hex Hn'). ring.
Qed.

(* comparisons of doubles *)
Lemma lt_le x y : d_lt x y = true -> d_le x y = true.
Proof.
  unfold d_lt, d_le, SFltb, SFleb. destruct (SFcompare x y) as [[]|]; congruence.
Qed.

Lemma le_not_nan x y : d_le x y = true -> is_nan x = false /\ is_nan y = false.
Proof.
  unfold d_le, SFleb. destruct x as [| | |]; destruct y as [| | |]; cbn;
    try discriminate; auto.
Qed.

Lemma eq_le_swap x y : d_eqb x y = true -> d_le y x = true.
Proof.
  unfold d_eqb, d_le, SFeqb, SFleb. rewrite (SFcompare_swap x y).
  destruct (SFcompare x y) as [[]|]; cbn; congruence.
Qed.

Lemma le_neq_lt x y : d_le x y = true -> d_eqb y x = false -> d_lt x y = true.
Proof.
  unfold d_eqb, d_le, d_lt, SFeqb, SFleb, SFltb. rewrite (SFcompare_swap x y).
  destruct (SFcompare x y) as [[]|]; cbn; congruence.
Qed.

(* a step size that passes the guard of init_stepsize is in (0, 1e7] when it
   is not negative *)
Lemma guard_in_range x :
  is_double x -> d_le d_zero x = true ->
  d_eqb x d_zero || d_gt x d_1e7 = false -> in_range x.
Proof.
  intros Hv Hle Hg. apply orb_false_elim in Hg. destruct Hg as [Hz Hgt].
  split; [exact Hv|]. split.
  - apply le_neq_lt; assumption.
  - apply not_gt_le_any; [exact (proj2 (le_not_nan _ _ Hle))|reflexivity|exact Hgt].
Qed.

Lemma in_range_nonneg x : in_range x -> is_double x /\ d_le d_zero x = true.
Proof. intros (Hv & Hgt & _). split; [exact Hv|]. apply lt_le. exact Hgt. Qed.

Lemma scaled_nonneg d x :
  in_range x -> is_double (scale d x) /\ d_le d_zero (scale d x) = true.
Proof.
  intro Hr. unfold scale. destruct (d =? 1).
  - destruct (scale_up x Hr) as (Hv & _ & [Hgt|[Hr' _]]).
    + split; [exact Hv|].
      assert (Hn : is_nan (d_mul d_two x) = false).
      { destruct (is_nan (d_mul d_two x)) eqn:En; [|reflexivity].
        destruct (nan_compare_false (d_mul d_two x) d_1e7 En) as [Hc _]. congruence. }
      apply d_le_ord; [reflexivity|exact Hv|reflexivity|exact Hn|].
      assert (Ho : ord d_1e7 < ord (d_mul d_two x))
        by (apply d_lt_ord; [reflexivity|exact Hv|reflexivity|exact Hn|exact Hgt]).
      change (ord d_zero) with 0.
      assert (0 < ord d_1e7) by reflexivity. lia.
    + exact (in_range_nonneg _ Hr').
  - destruct (scale_down x Hr) as (Hv & _ & [Hz|(_ & Hr' & _)]).
    + split; [exact Hv|]. apply eq_le_swap. exact Hz.
    + exact (in_range_nonneg _ Hr').
Qed.

Section SearchTrace.
Context {Point Rng Log : Type}.
Variable C : collaborators Point Rng Log.

(* a run of init_stepsize that made probes, with its loop described *)
Lemma init_stepsize_trace fuel (s : base_hmc Point Rng) (l : Log) o s' l' g :
  init_stepsize C fuel s l = Some (o, s', l', Some g) ->
  d_eqb (nom_epsilon_ s) d_zero || d_gt (nom_epsilon_ s) d_1e7 = false /\
  pr_epsilon (g_first g) = nom_epsilon_ s /\
  epsilon_jitter_ s' = epsilon_jitter_ s /\
  exists e,
    loop_trace (g_direction g) (nom_epsilon_ s) (g_loop g) e (nom_epsilon_ s') /\
    match e with Break => o = Returned | Throw what => o = Threw what end.
Proof.
  intro Hrun.
  destruct (init_stepsize_run C _ _ _ _ _ _ _ Hrun)
    as [(_ & _ & _ & _ & Hg)|(Hguard & pr & s1 & l1 & e & s2 & its & Hp & Hloop & Hg & He)];
    [discriminate Hg|].
  injection Hg as ->. cbn [g_first g_direction g_loop].
  destruct (probe_eq C s l) as (pr0 & z1 & r1 & l1' & Hp' & _ & _ & Heps & _).
  rewrite Hp in Hp'. injection Hp' as -> -> ->.
  destruct (search_loop_inv C _ _ _ _ _ _ _ _ _ Hloop) as (Htr & _ & _ & Hj & _).
  cbn [nom_epsilon_ epsilon_jitter_] in Htr, Hj.
  split; [exact Hguard|]. split; [exact Heps|].
  destruct e as [|what].
  - destruct He as (-> & ->). cbn [set_z nom_epsilon_ epsilon_jitter_].
    split; [exact Hj|]. exists Break. split; [exact Htr|reflexivity].
  - destruct He as (-> & ->).
    split; [exact Hj|]. exists (Throw what). split; [exact Htr|reflexivity].
Qed.

(** X15: in a run of init_stepsize that is not skipped, the first probe and
    the first probe of the loop both use the nominal step size of entry; the
    loop makes at least one probe, and its i-th probe (from 0) uses the entry
    step size scaled i times, by 2.0 when the direction is +1 and by 0.5
    otherwise. On normal return the nominal step size is the one of the last
    probe; when an error is thrown it is that step size scaled once more. *)
Theorem init_stepsize_probe_sizes fuel (s : base_hmc Point Rng) (l : Log) o s' l' g :
  init_stepsize C fuel s l = Some (o, s', l', Some g) ->
  let step x := if g_direction g =? 1 then d_mul d_two x else d_mul d_half x in
  pr_epsilon (g_first g) = nom_epsilon_ s /\
  g_loop g <> [] /\
  (forall i it, nth_error (g_loop g) i = Some it ->
     pr_epsilon (it_probe it) = Nat.iter i step (nom_epsilon_ s)) /\
  nom_epsilon_ s'
  = Nat.iter (match o with
              | Returned => List.length (g_loop g) - 1
              | Threw _ => List.length (g_loop g)
              end) step (nom_epsilon_ s).
Proof.
  intros Hrun step.
  destruct (init_stepsize_trace _ _ _ _ _ _ _ Hrun) as (_ & Hfirst & _ & e & Htr & Ho).
  change step with (scale (g_direction g)).
  split; [exact Hfirst|]. split; [|split].
  - intro Hnil. rewrite Hnil in Htr. exact Htr.
  - exact (loop_trace_nth _ _ _ _ _ Htr).
  - destruct (loop_trace_split _ _ _ _ _ Htr) as (front & it & Hits & _ & _ & He).
    rewrite Hits, length_app. cbn [List.length].
    destruct e as [|what]; subst o.
    + destruct He as (_ & ->). f_equal. lia.
    + destruct He as (_ & -> & _). f_equal. lia.
Qed.

(** X16: when init_stepsize, entered with a nominal step size in (0, 1e7],
    returns normally, the nominal step size it leaves is again in (0, 1e7].
    With direction +1 it is exactly the entry step size times 2^n, n being
    the number of scalings (loop probes less one); with direction -1 it is
    at most the entry step size, and exactly the entry step size divided by
    2^n unless it has reached the smallest binade of the doubles. *)
Theorem init_stepsize_accepted_size fuel (s : base_hmc Point Rng) (l : Log) s' l' g :
  in_range (nom_epsilon_ s) ->
  init_stepsize C fuel s l = Some (Returned, s', l', Some g) ->
  let n := Z.of_nat (List.length (g_loop g) - 1) in
  in_range (nom_epsilon_ s') /\
  (g_direction g = 1 ->
     (B2Q (nom_epsilon_ s') == B2Q (nom_epsilon_ s) * 2 ^ n)%Q) /\
  (g_direction g = -1 ->
     (B2Q (nom_epsilon_ s') <= B2Q (nom_epsilon_ s))%Q /\
     (-1074 < Fe (nom_epsilon_ s') ->
        (B2Q (nom_epsilon_ s') * 2 ^ n == B2Q (nom_epsilon_ s))%Q)).
Proof.
  intros Hr Hrun n.
  destruct (init_stepsize_trace _ _ _ _ _ _ _ Hrun) as (_ & _ & _ & e & Htr & Ho).
  destruct e as [|what]; [|discriminate Ho].
  split; [exact (loop_trace_range _ _ _ _ _ Hr Htr)|]. split.
  - intro Hd. rewrite Hd in Htr. exact (loop_trace_up_exact _ _ _ Hr Htr).
  - intro Hd. rewrite Hd in Htr.
    destruct (loop_trace_down _ _ _ Hr Htr) as (Hle & _ & Hex).
    split; assumption.
Qed.

(** X17: the constructor leaves a nominal step size that is a number and not
    negative and a jitter in [0, 1), and set_nominal_stepsize,
    set_stepsize_jitter, sample_stepsize and init_stepsize (however it ends)
    keep it so, whatever doubles the setters are given. *)
Theorem sampler_invariant :
  (forall (z : Point) (r : Rng), well_formed (new_base_hmc z r)) /\
  (forall s : base_hmc Point Rng, well_formed s ->
     (forall (Derived : Type) (update_L_ : base_hmc Point Rng -> Derived -> Derived)
             (e : double) (d : Derived),
        is_double e -> well_formed (fst (set_nominal_stepsize update_L_ e s d))) /\
     (forall j : double, is_double j -> well_formed (set_stepsize_jitter j s)) /\
     well_formed (sample_stepsize C s) /\
     (forall fuel (l : Log) o s' l' g,
        init_stepsize C fuel s l = Some (o, s', l', g) -> well_formed s')).
Proof.
  split; [intros z r; repeat split|].
  intros s (Hv & Hn & Hjv & Hj0 & Hj1). split; [|split; [|split]].
  - intros Derived update_L_ e d He. unfold set_nominal_stepsize. cbn [fst].
    destruct (d_gt e d_zero) eqn:Eg; [|repeat split; assumption].
    repeat split; cbn [set_nom_epsilon nom_epsilon_ epsilon_jitter_]; try assumption.
    apply lt_le. exact Eg.
  - intros j Hjd. unfold set_stepsize_jitter.
    destruct (d_gt j d_zero) eqn:Eg; cbn [andb]; [|repeat split; assumption].
    destruct (d_lt j d_one) eqn:El; [|repeat split; assumption].
    repeat split; cbn [set_epsilon_jitter nom_epsilon_ epsilon_jitter_]; try assumption.
    apply lt_le. exact Eg.
  - unfold sample_stepsize. cbn [set_epsilon epsilon_jitter_ rand_int_ nom_epsilon_].
    destruct (truthy (epsilon_jitter_ s)); [|repeat split; assumption].
    destruct (rand_uniform_ C (rand_int_ s)) as [u r].
    repeat split; assumption.
  - intros fuel l o s' l' g Hrun.
    destruct g as [g|].
    + destruct (init_stepsize_trace _ _ _ _ _ _ _ Hrun) as (Hg & _ & Hj & e & Htr & Ho).
      assert (Hr := guard_in_range _ Hv Hn Hg).
      assert (Hnom : is_double (nom_epsilon_ s') /\ d_le d_zero (nom_epsilon_ s') = true).
      { pose proof (loop_trace_range _ _ _ _ _ Hr Htr) as Hx. destruct e as [|what].
        - exact (in_range_nonneg _ Hx).
        - destruct Hx as (x0 & Hr0 & ->). exact (scaled_nonneg _ _ Hr0). }
      destruct Hnom as [Hv' Hn']. unfold well_formed. rewrite Hj. auto.
    + destruct (init_stepsize_run C _ _ _ _ _ _ _ Hrun)
        as [(_ & _ & -> & _)|(_ & pr & s1 & l1 & e & s2 & its & _ & _ & Hg & _)];
        [repeat split; assumption|discriminate Hg].
Qed.

End SearchTrace.

(** ** Step sizes the guard does not stop *)

(* rounding does not look at the sign *)
Lemma binary_round_aux_neg M E l :
  binary_round_aux prec emax true M E l
  = match binary_round_aux prec emax false M E l with
    | S754_zero _ => S754_zero true
    | S754_infinity _ => S754_infinity true
    | S754_nan => S754_nan
    | S754_finite _ m e => S754_finite true m e
    end.
Proof.
  unfold binary_round_aux.
  destruct (shr_fexp prec emax M E l) as [mrs e1].
  destruct (shr_fexp prec emax _ e1 loc_Exact) as [mrs2 e2].
  destruct (shr_m mrs2); [reflexivity| |reflexivity].
  destruct (e2 <=? emax - prec); reflexivity.
Qed.

Lemma stuck_passes x :
  stuck x -> d_eqb x d_zero = false /\ d_gt x d_1e7 = false.
Proof.
  intros [Hn|[_ Hlt]]; destruct x as [s|s| |s m e]; try discriminate Hn;
    try (split; reflexivity); destruct s; try discriminate Hlt; split; reflexivity.
Qed.

Lemma stuck_double x : stuck x -> stuck (d_mul d_two x).
Proof.
  intros [Hn|[Hv Hlt]].
  - left. destruct x; try discriminate Hn. reflexivity.
  - right. destruct x as [s|s| |s m e]; try discriminate Hlt;
      destruct s; try discriminate Hlt.
    + split; reflexivity.
    + assert (Hv' : is_double (S754_finite false m e)) by exact Hv.
      split.
      * exact (proj1 (proj2 (d_mul_ord d_two (S754_finite true m e)
                               eq_refl Hv eq_refl eq_refl))).
      * assert (E : d_mul d_two (S754_finite true m e)
                    = match d_mul d_two (S754_finite false m e) with
                      | S754_zero _ => S754_zero true
                      | S754_infinity _ => S754_infinity true
                      | S754_nan => S754_nan
                      | S754_finite _ m e => S754_finite true m e
                      end)
          by (unfold d_mul, d_two, SFmul; cbn [xorb]; apply binary_round_aux_neg).
        rewrite E, (d_mul_two m e Hv').
        destruct (Zpos m <? 2 ^ 52); [reflexivity|].
        destruct (e + 1 <=? 971); reflexivity.
Qed.

Section Divergence.
Context {Point Rng Log : Type}.
Variable C : collaborators Point Rng Log.

(* doubling from a step size the guard does not stop never raises an error *)
Lemma loop_trace_stuck x its e x' :
  stuck x -> loop_trace 1 x its e x' -> e = Break /\ stuck x'.
Proof.
  revert x. induction its as [|it rest IH]; intros x Hs Htr; [destruct Htr|].
  cbn [loop_trace] in Htr. destruct Htr as (_ & _ & Hrest).
  change (scale 1 x) with (d_mul d_two x) in Hrest.
  assert (Hs' := stuck_double _ Hs).
  destruct rest as [|it2 rest].
  - destruct e as [|what].
    + destruct Hrest as (_ & ->). split; [reflexivity|exact Hs].
    + destruct Hrest as (_ & -> & Hchk). unfold check_scaled in Hchk.
      destruct (stuck_passes _ Hs') as [Hz Hg]. rewrite Hg, Hz in Hchk.
      discriminate Hchk.
  - destruct Hrest as (_ & _ & Hrest). exact (IH _ Hs' Hrest).
Qed.

Lemma search_loop_stuck z fuel :
  (forall (s1 : base_hmc Point Rng) (l1 : Log),
     stuck (nom_epsilon_ s1) ->
     d_gt (pr_delta_H (fst (fst (probe C s1 l1)))) log_0_8 = true) ->
  forall (s : base_hmc Point Rng) (l : Log),
    stuck (nom_epsilon_ s) -> search_loop C fuel z 1 s l = None.
Proof.
  intro Hup. induction fuel as [|fuel IH]; intros s l Hs; [reflexivity|].
  rewrite search_loop_unfold.
  destruct (loop_body_run C z 1 s l) as (pr & z1 & r1 & l1 & Hp & _ & _ & _ & ->).
  assert (Hacc : accepts 1 (pr_delta_H pr) = false).
  { apply accepts_up.
    specialize (Hup (set_z s (ps_point_assign C (z_ s) z)) l Hs).
    rewrite Hp in Hup. exact Hup. }
  rewrite Hacc. unfold scale. change (1 =? 1) with true. cbv iota.
  assert (Hs' := stuck_double _ Hs).
  destruct (stuck_passes _ Hs') as [Hz Hg].
  unfold check_scaled. rewrite Hg, Hz. rewrite IH by exact Hs'. reflexivity.
Qed.

(** X18: the guard of init_stepsize stops a nominal step size that is 0 or
    above 1e7, not one that is negative or NaN: from such a step size the
    search is not skipped. With direction +1, doubling keeps the step size
    negative (or NaN) and neither error test ever fires: a run that finishes
    has returned normally, at a probe whose delta_H is not above log(0.8),
    and leaves a nominal step size that is still negative (or NaN). When
    every probe at a negative or NaN step size has delta_H > log(0.8),
    whatever the point it starts from, the loop never ends: no number of
    iterations gives a result. *)
Theorem init_stepsize_negative_diverges (s : base_hmc Point Rng) (l : Log) :
  stuck (nom_epsilon_ s) ->
  (forall fuel o s' l' g,
     init_stepsize C fuel s l = Some (o, s', l', g) ->
     exists g0,
       g = Some g0 /\
       (g_direction g0 = 1 ->
        o = Returned /\ probes_above g0 = false /\ stuck (nom_epsilon_ s'))) /\
  ((forall (s1 : base_hmc Point Rng) (l1 : Log),
      stuck (nom_epsilon_ s1) ->
      d_gt (pr_delta_H (fst (fst (probe C s1 l1)))) log_0_8 = true) ->
   forall fuel, init_stepsize C fuel s l = None).
Proof.
  intro Hs. destruct (stuck_passes _ Hs) as [Hz Hg]. split.
  - intros fuel o s' l' g Hrun.
    destruct (init_stepsize_run C _ _ _ _ _ _ _ Hrun)
      as [(Hguard & _)|(_ & pr & s1 & l1 & e & s2 & its & Hp & Hloop & -> & He)].
    { rewrite Hz, Hg in Hguard. discriminate Hguard. }
    eexists. split; [reflexivity|]. cbn [g_direction]. intro Hd.
    rewrite Hd in Hloop.
    destruct (probe_eq C s l) as (pr0 & z1 & r1 & l1' & Hp' & _).
    rewrite Hp in Hp'. injection Hp' as _ -> _.
    destruct (search_loop_inv C _ _ _ _ _ _ _ _ _ Hloop) as (Htr & _).
    cbn [nom_epsilon_] in Htr.
    destruct (loop_trace_stuck _ _ _ _ Hs Htr) as [-> Hs2].
    destruct He as (-> & ->). cbn [set_z nom_epsilon_].
    split; [reflexivity|]. split; [|exact Hs2].
    destruct (loop_trace_split _ _ _ _ _ Htr) as (front & it & -> & _ & _ & Hacc & _).
    unfold probes_above. cbn [g_loop]. rewrite forallb_app. cbn [forallb].
    unfold accepts in Hacc. change (1 =? 1) with true in Hacc.
    change (1 =? -1) with false in Hacc. cbn [andb orb] in Hacc.
    rewrite orb_false_r in Hacc. apply negb_true_iff in Hacc. rewrite Hacc.
    cbn [andb]. rewrite !andb_false_r. reflexivity.
  - intros Hup fuel.
    destruct (probe_eq C s l) as (pr & z1 & r1 & l1 & Hp & _).
    assert (Hd : d_gt (pr_delta_H pr) log_0_8 = true).
    { specialize (Hup s l Hs). rewrite Hp in Hup. exact Hup. }
    unfold init_stepsize. rewrite Hz, Hg. cbn [orb]. rewrite Hp, Hd.
    rewrite (search_loop_stuck (ps_point_copy C (z_ s)) fuel Hup) by exact Hs.
    reflexivity.
Qed.

End Divergence.

(** ** The range of the current step size *)

Lemma d_le_trans x y z : d_le x y = true -> d_le y z = true -> d_le x z = true.
Proof.
  unfold d_le, SFleb, SFcompare.
  destruct x as [sx|sx| |sx mx ex], y as [sy|sy| |sy my ey], z as [sz|sz| |sz mz ez];
    try discriminate; try reflexivity;
    try (destruct sx; try discriminate; try reflexivity;
         destruct sy; try discriminate; try reflexivity;
         destruct sz; try discriminate; reflexivity);
    destruct sx, sy, sz; try discriminate; try reflexivity;
    change (Pos.compare_cont Eq) with Pos.compare;
    destruct (Z.compare_spec ex ey), (Z.compare_spec ey ez), (Z.compare_spec ex ez);
    try discriminate; try reflexivity; try lia; subst;
    destruct (Pos.compare_spec mx my), (Pos.compare_spec my mz),
      (Pos.compare_spec mx mz);
    cbn [CompOpp]; try discriminate; try reflexivity; lia.
Qed.

Lemma one_minus_jitter j :
  fin j -> 0 <= ord j <= ord d_one ->
  fin (d_sub d_one j) /\ 0 <= ord (d_sub d_one j).
Proof.
  intros Fj Oj.
  assert (F0 : fin d_zero) by (split; reflexivity).
  assert (F1 : fin d_one) by (split; reflexivity).
  assert (Fm1 : fin (SFopp d_one)) by (split; reflexivity).
  assert (Fnj : fin (SFopp j)) by (apply fin_opp; assumption).
  assert (Esub : ord (d_sub d_one j) = ord (d_add d_one (SFopp j)))
    by (apply d_sub_add_opp; try apply F1; try apply Fj).
  assert (Olo : 0 <= ord (d_add d_one (SFopp j))).
  { change 0 with (ord (d_add d_one (SFopp d_one))).
    apply d_add_mono_r; try apply F1; try apply Fm1; try apply Fnj.
    rewrite !ord_opp. lia. }
  assert (Ohi : ord (d_add d_one (SFopp j)) <= ord d_one).
  { change (ord d_one) with (ord (d_add d_one d_zero)).
    apply d_add_mono_r; try apply F1; try apply F0; try apply Fnj.
    rewrite ord_opp. ord_consts. lia. }
  split; [|lia].
  apply fin_sub; [assumption|assumption|]. rewrite Esub. ord_consts. lia.
Qed.

Lemma one_plus_jitter j :
  fin j -> 0 <= ord j <= ord d_one ->
  fin (d_add d_one j) /\ ord (d_add d_one j) <= ord d_two.
Proof.
  intros Fj Oj.
  assert (F0 : fin d_zero) by (split; reflexivity).
  assert (F1 : fin d_one) by (split; reflexivity).
  assert (Ohi : ord (d_add d_one j) <= ord d_two).
  { change (ord d_two) with (ord (d_add d_one d_one)).
    apply d_add_mono_r; try apply F1; try apply Fj. lia. }
  assert (Olo : ord d_one <= ord (d_add d_one j)).
  { change (ord d_one) with (ord (d_add d_one d_zero)).
    apply d_add_mono_r; try apply F1; try apply F0; try apply Fj. ord_consts. lia. }
  split; [|exact Ohi].
  apply fin_add; [assumption|assumption|]. ord_consts. lia.
Qed.

(* products of a nominal step size that is not negative *)
Lemma nominal_times nom f :
  fin nom -> 0 <= ord nom -> fin f -> 0 <= ord f <= ord d_two ->
  d_le d_zero (d_mul nom f) = true /\ d_le (d_mul nom f) (d_mul nom d_two) = true.
Proof.
  intros Fn On Ff Of.
  assert (F0 : fin d_zero) by (split; reflexivity).
  assert (F2 : fin d_two) by (split; reflexivity).
  destruct (d_mul_ord nom f (proj1 Fn) (proj1 Ff) (proj2 Fn) (proj2 Ff)) as (_ & Vf & Nf).
  destruct (d_mul_ord nom d_two (proj1 Fn) eq_refl (proj2 Fn) eq_refl) as (_ & V2 & N2).
  split.
  - apply d_le_ord; [reflexivity|exact Vf|reflexivity|exact Nf|].
    assert (E0 : ord (d_mul nom d_zero) = 0).
    { destruct Fn as [_ Fn]. destruct nom; try discriminate Fn; reflexivity. }
    change (ord d_zero) with 0. rewrite <- E0.
    apply d_mul_mono_r; try apply Fn; try apply F0; try apply Ff; [exact On|].
    change (ord d_zero) with 0. lia.
  - apply d_le_ord; [exact Vf|exact V2|exact Nf|exact N2|].
    apply d_mul_mono_r; try apply Fn; try apply F2; try apply Ff; [exact On|lia].
Qed.

Section CurrentStepSize.
Context {Point Rng Log : Type}.
Variable C : collaborators Point Rng Log.

(** X19: for a sampler whose nominal step size is finite and not negative and
    whose jitter lies in [0, 1), and a uniform draw in [0, 1], the current
    step size that sample_stepsize leaves is a number between 0 and twice the
    nominal step size. *)
Theorem sample_stepsize_range (s : base_hmc Point Rng) :
  well_formed s -> is_finite (nom_epsilon_ s) = true ->
  (let u := fst (rand_uniform_ C (rand_int_ s)) in
   is_double u /\ d_le d_zero u = true /\ d_le u d_one = true) ->
  d_le d_zero (epsilon_ (sample_stepsize C s)) = true /\
  d_le (epsilon_ (sample_stepsize C s)) (d_mul (nom_epsilon_ s) d_two) = true.
Proof.
  intros (Hv & Hn & Hjv & Hj0 & Hj1) Fnom Hu.
  assert (F1 : fin d_one) by (split; reflexivity).
  assert (Fn : fin (nom_epsilon_ s)) by (split; assumption).
  assert (On : 0 <= ord (nom_epsilon_ s))
    by (apply (le_ord_fin d_zero); [split; reflexivity|exact Fn|exact Hn]).
  unfold sample_stepsize. cbn [set_epsilon epsilon_jitter_ rand_int_ nom_epsilon_ epsilon_].
  destruct (truthy (epsilon_jitter_ s)) eqn:Et.
  - destruct (rand_uniform_ C (rand_int_ s)) as [u r]. cbn [fst] in Hu.
    destruct Hu as (Hu & Hu0 & Hu1). cbn [set_rand_int epsilon_ epsilon_jitter_].
    unfold truthy in Et. apply negb_true_iff in Et.
    assert (Hjp : d_gt (epsilon_jitter_ s) d_zero = true)
      by (apply le_neq_lt; assumption).
    destruct (jitter_bounds _ _ _ Hv Hjv Hu Hn Fnom Hjp Hj1 Hu0 Hu1) as [Hlo Hhi].
    assert (Fj : fin (epsilon_jitter_ s))
      by (apply fin_between; [exact Hjv|exact Hj0|apply lt_le; exact Hj1]).
    assert (Oj : 0 <= ord (epsilon_jitter_ s) <= ord d_one).
    { split; [apply (le_ord_fin d_zero); [split; reflexivity|exact Fj|exact Hj0]|].
      apply (le_ord_fin _ d_one); [exact Fj|exact F1|apply lt_le; exact Hj1]. }
    destruct (one_minus_jitter _ Fj Oj) as [Fm Om].
    destruct (one_plus_jitter _ Fj Oj) as [Fp Op].
    assert (Om2 : ord (d_sub d_one (epsilon_jitter_ s)) <= ord d_two).
    { destruct (one_minus_jitter _ Fj Oj) as [_ _].
      assert (Hx : ord (d_sub d_one (epsilon_jitter_ s)) <= ord (d_sub d_one d_zero)).
      { rewrite !d_sub_add_opp; try apply F1; try apply Fj; try reflexivity.
        apply d_add_mono_r; try apply F1; try reflexivity;
          try (apply fin_opp; exact Fj).
        rewrite ord_opp. change (ord (SFopp d_zero)) with 0. lia. }
      change (ord (d_sub d_one d_zero)) with (ord d_one) in Hx. ord_consts. lia. }
    assert (Op0 : 0 <= ord (d_add d_one (epsilon_jitter_ s))).
    { assert (Hx : ord (d_add d_one d_zero) <= ord (d_add d_one (epsilon_jitter_ s))).
      { apply d_add_mono_r; try apply F1; try reflexivity; try apply Fj.
        change (ord d_zero) with 0. lia. }
      change (ord (d_add d_one d_zero)) with (ord d_one) in Hx. ord_consts. lia. }
    destruct (nominal_times _ _ Fn On Fm (conj Om Om2)) as [Hm0 _].
    destruct (nominal_times _ _ Fn On Fp (conj Op0 Op)) as [_ Hp2].
    split; eapply d_le_trans; eassumption.
  - cbn [epsilon_]. split; [exact Hn|].
    destruct (nominal_times _ _ Fn On F1 ltac:(ord_consts; lia)) as [_ H2].
    assert (E1 : d_le (nom_epsilon_ s) (d_mul (nom_epsilon_ s) d_one) = true).
    { destruct (d_mul_ord _ d_one Hv eq_refl Fnom eq_refl) as (_ & V1 & N1).
      apply d_le_ord; [exact Hv|exact V1|apply finite_not_nan; exact Fnom|exact N1|].
      rewrite ord_mul_one by exact Fn. lia. }
    eapply d_le_trans; eassumption.
Qed.

End CurrentStepSize.

(* Nominal step size 0.1, jitter 0.1, and the draw 0.5 of the test generator. *)
Lemma sample_stepsize_range_witness :
  let s := Build_base_hmc Stub.origin 0%nat Stub.d_0_1 Stub.d_0_1 Stub.d_0_1 in
  well_formed s /\
  d_le d_zero (epsilon_ (sample_stepsize (Stub.make Stub.quadratic) s)) = true /\
  d_le (epsilon_ (sample_stepsize (Stub.make Stub.quadratic) s))
       (d_mul Stub.d_0_1 d_two) = true.
Proof.
  intro s.
  refine ((fun Hw : well_formed s =>
             conj Hw (sample_stepsize_range (Stub.make Stub.quadratic) s Hw eq_refl _)) _).
  - cbv zeta. repeat split.
  - repeat split.
Defined.

(** ** The generator *)

Section Draws.
Context {Point Rng Log : Type}.
Variable C : collaborators Point Rng Log.

Lemma search_loop_draws fuel z d :
  forall (s : base_hmc Point Rng) (l : Log) e s' l' its,
    search_loop C fuel z d s l = Some (e, s', l', its) ->
    exists zs : list Point,
      List.length zs = List.length its /\
      Forall (fun z1 => exists z0, z1 = ps_point_assign C z0 z) zs /\
      rand_int_ s' = fold_left (fun r z1 => snd (sample_p C z1 r)) zs (rand_int_ s).
Proof.
  induction fuel as [|fuel IH]; intros s l e s' l' its Hrun; [discriminate Hrun|].
  rewrite search_loop_unfold, loop_body_spec in Hrun.
  destruct (probe_eq C (set_z s (ps_point_assign C (z_ s) z)) l)
    as (pr & z1 & r1 & l1 & Hp & _ & Hr & _).
  cbn [set_z z_ rand_int_ nom_epsilon_ epsilon_ epsilon_jitter_] in Hp, Hr.
  rewrite Hp in Hrun.
  assert (Hone : exists zs : list Point,
            List.length zs = 1%nat /\
            Forall (fun z1 => exists z0, z1 = ps_point_assign C z0 z) zs /\
            r1 = fold_left (fun r z1 => snd (sample_p C z1 r)) zs (rand_int_ s)).
  { exists [ps_point_assign C (z_ s) z]. split; [reflexivity|].
    split; [constructor; [eexists; reflexivity|constructor]|exact Hr]. }
  destruct (accepts d (pr_delta_H pr)).
  { injection Hrun as <- <- <- <-. exact Hone. }
  cbn [nom_epsilon_ set_nom_epsilon z_ rand_int_ epsilon_ epsilon_jitter_] in Hrun.
  destruct (check_scaled (scale d (nom_epsilon_ s))).
  { injection Hrun as <- <- <- <-. exact Hone. }
  destruct (search_loop C fuel z d _ l1) as [[[[e2 s2] l2] its2]|] eqn:Hrec;
    [|discriminate Hrun].
  injection Hrun as <- <- <- <-.
  destruct (IH _ _ _ _ _ _ Hrec) as (zs & Hlen & Hall & Hrng).
  cbn [rand_int_] in Hrng.
  exists (ps_point_assign C (z_ s) z :: zs).
  split; [cbn [List.length]; rewrite Hlen; reflexivity|].
  split; [constructor; [eexists; reflexivity|exact Hall]|].
  cbn [fold_left]. rewrite <- Hr. exact Hrng.
Qed.

(** X20: init_stepsize restores the ps_point sub-object of the point but not
    the generator: a search that is skipped leaves the generator as it was,
    and one that made probes leaves it advanced by one momentum draw
    (sample_p) per probe, the first probe and each probe of the loop. The
    draws are made in turn on points whose ps_point sub-object is the one of
    entry; they are all made on the entry point itself when the point has no
    member outside ps_point. (Copying the ps_point sub-object after assigning
    to it is taken to give what was assigned.) *)
Theorem init_stepsize_draws fuel (s : base_hmc Point Rng) (l : Log) o s' l' g :
  copy_of_assigned C ->
  init_stepsize C fuel s l = Some (o, s', l', g) ->
  exists zs : list Point,
    List.length zs = match g with
                     | None => 0%nat
                     | Some g => S (List.length (g_loop g))
                     end /\
    Forall (fun z => ps_point_copy C z = ps_point_copy C (z_ s)) zs /\
    rand_int_ s' = fold_left (fun r z => snd (sample_p C z r)) zs (rand_int_ s) /\
    ((forall z z' : Point, ps_point_copy C z = ps_point_copy C z' -> z = z') ->
     rand_int_ s'
     = Nat.iter (List.length zs) (fun r => snd (sample_p C (z_ s) r)) (rand_int_ s)).
Proof.
  intros Hlaw Hrun.
  assert (Hsame : forall (zs : list Point) (r : Rng),
            Forall (fun z => ps_point_copy C z = ps_point_copy C (z_ s)) zs ->
            (forall z z' : Point, ps_point_copy C z = ps_point_copy C z' -> z = z') ->
            fold_left (fun r z => snd (sample_p C z r)) zs r
            = Nat.iter (List.length zs) (fun r => snd (sample_p C (z_ s) r)) r).
  { intros zs r Hall Hinj. revert r.
    induction Hall as [|z zs Hz _ IH]; intro r; [reflexivity|].
    cbn [fold_left List.length]. rewrite IH, (Hinj _ _ Hz). symmetry.
    exact (Nat.iter_succ_r _ _ (fun r => snd (sample_p C (z_ s) r)) _). }
  destruct (init_stepsize_run C _ _ _ _ _ _ _ Hrun)
    as [(_ & _ & -> & _ & ->)|(_ & pr & s1 & l1 & e & s2 & its & Hp & Hloop & -> & He)].
  { exists []. split; [reflexivity|]. split; [constructor|]. split; reflexivity. }
  destruct (probe_eq C s l) as (pr0 & z1 & r1 & l1' & Hp' & _ & Hr & _).
  rewrite Hp in Hp'. injection Hp' as _ -> _.
  destruct (search_loop_draws _ _ _ _ _ _ _ _ _ Hloop) as (zs & Hlen & Hall & Hd).
  cbn [rand_int_] in Hd. cbn [g_loop].
  assert (Hs' : rand_int_ s' = rand_int_ s2)
    by (destruct e; destruct He as (_ & ->); reflexivity).
  assert (Hall' : Forall (fun z => ps_point_copy C z = ps_point_copy C (z_ s)) (z_ s :: zs)).
  { constructor; [reflexivity|].
    eapply Forall_impl; [|exact Hall]. intros z (z0 & ->). apply Hlaw. }
  assert (Hrng : rand_int_ s'
                 = fold_left (fun r z => snd (sample_p C z r)) (z_ s :: zs) (rand_int_ s)).
  { cbn [fold_left]. rewrite <- Hr, Hs'. exact Hd. }
  exists (z_ s :: zs).
  split; [cbn [List.length]; rewrite Hlen; reflexivity|].
  split; [exact Hall'|]. split; [exact Hrng|].
  intro Hinj. rewrite Hrng. apply Hsame; assumption.
Qed.

End Draws.

(* The search on the quadratic energy, from 0.1, with the point that counts
   the calls of init: one draw for each of its five probes. *)
Lemma init_stepsize_draws_witness :
  copy_of_assigned (Stub.with_cache Stub.quadratic) /\
  exists o s' l' g (zs : list Stub.cached_point),
    init_stepsize (Stub.with_cache Stub.quadratic) 1100 (Stub.fresh_cached Stub.d_0_1) tt
      = Some (o, s', l', Some g) /\
    List.length zs = S (List.length (g_loop g)) /\
    rand_int_ s'
    = fold_left (fun r z => snd (sample_p (Stub.with_cache Stub.quadratic) z r)) zs 0%nat.
Proof.
  refine ((fun Hlaw : copy_of_assigned (Stub.with_cache Stub.quadratic) =>
             conj Hlaw _) (fun z z_init => eq_refl)).
  assert (Hrun : exists o s' l' g,
            init_stepsize (Stub.with_cache Stub.quadratic) 1100
              (Stub.fresh_cached Stub.d_0_1) tt = Some (o, s', l', Some g))
    by (eexists _, _, _, _; vm_compute; reflexivity).
  destruct Hrun as (o & s' & l' & g & Hrun).
  destruct (init_stepsize_draws (Stub.with_cache Stub.quadratic) _ _ _ _ _ _ _ Hlaw Hrun)
    as (zs & Hlen & _ & Hrng & _).
  exists o, s', l', g, zs. split; [exact Hrun|]. split; [exact Hlen|exact Hrng].
Defined.

(** ** Runs of the search on the test doubles, continued *)

(* The search on the quadratic energy, from 0.1: four loop probes, at 0.1,
   0.2, 0.4 and 0.8. *)
Lemma init_stepsize_probe_sizes_witness :
  exists o s' l' g,
    init_stepsize (Stub.make Stub.quadratic) 1100 (Stub.fresh Stub.d_0_1) tt
      = Some (o, s', l', Some g) /\
    pr_epsilon (g_first g) = Stub.d_0_1 /\
    g_loop g <> [] /\
    nom_epsilon_ s'
    = Nat.iter (match o with
                | Returned => List.length (g_loop g) - 1
                | Threw _ => List.length (g_loop g)
                end)
               (fun x => if g_direction g =? 1 then d_mul d_two x else d_mul d_half x)
               Stub.d_0_1.
Proof.
  eexists _, _, _, _.
  refine ((fun Hrun =>
             let H := init_stepsize_probe_sizes _ _ _ _ _ _ _ _ Hrun in
             conj Hrun (conj (proj1 H) (conj (proj1 (proj2 H)) (proj2 (proj2 (proj2 H)))))) _).
  vm_compute. reflexivity.
Defined.

(* The same run: it returns with a nominal step size in (0, 1e7]. *)
Lemma init_stepsize_accepted_size_witness :
  in_range (nom_epsilon_ (Stub.fresh Stub.d_0_1)) /\
  exists s' l' g,
    init_stepsize (Stub.make Stub.quadratic) 1100 (Stub.fresh Stub.d_0_1) tt
      = Some (Returned, s', l', Some g) /\
    in_range (nom_epsilon_ s') /\
    (g_direction g = 1 ->
     (B2Q (nom_epsilon_ s')
      == B2Q Stub.d_0_1 * 2 ^ Z.of_nat (List.length (g_loop g) - 1))%Q).
Proof.
  split; [exact in_range_0_1|].
  eexists _, _, _.
  refine ((fun Hrun =>
             let H := init_stepsize_accepted_size (Stub.make Stub.quadratic) 1100
                        (Stub.fresh Stub.d_0_1) tt _ _ _ in_range_0_1 Hrun in
             conj Hrun (conj (proj1 H) (proj1 (proj2 H)))) _).
  vm_compute. reflexivity.
Defined.

(* A flat energy, for which every probe has delta_H = 0, and the nominal
   step size -0.1. *)
Lemma init_stepsize_negative_diverges_witness :
  stuck (nom_epsilon_ (Stub.fresh (SFopp Stub.d_0_1))) /\
  (forall (s1 : base_hmc Stub.ps_point nat) (l1 : unit),
     stuck (nom_epsilon_ s1) ->
     d_gt (pr_delta_H (fst (fst (probe (Stub.make Stub.flat) s1 l1)))) log_0_8 = true) /\
  init_stepsize (Stub.make Stub.flat) 5000 (Stub.fresh (SFopp Stub.d_0_1)) tt = None.
Proof.
  refine ((fun (Hs : stuck (nom_epsilon_ (Stub.fresh (SFopp Stub.d_0_1))))
               (Hup : forall (s1 : base_hmc Stub.ps_point nat) (l1 : unit),
                   stuck (nom_epsilon_ s1) ->
                   d_gt (pr_delta_H (fst (fst (probe (Stub.make Stub.flat) s1 l1))))
                        log_0_8 = true) =>
             conj Hs (conj Hup
               (proj2 (init_stepsize_negative_diverges (Stub.make Stub.flat)
                         (Stub.fresh (SFopp Stub.d_0_1)) tt Hs) Hup 5000%nat))) _ _).
  - right. split; reflexivity.
  - intros s1 l1 _. reflexivity.
Defined.
